(** * A shallow embedding of the parse callbacks and of the directory cache

    The development follows three source files of the build system:
    - [src/parse/interpreter.go]: the callbacks that the rule interpreter
      invokes while it parses a BUILD file or runs a pre/post-build hook;
    - [src/cache/dir_cache.go]: the directory based artifact cache;
    - [src/parse/rules/proto_rules.build_defs]: the helper functions of the
      build rules for protocol buffers.

    Go values are embedded as follows.  Strings are [string] (sequences of
    bytes), Go maps are [gmap], a panic is the [Panic] constructor of
    [result], and code that mutates through a pointer returns the updated
    value.  The operating system and the [core] package are not part of
    these files; what the callbacks need from them is collected in the class
    [Core] or modelled next to its first use. *)

From Stdlib Require Import ZArith Ascii String.
From stdpp Require Import gmap strings list sorting.

Set Warnings "-register-all,-clear-no-such-hyp".

Local Open Scope Z_scope.
Local Open Scope stdpp_scope.

(** ** Go strings: the functions of package [strings] that the code calls *)

Fixpoint HasPrefix (s prefix : string) {struct prefix} : bool :=
  match prefix with
  | EmptyString => true
  | String c prefix' =>
      match s with
      | EmptyString => false
      | String d s' => if Ascii.eqb c d then HasPrefix s' prefix' else false
      end
  end.

Fixpoint dropString (n : nat) (s : string) : string :=
  match n, s with
  | O, _ => s
  | S _, EmptyString => EmptyString
  | S n', String _ s' => dropString n' s'
  end.

Definition TrimPrefix (s prefix : string) : string :=
  if HasPrefix s prefix then dropString (String.length prefix) s else s.

Fixpoint Contains (s substr : string) : bool :=
  HasPrefix s substr ||
  match s with
  | EmptyString => false
  | String _ s' => Contains s' substr
  end.

Definition HasSuffix (s suffix : string) : bool :=
  HasPrefix (String.rev s) (String.rev suffix).

(** [unicode.IsSpace] on the UTF-8 encoding of a rune.  The white space of
    Unicode is [\t], [\n], [\v], [\f], [\r] and the space, which are one byte
    each; U+0085 and U+00A0, which are two bytes; and U+1680, U+2000 to
    U+200A, U+2028, U+2029, U+202F, U+205F and U+3000, which are three. *)
Definition isSpace1 (c : ascii) : bool := Ascii.is_space c.

Definition isSpace2 (c d : ascii) : bool :=
  let c := N_of_ascii c in
  let d := N_of_ascii d in
  ((c =? 194) && ((d =? 133) || (d =? 160)))%N.

Definition isSpace3 (c d e : ascii) : bool :=
  let c := N_of_ascii c in
  let d := N_of_ascii d in
  let e := N_of_ascii e in
  ((c =? 225) && (d =? 154) && (e =? 128)
   || (c =? 226) && (d =? 128)
      && ((128 <=? e) && (e <=? 138) || (e =? 168) || (e =? 169) || (e =? 175))
   || (c =? 226) && (d =? 129) && (e =? 159)
   || (c =? 227) && (d =? 128) && (e =? 128))%N.

(** The runes at the front of [s] that are white space are cut.  The three
    tests say when the first one, two or three bytes are such a rune; a
    byte sequence that is no UTF-8 decodes to the rune U+FFFD, which is no
    white space. *)
Fixpoint trimRunes (sp1 : ascii -> bool) (sp2 : ascii -> ascii -> bool)
    (sp3 : ascii -> ascii -> ascii -> bool) (s : string) : string :=
  match s with
  | EmptyString => s
  | String c s1 =>
      if sp1 c then trimRunes sp1 sp2 sp3 s1
      else match s1 with
           | EmptyString => s
           | String d s2 =>
               if sp2 c d then trimRunes sp1 sp2 sp3 s2
               else match s2 with
                    | EmptyString => s
                    | String e s3 =>
                        if sp3 c d e then trimRunes sp1 sp2 sp3 s3 else s
                    end
           end
  end.

(** [strings.TrimLeftFunc s unicode.IsSpace]. *)
Definition trimLeft (s : string) : string := trimRunes isSpace1 isSpace2 isSpace3 s.

(** [strings.TrimRightFunc s unicode.IsSpace]: the last rune is decoded
    from the last start byte, so the runes are tested from the end with
    their bytes in reverse. *)
Definition trimRight (s : string) : string :=
  String.rev (trimRunes isSpace1 (fun d c => isSpace2 c d)
                (fun e d c => isSpace3 c d e) (String.rev s)).

(** [strings.TrimSpace]: the white space of Unicode is cut from both ends
    of the string, first at the front. *)
Definition TrimSpace (s : string) : string := trimRight (trimLeft s).

(** ** Panics *)

(** The callbacks report errors by panicking with a formatted message.  The
    constructors name the panic sites; the names are those the
    specification gives to the error kinds. *)
Inductive PanicKind :=
| DuplicateTarget          (* "Duplicate build target in %s: %s" *)
| TestCommandWithoutTest   (* "... has been given a test command but isn't a test" *)
| TestWithoutTestCommand   (* "... is a test but hasn't been given a test command" *)
| UnknownTarget            (* "Unknown build target %s in %s" *)
| ImmutableBuiltTarget     (* "Attempted to modify target %s, but it's already built" *)
| InvalidPath              (* "... build target paths can't contain ../" *)
| AbsolutePath             (* "... is an absolute path; that's not allowed." *)
| CrossPackageFile (dir : string) (* "... but that belongs to another package (%s)." *)
| IndexOutOfRange          (* the run-time panic of an index or slice expression *)
| Unsubincludable          (* "Failed to subinclude %s; package %s has no target by that name" *)
| VisibilityViolation      (* "Can't subinclude %s from %s due to visibility constraints" *)
| MultipleOutputs          (* "... subinclude targets must have exactly one output" *)
| DuplicateOutput          (* raised by Package.RegisterOutput *)
| InvalidLabel             (* raised by the label parsers of core *)
| GlobError                (* panic(err) in Glob and shouldExcludeMatch *)
| FatalNotBuilding.        (* log.Fatalf in GetLabels *)

Inductive result (A : Type) :=
| Ok (a : A)
| Panic (e : PanicKind).
Arguments Ok {A} a.
Arguments Panic {A} e.

Global Instance result_bind : MBind result := fun A B k r =>
  match r with
  | Ok a => k a
  | Panic e => Panic e
  end.

Global Instance result_ret : MRet result := fun A a => Ok a.

(** ** The data model of package core, as far as the callbacks touch it *)

(** Modelled from the spec: "BuildLabel = (package-name, name)", equal iff
    both fields are (the type is declared in package core). *)
Record BuildLabel := mkLabel { PackageName : string; Name : string }.

Global Instance BuildLabel_eq_dec : EqDecision BuildLabel.
Proof. solve_decision. Defined.

Global Instance BuildLabel_countable : Countable BuildLabel.
Proof.
  refine (inj_countable' (fun l => (PackageName l, Name l))
            (fun p => mkLabel p.1 p.2) _).
  by intros [].
Defined.

(** Modelled from the spec: the states of a target, "in increasing order:
    Inactive, Active, Pending, Building, Built, Failed" (the declaration of
    the type is in package core). *)
Inductive BuildTargetState := Inactive | Active | Pending | Building | Built | Failed.

Definition stateRank (s : BuildTargetState) : Z :=
  match s with
  | Inactive => 0 | Active => 1 | Pending => 2
  | Building => 3 | Built => 4 | Failed => 5
  end.

Global Instance BuildTargetState_eq_dec : EqDecision BuildTargetState.
Proof. solve_decision. Defined.

(** Modelled from the spec: the inputs of a target, with the constructors
    that parseSource builds: a file of a package ([core.FileLabel]), a
    build label, and a file of the output of a label
    ([core.BuildFileLabel]). *)
Inductive BuildInput :=
| FileLabel (File : string) (Package : string)
| TargetLabel (label : BuildLabel)
| BuildFileLabel (label : BuildLabel) (File : string).

(** Modelled from the spec: the fields of [core.BuildTarget] that the
    callbacks read or write.  [Dependencies] holds the resolved
    dependencies, which the Go code reaches through pointers; the targets
    form a DAG, so the pointer structure unfolds to a finite tree. *)
Inductive BuildTarget := mkBuildTarget {
  Label : BuildLabel;
  IsBinary : bool;
  IsTest : bool;
  NeedsTransitiveDependencies : bool;
  OutputIsComplete : bool;
  Containerise : bool;
  NoTestOutput : bool;
  SkipCache : bool;
  TestOnly : bool;
  Flakiness : Z;
  BuildTimeout : Z;
  TestTimeout : Z;
  BuildingDescription : string;
  Command : string;
  TestCommand : string;
  Labels : list string;
  Sources : list BuildInput;
  NamedSources : list (string * BuildInput);
  Data : list BuildInput;
  Tools : list BuildLabel;
  DeclaredDependencies : list BuildLabel;
  ExportedDependencies : list BuildLabel;
  Dependencies : list BuildTarget;
  outputs : list string;
  Licences : list string;
  Visibility : list BuildLabel;
  state : BuildTargetState
}.

(** Modelled from the spec: [core.NewBuildTarget]; a new target has the
    label it is given, no attributes, and is Inactive. *)
Definition NewBuildTarget (label : BuildLabel) : BuildTarget :=
  mkBuildTarget label false false false false false false false false
    0 0 0 "" "" "" [] [] [] [] [] [] [] [] [] [] [] Inactive.

(** Field updates ([target.F = v] in Go). *)
Definition setFlags (t : BuildTarget)
    (binary test needsTransitiveDeps outputIsComplete containerise
     noTestOutput skipCache testOnly : bool)
    (flakiness buildTimeout testTimeout : Z) : BuildTarget :=
  mkBuildTarget (Label t) binary test needsTransitiveDeps outputIsComplete
    containerise noTestOutput skipCache testOnly flakiness buildTimeout
    testTimeout (BuildingDescription t) (Command t) (TestCommand t)
    (Labels t) (Sources t) (NamedSources t) (Data t) (Tools t)
    (DeclaredDependencies t) (ExportedDependencies t) (Dependencies t)
    (outputs t) (Licences t) (Visibility t) (state t).

Definition setBuildingDescription (t : BuildTarget) (d : string) : BuildTarget :=
  mkBuildTarget (Label t) (IsBinary t) (IsTest t)
    (NeedsTransitiveDependencies t) (OutputIsComplete t) (Containerise t)
    (NoTestOutput t) (SkipCache t) (TestOnly t) (Flakiness t)
    (BuildTimeout t) (TestTimeout t) d (Command t) (TestCommand t)
    (Labels t) (Sources t) (NamedSources t) (Data t) (Tools t)
    (DeclaredDependencies t) (ExportedDependencies t) (Dependencies t)
    (outputs t) (Licences t) (Visibility t) (state t).

Definition setCommand (t : BuildTarget) (c : string) : BuildTarget :=
  mkBuildTarget (Label t) (IsBinary t) (IsTest t)
    (NeedsTransitiveDependencies t) (OutputIsComplete t) (Containerise t)
    (NoTestOutput t) (SkipCache t) (TestOnly t) (Flakiness t)
    (BuildTimeout t) (TestTimeout t) (BuildingDescription t) c
    (TestCommand t) (Labels t) (Sources t) (NamedSources t) (Data t)
    (Tools t) (DeclaredDependencies t) (ExportedDependencies t)
    (Dependencies t) (outputs t) (Licences t) (Visibility t) (state t).

Definition setTestCommand (t : BuildTarget) (c : string) : BuildTarget :=
  mkBuildTarget (Label t) (IsBinary t) (IsTest t)
    (NeedsTransitiveDependencies t) (OutputIsComplete t) (Containerise t)
    (NoTestOutput t) (SkipCache t) (TestOnly t) (Flakiness t)
    (BuildTimeout t) (TestTimeout t) (BuildingDescription t) (Command t)
    c (Labels t) (Sources t) (NamedSources t) (Data t) (Tools t)
    (DeclaredDependencies t) (ExportedDependencies t) (Dependencies t)
    (outputs t) (Licences t) (Visibility t) (state t).

Definition setLabels (t : BuildTarget) (l : list string) : BuildTarget :=
  mkBuildTarget (Label t) (IsBinary t) (IsTest t)
    (NeedsTransitiveDependencies t) (OutputIsComplete t) (Containerise t)
    (NoTestOutput t) (SkipCache t) (TestOnly t) (Flakiness t)
    (BuildTimeout t) (TestTimeout t) (BuildingDescription t) (Command t)
    (TestCommand t) l (Sources t) (NamedSources t) (Data t) (Tools t)
    (DeclaredDependencies t) (ExportedDependencies t) (Dependencies t)
    (outputs t) (Licences t) (Visibility t) (state t).

Definition setSources (t : BuildTarget) (l : list BuildInput) : BuildTarget :=
  mkBuildTarget (Label t) (IsBinary t) (IsTest t)
    (NeedsTransitiveDependencies t) (OutputIsComplete t) (Containerise t)
    (NoTestOutput t) (SkipCache t) (TestOnly t) (Flakiness t)
    (BuildTimeout t) (TestTimeout t) (BuildingDescription t) (Command t)
    (TestCommand t) (Labels t) l (NamedSources t) (Data t) (Tools t)
    (DeclaredDependencies t) (ExportedDependencies t) (Dependencies t)
    (outputs t) (Licences t) (Visibility t) (state t).

Definition setNamedSources (t : BuildTarget) (l : list (string * BuildInput)) : BuildTarget :=
  mkBuildTarget (Label t) (IsBinary t) (IsTest t)
    (NeedsTransitiveDependencies t) (OutputIsComplete t) (Containerise t)
    (NoTestOutput t) (SkipCache t) (TestOnly t) (Flakiness t)
    (BuildTimeout t) (TestTimeout t) (BuildingDescription t) (Command t)
    (TestCommand t) (Labels t) (Sources t) l (Data t) (Tools t)
    (DeclaredDependencies t) (ExportedDependencies t) (Dependencies t)
    (outputs t) (Licences t) (Visibility t) (state t).

Definition setData (t : BuildTarget) (l : list BuildInput) : BuildTarget :=
  mkBuildTarget (Label t) (IsBinary t) (IsTest t)
    (NeedsTransitiveDependencies t) (OutputIsComplete t) (Containerise t)
    (NoTestOutput t) (SkipCache t) (TestOnly t) (Flakiness t)
    (BuildTimeout t) (TestTimeout t) (BuildingDescription t) (Command t)
    (TestCommand t) (Labels t) (Sources t) (NamedSources t) l (Tools t)
    (DeclaredDependencies t) (ExportedDependencies t) (Dependencies t)
    (outputs t) (Licences t) (Visibility t) (state t).

Definition setTools (t : BuildTarget) (l : list BuildLabel) : BuildTarget :=
  mkBuildTarget (Label t) (IsBinary t) (IsTest t)
    (NeedsTransitiveDependencies t) (OutputIsComplete t) (Containerise t)
    (NoTestOutput t) (SkipCache t) (TestOnly t) (Flakiness t)
    (BuildTimeout t) (TestTimeout t) (BuildingDescription t) (Command t)
    (TestCommand t) (Labels t) (Sources t) (NamedSources t) (Data t) l
    (DeclaredDependencies t) (ExportedDependencies t) (Dependencies t)
    (outputs t) (Licences t) (Visibility t) (state t).

Definition setDeclaredDependencies (t : BuildTarget) (l : list BuildLabel) : BuildTarget :=
  mkBuildTarget (Label t) (IsBinary t) (IsTest t)
    (NeedsTransitiveDependencies t) (OutputIsComplete t) (Containerise t)
    (NoTestOutput t) (SkipCache t) (TestOnly t) (Flakiness t)
    (BuildTimeout t) (TestTimeout t) (BuildingDescription t) (Command t)
    (TestCommand t) (Labels t) (Sources t) (NamedSources t) (Data t)
    (Tools t) l (ExportedDependencies t) (Dependencies t)
    (outputs t) (Licences t) (Visibility t) (state t).

Definition setExportedDependencies (t : BuildTarget) (l : list BuildLabel) : BuildTarget :=
  mkBuildTarget (Label t) (IsBinary t) (IsTest t)
    (NeedsTransitiveDependencies t) (OutputIsComplete t) (Containerise t)
    (NoTestOutput t) (SkipCache t) (TestOnly t) (Flakiness t)
    (BuildTimeout t) (TestTimeout t) (BuildingDescription t) (Command t)
    (TestCommand t) (Labels t) (Sources t) (NamedSources t) (Data t)
    (Tools t) (DeclaredDependencies t) l (Dependencies t)
    (outputs t) (Licences t) (Visibility t) (state t).

Definition setOutputs (t : BuildTarget) (l : list string) : BuildTarget :=
  mkBuildTarget (Label t) (IsBinary t) (IsTest t)
    (NeedsTransitiveDependencies t) (OutputIsComplete t) (Containerise t)
    (NoTestOutput t) (SkipCache t) (TestOnly t) (Flakiness t)
    (BuildTimeout t) (TestTimeout t) (BuildingDescription t) (Command t)
    (TestCommand t) (Labels t) (Sources t) (NamedSources t) (Data t)
    (Tools t) (DeclaredDependencies t) (ExportedDependencies t)
    (Dependencies t) l (Licences t) (Visibility t) (state t).

Definition setLicences (t : BuildTarget) (l : list string) : BuildTarget :=
  mkBuildTarget (Label t) (IsBinary t) (IsTest t)
    (NeedsTransitiveDependencies t) (OutputIsComplete t) (Containerise t)
    (NoTestOutput t) (SkipCache t) (TestOnly t) (Flakiness t)
    (BuildTimeout t) (TestTimeout t) (BuildingDescription t) (Command t)
    (TestCommand t) (Labels t) (Sources t) (NamedSources t) (Data t)
    (Tools t) (DeclaredDependencies t) (ExportedDependencies t)
    (Dependencies t) (outputs t) l (Visibility t) (state t).

(** Modelled from the spec: the methods of [core.BuildTarget] that the
    callbacks call.  The specification makes [labels], [dependencies] and
    [exportedDependencies] sets, so an element is appended when it is not
    there yet; outputs and licences are appended in call order. *)
Definition appendNew {A} `{EqDecision A} (l : list A) (x : A) : list A :=
  if decide (x ∈ l) then l else l ++ [x].

Definition target_AddLabel (t : BuildTarget) (label : string) : BuildTarget :=
  setLabels t (appendNew (Labels t) label).

Definition target_AddDependency (t : BuildTarget) (dep : BuildLabel) : BuildTarget :=
  setDeclaredDependencies t (appendNew (DeclaredDependencies t) dep).

Definition target_AddExportedDependency (t : BuildTarget) (dep : BuildLabel) : BuildTarget :=
  setExportedDependencies t (appendNew (ExportedDependencies t) dep).

Definition target_AddOutput (t : BuildTarget) (out : string) : BuildTarget :=
  setOutputs t (outputs t ++ [out]).

Definition target_AddLicence (t : BuildTarget) (licence : string) : BuildTarget :=
  setLicences t (Licences t ++ [licence]).

Definition target_AddNamedSource (t : BuildTarget) (name : string) (src : BuildInput) : BuildTarget :=
  setNamedSources t (NamedSources t ++ [(name, src)]).

(** Modelled from the spec: a package with "targets mapping name to
    BuildTarget" and "outputs mapping filename to owning target". *)
Record Package := mkPackage {
  pkgName : string;
  Targets : gmap string BuildTarget;
  Outputs : gmap string string
}.

Definition setTarget (pkg : Package) (name : string) (t : BuildTarget) : Package :=
  mkPackage (pkgName pkg) (<[name := t]> (Targets pkg)) (Outputs pkg).

(** Modelled from the spec: [Package.RegisterOutput], "fails if another
    target already claims the file within the same package". *)
Definition RegisterOutput (pkg : Package) (out : string) (t : BuildTarget) : result Package :=
  match Outputs pkg !! out with
  | Some owner =>
      if decide (owner = Name (Label t)) then Ok pkg else Panic DuplicateOutput
  | None =>
      Ok (mkPackage (pkgName pkg) (Targets pkg) (<[out := Name (Label t)]> (Outputs pkg)))
  end.

(** Modelled from the spec: the process-wide graph [core.State.Graph] with
    its packages by name, its targets by label and its edges, and the index
    of deferred parses that [deferParse] fills. *)
Record BuildGraph := mkGraph {
  graphPackages : gset string;
  graphTargets : gmap BuildLabel BuildTarget;
  graphEdges : list (BuildLabel * BuildLabel);
  deferredParses : list (BuildLabel * string)
}.

(** Modelled from the spec: the lookups and insertions of the graph. *)
Definition Graph_Package (g : BuildGraph) (name : string) : bool :=
  bool_decide (name ∈ graphPackages g).

Definition Graph_Target (g : BuildGraph) (label : BuildLabel) : option BuildTarget :=
  graphTargets g !! label.

Definition Graph_AddTarget (g : BuildGraph) (t : BuildTarget) : BuildGraph :=
  mkGraph (graphPackages g) (<[Label t := t]> (graphTargets g))
    (graphEdges g) (deferredParses g).

Definition Graph_AddDependency (g : BuildGraph) (from to : BuildLabel) : BuildGraph :=
  mkGraph (graphPackages g) (graphTargets g)
    (graphEdges g ++ [(from, to)]) (deferredParses g).

(** Modelled from the spec: [deferParse], "record a deferred parse for
    (label, current-pkg)". *)
Definition deferParse (g : BuildGraph) (label : BuildLabel) (pkg : Package) : BuildGraph :=
  mkGraph (graphPackages g) (graphTargets g) (graphEdges g)
    (deferredParses g ++ [(label, pkgName pkg)]).

(** What the callbacks use from package core and from the Go library
    without the present files defining it. *)
Class Core := {
  (** [core.ParseBuildLabel label pkg] and [core.ParseBuildFileLabel]; both
      panic on a malformed label. *)
  ParseBuildLabel : string -> string -> result BuildLabel;
  ParseBuildFileLabel : string -> string -> result (BuildLabel * string);
  (** [target.CanSee dep]. *)
  CanSee : BuildTarget -> BuildTarget -> bool;
  (** [target.OutDir ()]. *)
  OutDir : BuildTarget -> string
}.

(** ** Package path of the Go library *)

(** [strings.Split s "/"]. *)
Fixpoint splitSlash (s : string) : list string :=
  match s with
  | EmptyString => [EmptyString]
  | String c s' =>
      if Ascii.eqb c "/" then EmptyString :: splitSlash s'
      else match splitSlash s' with
           | [] => [String c EmptyString]
           | x :: xs => String c x :: xs
           end
  end.

(** [strings.Join l "/"]. *)
Fixpoint joinSlash (l : list string) : string :=
  match l with
  | [] => EmptyString
  | [x] => x
  | x :: l' => x +:+ "/" +:+ joinSlash l'
  end.

Definition isRooted (s : string) : bool := HasPrefix s "/".

(** One step of [path.Clean]: [stack] holds the components kept so far,
    last one first. *)
Definition cleanStep (rooted : bool) (stack : list string) (c : string) : list string :=
  if decide (c = "" ∨ c = ".") then stack
  else if decide (c = "..") then
    match stack with
    | top :: rest => if decide (top = "..") then c :: stack else rest
    | [] => if rooted then [] else [c]
    end
  else c :: stack.

Definition cleanComps (s : string) : list string :=
  rev (foldl (cleanStep (isRooted s)) [] (splitSlash s)).

Definition renderPath (rooted : bool) (comps : list string) : string :=
  if rooted then "/" +:+ joinSlash comps
  else match comps with
       | [] => "."
       | _ => joinSlash comps
       end.

Definition path_Clean (s : string) : string :=
  renderPath (isRooted s) (cleanComps s).

(** [path.Join a b]: empty elements are ignored, the result is cleaned, and
    it is empty when both elements are. *)
Definition path_Join (a b : string) : string :=
  if decide (a = "") then (if decide (b = "") then "" else path_Clean b)
  else if decide (b = "") then path_Clean a
  else path_Clean (a +:+ "/" +:+ b).

(** [path.Split]: the path up to and with its last slash, and the rest. *)
Fixpoint path_Split (s : string) : string * string :=
  match s with
  | EmptyString => (EmptyString, EmptyString)
  | String c s' =>
      let '(d, f) := path_Split s' in
      if decide (d = "") then
        (if Ascii.eqb c "/" then (String c EmptyString, f) else (EmptyString, String c f))
      else (String c d, f)
  end.

Definition path_Dir (s : string) : string := path_Clean (path_Split s).1.

(** ** The file system below the repository root, as the parser sees it *)

Inductive FsNode :=
| RegularFile
| Directory (entries : list (string * FsNode)).

Fixpoint lookupNode (comps : list string) (n : FsNode) : option FsNode :=
  match comps with
  | [] => Some n
  | c :: cs =>
      match n with
      | RegularFile => None
      | Directory entries =>
          (fix find (es : list (string * FsNode)) : option FsNode :=
             match es with
             | [] => None
             | (k, child) :: es' =>
                 if String.eqb k c then lookupNode cs child else find es'
             end) entries
      end
  end.

(** [os.Lstat] of a path relative to the repository root, which is the
    working directory.  The empty path does not exist; absolute paths and
    paths that leave the root are outside the modelled tree. *)
Definition Lstat (root : FsNode) (name : string) : option FsNode :=
  if decide (name = "") then None
  else if isRooted name then None
  else match cleanComps name with
       | ".." :: _ => None
       | comps => lookupNode comps root
       end.

Definition isDir (n : FsNode) : bool :=
  match n with Directory _ => true | RegularFile => false end.

(** Modelled from the spec: [core.FileExists], by which a directory
    "contains" a build file: the path exists and is not a directory. *)
Definition FileExists (root : FsNode) (name : string) : bool :=
  match Lstat root name with
  | Some n => negb (isDir n)
  | None => false
  end.

(** The globals of package parse that the callbacks read: the working tree
    and [buildFileNames]. *)
Record ParseEnv := mkParseEnv {
  fsRoot : FsNode;
  buildFileNames : list string
}.

Definition isPackageInternal (env : ParseEnv) (name : string) : bool :=
  existsb (fun buildFileName => FileExists (fsRoot env) (path_Join name buildFileName))
    (buildFileNames env).

(** [isPackage] with its memo table [isPackageMemo], passed explicitly. *)
Definition isPackage (env : ParseEnv) (name : string) (memo : gmap string bool)
    : bool * gmap string bool :=
  match memo !! name with
  | Some ret => (ret, memo)
  | None =>
      let ret := isPackageInternal env name in
      (ret, <[name := ret]> memo)
  end.

(** ** Callbacks of the interpreter *)

Definition pyDeferParse : string := "_DEFER_".

(** Modelled from the spec: [source.Label ()], the label that an input
    depends on, "if label-input". *)
Definition BuildInput_Label (i : BuildInput) : option BuildLabel :=
  match i with
  | FileLabel _ _ => None
  | TargetLabel l => Some l
  | BuildFileLabel l _ => Some l
  end.

(** Modelled from the spec: [core.LooksLikeABuildLabel], "starts with // or
    :". *)
Definition LooksLikeABuildLabel (s : string) : bool :=
  HasPrefix s "//" || HasPrefix s ":".

(** [src[0]], which panics on the empty string. *)
Definition firstByte (s : string) : result ascii :=
  match s with
  | EmptyString => Panic IndexOutOfRange
  | String c _ => Ok c
  end.

(** [s[n:]], which panics when [n] exceeds the length. *)
Definition sliceFrom (n : nat) (s : string) : result string :=
  if decide (n ≤ String.length s)%nat then Ok (dropString n s)
  else Panic IndexOutOfRange.

(** The loop of [parseSource] over the parent directories.  [None] says that
    the loop is still running after [fuel] iterations. *)
Fixpoint ownerWalk (env : ParseEnv) (packageName : string) (fuel : nat)
    (dir : string) (memo : gmap string bool)
    : option (result ()) * gmap string bool :=
  if decide (dir ≠ packageName ∧ dir ≠ ".") then
    let '(isPkg, memo') := isPackage env dir memo in
    if isPkg then (Some (Panic (CrossPackageFile dir)), memo')
    else match fuel with
         | O => (None, memo')
         | S fuel' => ownerWalk env packageName fuel' (path_Dir dir) memo'
         end
  else (Some (Ok ()), memo).

(** Action of a [filepath.WalkFunc] that is called without an error. *)
Inductive WalkAction := WalkContinue | WalkSkipDir.

(** [sort.Strings] on the names of the entries of a directory, as
    [readDirNames] does for [filepath.Walk]: the entries in the order of
    the bytes of their names. *)
Fixpoint insertEntry {A} (x : string * A) (l : list (string * A)) : list (string * A) :=
  match l with
  | [] => [x]
  | y :: l' => if String.leb x.1 y.1 then x :: l else y :: insertEntry x l'
  end.

Definition sortEntries {A} (l : list (string * A)) : list (string * A) :=
  foldr insertEntry [] l.

(** [filepath.Walk] below an existing node: the callback sees the node and
    then, unless it is a file or is skipped, the walk visits the entries of
    the directory in the lexical order of their names. *)
Fixpoint walkNode {A} (fn : string -> bool -> A -> WalkAction * A)
    (name : string) (n : FsNode) (acc : A) : A :=
  match n with
  | RegularFile => (fn name false acc).2
  | Directory entries =>
      match fn name true acc with
      | (WalkSkipDir, acc') => acc'
      | (WalkContinue, acc') =>
          foldl (fun acc (visit : string * (A -> A)) => visit.2 acc) acc'
            (sortEntries
               ((fix children (es : list (string * FsNode)) : list (string * (A -> A)) :=
                   match es with
                   | [] => []
                   | (k, child) :: es' =>
                       (k, walkNode fn (path_Join name k) child) :: children es'
                   end) entries))
      end
  end.

(** [strings.Replace s old new (-1)] for a non-empty [old]; [skip] counts
    the bytes of a match that are still to be dropped. *)
Fixpoint replaceFrom (old new : string) (skip : nat) (s : string) : string :=
  match s with
  | EmptyString => EmptyString
  | String c s' =>
      match skip with
      | S k => replaceFrom old new k s'
      | O =>
          if HasPrefix s old
          then new +:+ replaceFrom old new (String.length old - 1) s'
          else String c (replaceFrom old new 0 s')
      end
  end.

Definition Replace (s old new : string) : string := replaceFrom old new 0 s.

(** The characters that make [filepath.Glob] expand a pattern. *)
Definition hasMeta (pattern : string) : bool :=
  Contains pattern "*" || Contains pattern "?" || Contains pattern "["
  || Contains pattern "\".

(** The rest of what the callbacks use without the files defining it. *)
Class GoLib := {
  (** [regexp.Compile]: the matcher of the expression ([MatchString]), or
      nothing when the expression is malformed. *)
  regexpCompile : string -> option (string -> bool);
  (** [filepath.Match pattern name]; it fails on a malformed pattern. *)
  filepathMatch : string -> string -> result bool;
  (** [filepath.Glob] for a pattern with meta characters. *)
  filepathGlobMeta : FsNode -> string -> result (list string)
}.

(** [filepath.Glob]: a pattern without meta characters names at most one
    path. *)
Definition filepathGlob `{GoLib} (root : FsNode) (pattern : string) : result (list string) :=
  if hasMeta pattern then filepathGlobMeta root pattern
  else match Lstat root pattern with
       | Some _ => Ok [pattern]
       | None => Ok []
       end.

Section Interpreter.
Context `{Core} `{GoLib}.

(** [core.NewBuildLabel] makes the label of the package and the name. *)
Definition addTarget (g : BuildGraph) (pkg : Package) (name cmd testCmd : string)
    (binary test needsTransitiveDeps outputIsComplete containerise
     noTestOutput skipCache testOnly : bool)
    (flakiness buildTimeout testTimeout : Z) (buildingDescription : string)
    : result (BuildGraph * Package * BuildTarget) :=
  let target := NewBuildTarget (mkLabel (pkgName pkg) name) in
  let target := setFlags target binary test needsTransitiveDeps outputIsComplete
                  containerise noTestOutput skipCache testOnly
                  flakiness buildTimeout testTimeout in
  let target := if containerise then target_AddLabel target "container" else target in
  let target := if decide (buildingDescription ≠ "")
                then setBuildingDescription target buildingDescription else target in
  let target := if binary then target_AddLabel target "bin" else target in
  let target := setCommand target cmd in
  let target := setTestCommand target testCmd in
  if decide (is_Some (Targets pkg !! name)) then Panic DuplicateTarget
  else if decide (TestCommand target ≠ "" ∧ IsTest target = false)
  then Panic TestCommandWithoutTest
  else if decide (IsTest target = true ∧ TestCommand target = "")
  then Panic TestWithoutTestCommand
  else
    let pkg := setTarget pkg name target in
    let g := if Graph_Package g (pkgName pkg) then Graph_AddTarget g target else g in
    Ok (g, pkg, target).

Definition getTargetPost (pkg : Package) (cTarget : string) : result BuildTarget :=
  match Targets pkg !! cTarget with
  | None => Panic UnknownTarget
  | Some target =>
      if decide (stateRank (state target) >= stateRank Built)
      then Panic ImmutableBuiltTarget
      else Ok target
  end.

Definition AddDependency (g : BuildGraph) (pkg : Package) (cTarget cDep : string)
    (exported : bool) : result (BuildGraph * Package) :=
  target ← getTargetPost pkg cTarget;
  '(dep, _) ← ParseBuildFileLabel cDep (PackageName (Label target));
  let target := target_AddDependency target dep in
  let target := if exported then target_AddExportedDependency target dep else target in
  Ok (Graph_AddDependency g (Label target) dep, setTarget pkg cTarget target).

Definition AddOutputPost (pkg : Package) (cTarget cOut : string) : result Package :=
  target ← getTargetPost pkg cTarget;
  pkg ← RegisterOutput pkg cOut target;
  Ok (setTarget pkg cTarget (target_AddOutput target cOut)).

Definition AddLicencePost (pkg : Package) (cTarget cLicence : string) : result Package :=
  target ← getTargetPost pkg cTarget;
  Ok (setTarget pkg cTarget (target_AddLicence target cLicence)).

Definition SetCommand (pkg : Package) (cTarget cCommand : string) : result Package :=
  target ← getTargetPost pkg cTarget;
  Ok (setTarget pkg cTarget (setCommand target cCommand)).

(** The walk over the parent directories gets as many iterations as the
    joined path has bytes, which are more than it has components. *)
Definition parseSource (env : ParseEnv) (memo : gmap string bool)
    (src packageName : string)
    : option (result BuildInput) * gmap string bool :=
  if LooksLikeABuildLabel src then
    (Some ('(label, file) ← ParseBuildFileLabel src packageName;
           if decide (file ≠ "") then Ok (BuildFileLabel label file)
           else Ok (TargetLabel label)), memo)
  else if Contains src "../" then (Some (Panic InvalidPath), memo)
  else match firstByte src with
       | Panic e => (Some (Panic e), memo)
       | Ok c =>
           if Ascii.eqb c "/" then (Some (Panic AbsolutePath), memo)
           else if Contains src "/" then
             let joined := path_Join packageName src in
             match ownerWalk env packageName (String.length joined)
                     (path_Dir joined) memo with
             | (Some (Ok _), memo') => (Some (Ok (FileLabel src packageName)), memo')
             | (Some (Panic e), memo') => (Some (Panic e), memo')
             | (None, memo') => (None, memo')
             end
           else (Some (Ok (FileLabel src packageName)), memo)
       end.

(** The three callbacks that add an input to a target.  They receive the
    target itself; the interpreter got it from [AddTarget]. *)
Definition addInputDependency (target : BuildTarget) (source : BuildInput) : BuildTarget :=
  match BuildInput_Label source with
  | Some label => target_AddDependency target label
  | None => target
  end.

Definition AddSource (env : ParseEnv) (memo : gmap string bool)
    (target : BuildTarget) (cSource : string)
    : option (result BuildTarget) * gmap string bool :=
  let '(r, memo') := parseSource env memo cSource (PackageName (Label target)) in
  (r' ← r;
   Some (source ← r';
         Ok (addInputDependency (setSources target (Sources target ++ [source])) source)),
   memo').

Definition AddNamedSource (env : ParseEnv) (memo : gmap string bool)
    (target : BuildTarget) (cName cSource : string)
    : option (result BuildTarget) * gmap string bool :=
  let '(r, memo') := parseSource env memo cSource (PackageName (Label target)) in
  (r' ← r;
   Some (source ← r';
         Ok (addInputDependency (target_AddNamedSource target cName source) source)),
   memo').

Definition AddData (env : ParseEnv) (memo : gmap string bool)
    (target : BuildTarget) (cData : string)
    : option (result BuildTarget) * gmap string bool :=
  let '(r, memo') := parseSource env memo cData (PackageName (Label target)) in
  (r' ← r;
   Some (data ← r';
         Ok (addInputDependency (setData target (Data target ++ [data])) data)),
   memo').

Definition AddDep (target : BuildTarget) (cDep : string) : result BuildTarget :=
  '(dep, _) ← ParseBuildFileLabel cDep (PackageName (Label target));
  Ok (target_AddDependency target dep).

Definition AddExportedDep (target : BuildTarget) (cDep : string) : result BuildTarget :=
  '(dep, _) ← ParseBuildFileLabel cDep (PackageName (Label target));
  Ok (target_AddExportedDependency (target_AddDependency target dep) dep).

Definition AddTool (target : BuildTarget) (cTool : string) : result BuildTarget :=
  '(tool, _) ← ParseBuildFileLabel cTool (PackageName (Label target));
  Ok (target_AddDependency (setTools target (Tools target ++ [tool])) tool).

Definition GetSubincludeFile (g : BuildGraph) (pkg : Package) (cLabel : string)
    : result (BuildGraph * string) :=
  label ← ParseBuildLabel cLabel (pkgName pkg);
  let pkgLabel := mkLabel (pkgName pkg) "all" in
  match Graph_Target g label with
  | None =>
      if negb (Graph_Package g (PackageName label))
      then Ok (deferParse g label pkg, pyDeferParse)
      else Panic Unsubincludable
  | Some target =>
      if negb (CanSee (NewBuildTarget pkgLabel) target) then Panic VisibilityViolation
      else if decide (length (outputs target) ≠ 1%nat) then Panic MultipleOutputs
      else if decide (stateRank (state target) < stateRank Built)
      then Ok (deferParse g label pkg, pyDeferParse)
      else match outputs target with
           | out :: _ => Ok (g, path_Join (OutDir target) out)
           | [] => Panic IndexOutOfRange
           end
  end.

(** The recursive closure of [GetLabels]; the Go map [labels] is a set. *)
Fixpoint getLabels (prefix : string) (target : BuildTarget) (labels : gset string)
    : gset string :=
  let labels :=
    foldl (fun labels label =>
             if HasPrefix label prefix
             then {[ TrimSpace (TrimPrefix label prefix) ]} ∪ labels
             else labels) labels (Labels target) in
  foldl (fun labels dep => getLabels prefix dep labels) labels (Dependencies target).

(** [GetLabels]: the keys of the map are copied to a slice in the order of
    the map iteration, and [sort.Strings] sorts the slice. *)
Definition GetLabels (pkg : Package) (cTarget cPrefix : string) : result (list string) :=
  target ← getTargetPost pkg cTarget;
  if decide (state target ≠ Building) then Panic FatalNotBuilding
  else Ok (merge_sort String.le (elements (getLabels cPrefix target ∅))).

Definition shouldExcludeMatch (match_ packageName : string) (cExcludes : list string)
    : result bool :=
  foldl (fun acc excl =>
           found ← acc;
           if (found : bool) then Ok true
           else filepathMatch (path_Join packageName excl) match_)
        (Ok false) cExcludes.

Definition globWalkFn (env : ParseEnv) (rootPath : string) (regex : string -> bool)
    (name : string) (dir : bool) (st : list string * gmap string bool)
    : WalkAction * (list string * gmap string bool) :=
  let '(matches, memo) := st in
  if dir && negb (String.eqb name rootPath) then
    let '(isPkg, memo') := isPackage env name memo in
    if isPkg then (WalkSkipDir, (matches, memo'))
    else (WalkContinue, (matches, memo'))
  else if negb dir && regex name then (WalkContinue, (matches ++ [name], memo))
  else (WalkContinue, (matches, memo)).

Definition glob (env : ParseEnv) (memo : gmap string bool) (rootPath pattern : string)
    : result (list string) * gmap string bool :=
  if negb (Contains pattern "**") then
    (filepathGlob (fsRoot env) (path_Join rootPath pattern), memo)
  else
    let pattern := Replace pattern "*" "[^/]*" in
    let pattern := Replace pattern "[^/]*[^/]*" ".*" in
    let pattern := Replace pattern "/.*/" "/(?:.*/)?" in
    match regexpCompile pattern with
    | None => (Panic GlobError, memo)
    | Some regex =>
        match Lstat (fsRoot env) rootPath with
        | None => (Panic GlobError, memo)
        | Some n =>
            let '(matches, memo') :=
              walkNode (globWalkFn env rootPath regex) rootPath n ([], memo) in
            (Ok matches, memo')
        end
    end.

Definition isHidden (filename : string) : bool :=
  let file := (path_Split filename).2 in
  HasPrefix file "." || (HasPrefix file "#" && HasSuffix file "#").

(** The inner loop of [Glob] over the matches of one pattern. *)
Definition globFilter (packageName : string) (cExcludes : list string)
    (includeHidden : bool) (filenames matches : list string) : result (list string) :=
  foldl (fun acc filename =>
           filenames ← acc;
           if negb includeHidden && isHidden filename then Ok filenames
           else
             excluded ← shouldExcludeMatch filename packageName cExcludes;
             if (excluded : bool) then Ok filenames
             else if HasPrefix filename packageName then
               filename ← sliceFrom (String.length packageName + 1) filename;
               Ok (filenames ++ [filename])
             else Ok (filenames ++ [filename]))
        (Ok filenames) matches.

Definition Glob (env : ParseEnv) (memo : gmap string bool) (cPackage : string)
    (cIncludes cExcludes : list string) (includeHidden : bool)
    : result (list string) * gmap string bool :=
  foldl (fun (acc : result (list string) * gmap string bool) include =>
           match acc with
           | (Panic e, memo) => (Panic e, memo)
           | (Ok filenames, memo) =>
               match glob env memo cPackage include with
               | (Panic e, memo') => (Panic e, memo')
               | (Ok matches, memo') =>
                   (globFilter cPackage cExcludes includeHidden filenames matches, memo')
               end
           end)
        (Ok [], memo) cIncludes.

End Interpreter.

(** ** The other callbacks of the parse phase *)

(** [strings.TrimLeft s cutset]: the leading bytes of [s] that occur in
    [cutset] are cut. *)
Fixpoint TrimLeft (s cutset : string) : string :=
  match s with
  | EmptyString => EmptyString
  | String c s' =>
      if existsb (Ascii.eqb c) (list_ascii_of_string cutset) then TrimLeft s' cutset
      else s
  end.

Definition setVisibility (t : BuildTarget) (l : list BuildLabel) : BuildTarget :=
  mkBuildTarget (Label t) (IsBinary t) (IsTest t)
    (NeedsTransitiveDependencies t) (OutputIsComplete t) (Containerise t)
    (NoTestOutput t) (SkipCache t) (TestOnly t) (Flakiness t)
    (BuildTimeout t) (TestTimeout t) (BuildingDescription t) (Command t)
    (TestCommand t) (Labels t) (Sources t) (NamedSources t) (Data t)
    (Tools t) (DeclaredDependencies t) (ExportedDependencies t)
    (Dependencies t) (outputs t) (Licences t) l (state t).

(** The fields of [core.BuildTarget] to which the callbacks below append
    and which no other callback reads; they are kept beside the record
    [BuildTarget]. *)
Record TargetAttributes := mkAttributes {
  Hashes : list string;
  TestOutputs : list string;
  Requires : list string
}.

(** What these callbacks call in package core without the present files
    defining it. *)
Class CoreMethods := {
  (** [core.RepoRoot], as the string that [path.Join] takes. *)
  RepoRootDir : string;
  (** [pkg.RegisterSubinclude]. *)
  RegisterSubinclude : Package -> string -> Package;
  (** [target.AddProvide]. *)
  target_AddProvide : BuildTarget -> string -> BuildLabel -> BuildTarget;
  (** [target.SetContainerSetting], which may panic. *)
  target_SetContainerSetting : BuildTarget -> string -> string -> result BuildTarget
}.

Section Attributes.
Context `{Core} `{CoreMethods}.

Definition AddOutput (target : BuildTarget) (cOutput : string) : BuildTarget :=
  target_AddOutput target cOutput.

(** The visibility [PUBLIC] is the label [//...]. *)
Definition AddVis (target : BuildTarget) (cVis : string) : result BuildTarget :=
  if decide (cVis = "PUBLIC")
  then Ok (setVisibility target (Visibility target ++ [mkLabel "" "..."]))
  else
    vis ← ParseBuildLabel cVis (PackageName (Label target));
    Ok (setVisibility target (Visibility target ++ [vis])).

Definition AddLabel (target : BuildTarget) (cLabel : string) : BuildTarget :=
  target_AddLabel target cLabel.

Definition AddHash (attrs : TargetAttributes) (cHash : string) : TargetAttributes :=
  mkAttributes (Hashes attrs ++ [cHash]) (TestOutputs attrs) (Requires attrs).

Definition AddLicence (target : BuildTarget) (cLicence : string) : BuildTarget :=
  target_AddLicence target cLicence.

Definition AddTestOutput (attrs : TargetAttributes) (cTestOutput : string)
    : TargetAttributes :=
  mkAttributes (Hashes attrs) (TestOutputs attrs ++ [cTestOutput]) (Requires attrs).

(** Requirements are also implicit labels. *)
Definition AddRequire (target : BuildTarget) (attrs : TargetAttributes)
    (cRequire : string) : BuildTarget * TargetAttributes :=
  (target_AddLabel target cRequire,
   mkAttributes (Hashes attrs) (TestOutputs attrs) (Requires attrs ++ [cRequire])).

Definition AddProvide (target : BuildTarget) (cLanguage cDep : string)
    : result BuildTarget :=
  dep ← ParseBuildLabel cDep (PackageName (Label target));
  Ok (target_AddProvide target cLanguage dep).

Definition SetContainerSetting (target : BuildTarget) (cName cValue : string)
    : result BuildTarget :=
  target_SetContainerSetting target (Replace cName "_" "") cValue.

(** [GetIncludeFile] has one panic, for a label that does not start with
    [//]; it is the result [None]. *)
Definition GetIncludeFile (pkg : Package) (cLabel : string) : option (Package * string) :=
  if negb (HasPrefix cLabel "//") then None
  else
    let relPath := TrimLeft cLabel "/" in
    Some (RegisterSubinclude pkg relPath, path_Join RepoRootDir relPath).

End Attributes.

(** ** Sequences of callbacks on one target *)

(** The calls of the parse phase on the target that [AddTarget] returned,
    apart from the two that end in methods of package core. *)
Inductive TargetCall :=
| OnAddSource (src : string)
| OnAddNamedSource (name src : string)
| OnAddData (data : string)
| OnAddOutput (out : string)
| OnAddDep (dep : string)
| OnAddExportedDep (dep : string)
| OnAddTool (tool : string)
| OnAddVis (vis : string)
| OnAddLabel (label : string)
| OnAddHash (hash : string)
| OnAddLicence (licence : string)
| OnAddTestOutput (testOutput : string)
| OnAddRequire (require : string).

Record TargetState := mkTargetState {
  stTarget : BuildTarget;
  stAttributes : TargetAttributes;
  stMemo : gmap string bool
}.

Section TargetCalls.
Context `{Core} `{CoreMethods}.

(** A call that panics has not written to the target; the memo table of
    [isPackage] keeps what the call has put into it. *)
Definition parsedInput (st : TargetState)
    (r : option (result BuildTarget) * gmap string bool) : TargetState :=
  match r with
  | (Some (Ok target), memo) => mkTargetState target (stAttributes st) memo
  | (_, memo) => mkTargetState (stTarget st) (stAttributes st) memo
  end.

Definition labelled (st : TargetState) (r : result BuildTarget) : TargetState :=
  match r with
  | Ok target => mkTargetState target (stAttributes st) (stMemo st)
  | Panic _ => st
  end.

Definition runTargetCall (env : ParseEnv) (st : TargetState) (c : TargetCall)
    : TargetState :=
  let target := stTarget st in
  let attrs := stAttributes st in
  let memo := stMemo st in
  match c with
  | OnAddSource src => parsedInput st (AddSource env memo target src)
  | OnAddNamedSource name src => parsedInput st (AddNamedSource env memo target name src)
  | OnAddData data => parsedInput st (AddData env memo target data)
  | OnAddOutput out => mkTargetState (AddOutput target out) attrs memo
  | OnAddDep dep => labelled st (AddDep target dep)
  | OnAddExportedDep dep => labelled st (AddExportedDep target dep)
  | OnAddTool tool => labelled st (AddTool target tool)
  | OnAddVis vis => labelled st (AddVis target vis)
  | OnAddLabel label => mkTargetState (AddLabel target label) attrs memo
  | OnAddHash hash => mkTargetState target (AddHash attrs hash) memo
  | OnAddLicence licence => mkTargetState (AddLicence target licence) attrs memo
  | OnAddTestOutput testOutput => mkTargetState target (AddTestOutput attrs testOutput) memo
  | OnAddRequire require =>
      let '(target', attrs') := AddRequire target attrs require in
      mkTargetState target' attrs' memo
  end.

Definition runTargetCalls (env : ParseEnv) (st : TargetState) (cs : list TargetCall)
    : TargetState :=
  foldl (runTargetCall env) st cs.

End TargetCalls.

(** ** The directory cache *)

(** The cache works on absolute paths.  A path is the list of the
    components of its cleaned form, so [path.Join] is concatenation and
    [path.Dir] drops the last component; artifact names are relative paths
    without [..] components. *)
Abbreviation Path := (list string).

Inductive CNode :=
| CFile (mode : Z) (content : string)
| CDir.

Global Instance CNode_eq_dec : EqDecision CNode.
Proof. solve_decision. Defined.

(** The state of the file system: what is at each path. *)
Abbreviation FileSystem := (Path -> option CNode).

Definition isFile (n : option CNode) : bool :=
  match n with Some (CFile _ _) => true | _ => false end.

Definition chmod (mode : Z) (n : CNode) : CNode :=
  match n with
  | CFile _ content => CFile mode content
  | CDir => CDir
  end.

(** All prefixes of a path, the path itself included. *)
Definition prefixes (p : Path) : list Path :=
  (fun n => take n p) <$> seq 0 (S (length p)).

(** Modelled from the spec: [core.PathExists], "exists". *)
Definition PathExists (p : Path) (fs : FileSystem) : bool :=
  bool_decide (is_Some (fs p)).

(** [os.RemoveAll]: the path and everything below it is gone. *)
Definition RemoveAll (p : Path) (fs : FileSystem) : FileSystem :=
  fun q => if decide (p `prefix_of` q) then None else fs q.

(** [os.MkdirAll]: fails when a component of the path is a regular file,
    and otherwise makes the path and its parents directories. *)
Definition MkdirAll (p : Path) (fs : FileSystem) : option FileSystem :=
  if existsb (fun q => isFile (fs q)) (prefixes p) then None
  else Some (fun q => if decide (q `prefix_of` p) then Some CDir else fs q).

Definition writeNode (p : Path) (n : CNode) (fs : FileSystem) : FileSystem :=
  fun q => if decide (q = p) then Some n else fs q.

(** What a transfer leaves at the destination for a node of the source: a
    copy is a new file with the mode that is passed; a hard link is the
    file of the source itself, with the inode shared, so it has the mode
    that the source has and the mode that is passed plays no part.  No
    operation of the cache writes to an existing file, so the shared inode
    shows in nothing but the equal mode and content. *)
Definition placed (mode : Z) (link : bool) (n : CNode) : CNode :=
  if link then n else chmod mode n.

(** Modelled from the spec: [core.RecursiveCopyFile from to mode link],
    which the cache uses to "copy from the out-dir to the cache dir using
    real copies (not hardlinks)" and to "hardlink from cache to out-dir",
    after which the file of the out-dir has its "inode shared" with the file
    of the cache.  Copying fails when the source is missing.  A regular
    file needs the directory of the destination to exist, a hard link also
    that the destination is free; a directory is created with its parents
    and its tree is copied or linked below it. *)
Definition RecursiveCopyFile (from to : Path) (mode : Z) (link : bool)
    (fs : FileSystem) : option FileSystem :=
  match fs from with
  | None => None
  | Some (CFile m content) =>
      match fs (removelast to), fs to with
      | Some CDir, None => Some (writeNode to (placed mode link (CFile m content)) fs)
      | Some CDir, Some (CFile _ _) =>
          if link then None else Some (writeNode to (CFile mode content) fs)
      | _, _ => None
      end
  | Some CDir =>
      match MkdirAll to fs with
      | None => None
      | Some fs' =>
          Some (fun q : Path =>
                  if decide (to `prefix_of` q) then
                    match fs (from ++ drop (length to) q) with
                    | Some n => Some (placed mode link n)
                    | None => fs' q
                    end
                  else fs' q)
      end
  end.

Record dirCache := mkDirCache { Dir : Path }.

(** What the cache takes from packages core and cache without the present
    file defining it. *)
Class CacheCore := {
  (** [core.RepoRoot]. *)
  RepoRoot : Path;
  (** [target.OutDir ()], relative to the repository root. *)
  OutDirPath : BuildTarget -> Path;
  (** The artifacts that the channel of [cacheArtifacts target] yields. *)
  cacheArtifacts : BuildTarget -> list Path;
  (** [base64.URLEncoding.EncodeToString (core.CollapseHash key)]. *)
  encodeKey : string -> string
}.

Definition octal (d2 d1 d0 : Z) : Z := d2 * 64 + d1 * 8 + d0.

Definition fileMode (target : BuildTarget) : Z :=
  if IsBinary target then octal 5 5 5 else octal 4 4 4.

Section DirCache.
Context `{CacheCore}.

(** [path.Join] of the cache directory, the package, the name of the
    target and the encoded key. *)
Definition getPath (cache : dirCache) (target : BuildTarget) (key : string) : Path :=
  Dir cache ++ cleanComps (PackageName (Label target))
    ++ [Name (Label target); encodeKey key].

Definition outDirOf (target : BuildTarget) : Path := RepoRoot ++ OutDirPath target.

(** Failures are logged and otherwise ignored, so the result is the file
    system alone. *)
Definition StoreExtra (cache : dirCache) (target : BuildTarget) (key : string)
    (out : Path) (fs : FileSystem) : FileSystem :=
  let cacheDir := getPath cache target key in
  let made :=
    let dir := removelast out in
    if decide (dir ≠ []) then MkdirAll (cacheDir ++ dir) fs else Some fs in
  match made with
  | None => fs
  | Some fs =>
      let outFile := outDirOf target ++ out in
      let cachedFile := cacheDir ++ out in
      let fs := RemoveAll cachedFile fs in
      match MkdirAll cacheDir fs with
      | None => fs
      | Some fs =>
          match RecursiveCopyFile outFile cachedFile (fileMode target) false fs with
          | None => fs
          | Some fs => fs
          end
      end
  end.

Definition Store (cache : dirCache) (target : BuildTarget) (key : string)
    (fs : FileSystem) : FileSystem :=
  let cacheDir := getPath cache target key in
  let fs := RemoveAll cacheDir fs in
  foldl (fun fs out => StoreExtra cache target key out fs) fs (cacheArtifacts target).

(** [path.Dir realOut] is never [.]: the path is absolute. *)
Definition RetrieveExtra (cache : dirCache) (target : BuildTarget) (key : string)
    (out : Path) (fs : FileSystem) : FileSystem * bool :=
  let outDir := outDirOf target in
  let cacheDir := getPath cache target key in
  let cachedOut := cacheDir ++ out in
  let realOut := outDir ++ out in
  if negb (PathExists cachedOut fs) then (fs, false)
  else
    match MkdirAll (removelast realOut) fs with
    | None => (fs, false)
    | Some fs =>
        let fs := RemoveAll realOut fs in
        match RecursiveCopyFile cachedOut realOut (fileMode target) true fs with
        | None => (fs, false)
        | Some fs => (fs, true)
        end
    end.

Fixpoint retrieveAll (cache : dirCache) (target : BuildTarget) (key : string)
    (outs : list Path) (fs : FileSystem) : FileSystem * bool :=
  match outs with
  | [] => (fs, true)
  | out :: outs' =>
      match RetrieveExtra cache target key out fs with
      | (fs', false) => (fs', false)
      | (fs', true) => retrieveAll cache target key outs' fs'
      end
  end.

Definition Retrieve (cache : dirCache) (target : BuildTarget) (key : string)
    (fs : FileSystem) : FileSystem * bool :=
  let cacheDir := getPath cache target key in
  if negb (PathExists cacheDir fs) then (fs, false)
  else retrieveAll cache target key (cacheArtifacts target) fs.

Definition Clean (cache : dirCache) (target : BuildTarget) (fs : FileSystem) : FileSystem :=
  RemoveAll (Dir cache ++ cleanComps (PackageName (Label target))
               ++ [Name (Label target)]) fs.

End DirCache.

(** ** Making the cache *)

(** [path.Join base rel] for an absolute path [base] in components. *)
Definition joinPath (base : Path) (rel : string) : Path :=
  rev (foldl (cleanStep true) (rev base) (splitSlash rel)).

(** The fields of [config.Cache] that [newDirCache] reads. *)
Record CacheConfig := mkCacheConfig {
  CacheDir : string;
  DirCacheCleaner : string;
  DirCacheHighWaterMark : string;
  DirCacheLowWaterMark : string
}.

(** The two panics of [newDirCache]. *)
Inductive NewDirCacheError :=
| CacheDirIndexOutOfRange   (* config.Cache.Dir[0] on the empty string *)
| CacheDirNotCreated.       (* "Failed to create root cache directory %s: %s" *)

Section NewDirCache.
Context `{CacheCore}.

(** [newDirCache] returns the cache and leaves the file system with its
    directory; the third component is the command line of the cleaner
    process that it starts in the background, if one is configured. *)
Definition newDirCache (config : CacheConfig) (fs : FileSystem)
    : NewDirCacheError + (dirCache * FileSystem * option (list string)) :=
  match CacheDir config with
  | EmptyString => inl CacheDirIndexOutOfRange
  | String c _ =>
      let dir :=
        if Ascii.eqb c "/" then cleanComps (CacheDir config)
        else joinPath RepoRoot (CacheDir config) in
      let dirName :=
        if Ascii.eqb c "/" then CacheDir config else renderPath true dir in
      match MkdirAll dir fs with
      | None => inl CacheDirNotCreated
      | Some fs' =>
          inr (mkDirCache dir, fs',
               if decide (DirCacheCleaner config ≠ "")
               then Some [DirCacheCleaner config; "--dir"; dirName;
                          "--high_water_mark"; DirCacheHighWaterMark config;
                          "--low_water_mark"; DirCacheLowWaterMark config]
               else None)
      end
  end.

End NewDirCache.

(** ** Sequences of dependency callbacks *)

(** The calls of the interpreter that create targets or add dependencies.
    The callbacks of the parse phase receive the pointer that [AddTarget]
    returned; here a target is named by its key in the package. *)
Inductive DepCall :=
| CallAddTarget (name cmd testCmd : string) (binary test : bool)
| CallAddDep (target dep : string)
| CallAddExportedDep (target dep : string)
| CallAddTool (target tool : string)
| CallAddDependency (target dep : string) (exported : bool).

Section DepCalls.
Context `{Core}.

(** Runs a callback on the target behind a pointer; the interpreter only
    holds pointers to targets of the package. *)
Definition onTarget (pkg : Package) (name : string)
    (f : BuildTarget -> result BuildTarget) : result Package :=
  match Targets pkg !! name with
  | Some target => target' ← f target; Ok (setTarget pkg name target')
  | None => Ok pkg
  end.

Definition runDepCall (st : BuildGraph * Package) (c : DepCall)
    : result (BuildGraph * Package) :=
  let '(g, pkg) := st in
  match c with
  | CallAddTarget name cmd testCmd binary test =>
      '(g', pkg', _) ← addTarget g pkg name cmd testCmd binary test
                         false false false false false false 0 0 0 "";
      Ok (g', pkg')
  | CallAddDep target dep =>
      pkg' ← onTarget pkg target (fun t => AddDep t dep); Ok (g, pkg')
  | CallAddExportedDep target dep =>
      pkg' ← onTarget pkg target (fun t => AddExportedDep t dep); Ok (g, pkg')
  | CallAddTool target tool =>
      pkg' ← onTarget pkg target (fun t => AddTool t tool); Ok (g, pkg')
  | CallAddDependency target dep exported => AddDependency g pkg target dep exported
  end.

(** A call that panics has not changed anything yet: each of these
    callbacks checks before it writes. *)
Definition runDepCalls (st : BuildGraph * Package) (cs : list DepCall)
    : BuildGraph * Package :=
  foldl (fun st c => match runDepCall st c with Ok st' => st' | Panic _ => st end) st cs.

End DepCalls.

(** ** An instance of the interfaces, for examples *)

(** Labels as section 4.1 of the specification writes them: [//pkg:name],
    [//pkg] for [//pkg:pkg] with the last directory as name, and [:name] in
    the current package; a file label has a slash after the name. *)
Fixpoint splitAt (sep : ascii) (s : string) : option (string * string) :=
  match s with
  | EmptyString => None
  | String c s' =>
      if Ascii.eqb c sep then Some (EmptyString, s')
      else match splitAt sep s' with
           | Some (a, b) => Some (String c a, b)
           | None => None
           end
  end.

Definition exampleParseFileLabel (s pkg : string) : result (BuildLabel * string) :=
  let withFile (p name : string) :=
    match splitAt "/" name with
    | Some (n, file) => Ok (mkLabel p n, file)
    | None => Ok (mkLabel p name, "")
    end in
  if HasPrefix s ":" then withFile pkg (dropString 1 s)
  else if HasPrefix s "//" then
    match splitAt ":" (dropString 2 s) with
    | Some (p, name) => withFile p name
    | None => Ok (mkLabel (dropString 2 s) (path_Split (dropString 2 s)).2, "")
    end
  else Panic InvalidLabel.

Definition exampleParseLabel (s pkg : string) : result BuildLabel :=
  '(label, _) ← exampleParseFileLabel s pkg; Ok label.

(** A visibility pattern admits a label of its package, or with the name
    [...] of any package below it; [//...] is PUBLIC. *)
Definition labelIncludes (vis l : BuildLabel) : bool :=
  if decide (Name vis = "...") then
    bool_decide (PackageName vis = "")
    || bool_decide (PackageName vis = PackageName l)
    || HasPrefix (PackageName l) (PackageName vis +:+ "/")
  else if decide (Name vis = "all") then bool_decide (PackageName vis = PackageName l)
  else bool_decide (vis = l).

Definition exampleCanSee (t dep : BuildTarget) : bool :=
  bool_decide (PackageName (Label t) = PackageName (Label dep))
  || existsb (fun vis => labelIncludes vis (Label t)) (Visibility dep).

Definition exampleCore : Core :=
  {| ParseBuildLabel := exampleParseLabel;
     ParseBuildFileLabel := exampleParseFileLabel;
     CanSee := exampleCanSee;
     OutDir := fun t => path_Join "plz-out/gen" (PackageName (Label t)) |}.

(** ** The build rules for protocol buffers

    The helper functions of [src/parse/rules/proto_rules.build_defs].  A
    string of the rule language is a [string]; an exception is the result
    [None]. *)

(** [s.partition(sep)] for a separator of one character. *)
Definition str_partition (s : string) (sep : ascii) : string * string * string :=
  match splitAt sep s with
  | Some (before, after) => (before, String sep EmptyString, after)
  | None => (s, EmptyString, EmptyString)
  end.

(** [_parent_rule]; [lstrip] cuts the leading characters that occur in its
    argument, as [strings.TrimLeft] does. *)
Definition _parent_rule (name : string) : string :=
  let '(before, _, _) := str_partition name "#" in
  TrimLeft before "_".

(** The name of the rule of a language in [proto_library]:
    ['_%s#%s' % (name, language)]. *)
Definition lang_name (name language : string) : string :=
  "_" +:+ name +:+ "#" +:+ language.

(** The label that [proto_library] gives to a rule with the language [go]
    for a source file: ['proto:go-map: %s/%s=%s/%s' % (base_path, src,
    base_path, name)]. *)
Definition go_map_label (base_path src name : string) : string :=
  "proto:go-map: " +:+ base_path +:+ "/" +:+ src +:+ "=" +:+ base_path +:+ "/" +:+ name.

(** [src[0] not in [':', '/']], which raises an IndexError on the empty
    string. *)
Definition is_file_src (src : string) : option bool :=
  match src with
  | EmptyString => None
  | String c _ => Some (negb (Ascii.eqb c ":" || Ascii.eqb c "/"))
  end.

(** [file_srcs = [src for src in srcs if src[0] not in [':', '/']]]. *)
Fixpoint file_srcs (srcs : list string) : option (list string) :=
  match srcs with
  | [] => Some []
  | src :: srcs' =>
      keep ← is_file_src src;
      rest ← file_srcs srcs';
      Some (if (keep : bool) then src :: rest else rest)
  end.

(** [need_post_build = file_srcs != srcs]. *)
Definition need_post_build (srcs : list string) : option bool :=
  files ← file_srcs srcs; Some (bool_decide (files ≠ srcs)).

(** The value of one entry of the dictionary [outs]:
    [[src.replace('.proto', ext) for src in file_srcs for ext in exts]
     if plugin['use_file_names'] else []]. *)
Definition extension_outs (use_file_names : bool) (files exts : list string)
    : list string :=
  if use_file_names
  then files ≫= (fun src => (fun ext => Replace src ".proto" ext) <$> exts)
  else [].

Section MergeDicts.
Context {V : Type} (truthy : V -> bool).

(** The languages of a rule are a list of names or a dictionary. *)
Inductive Languages :=
| LanguageList (l : list string)
| LanguageDict (d : gmap string V).

(** [_merge_dicts]; a key that [b] lacks raises a KeyError.  [truthy] is
    the truth value of the rule language, by which [v or b[k]] chooses. *)
Definition _merge_dicts (a : Languages) (b : gmap string V) : option (gmap string V) :=
  match a with
  | LanguageList l =>
      list_to_map <$> mapM (fun x => (fun v => (x, v)) <$> b !! x) l
  | LanguageDict d =>
      list_to_map <$>
        mapM (fun kv : string * V =>
                if truthy kv.2 then Some kv
                else (fun w => (kv.1, w)) <$> b !! kv.1)
             (map_to_list d)
  end.

End MergeDicts.

(** * Vocabulary of the properties *)

(** ** Outcomes of the callbacks *)

Definition outcome {A} (r : result A) : option PanicKind :=
  match r with
  | Ok _ => None
  | Panic e => Some e
  end.

Section PostBuildOutcomes.
Context `{Core}.

(** The outcomes of the four post-build callbacks that mutate a target. *)
Definition postBuildOutcomes (g : BuildGraph) (pkg : Package)
    (cTarget arg : string) (exported : bool) : list (option PanicKind) :=
  [ outcome (AddDependency g pkg cTarget arg exported);
    outcome (AddOutputPost pkg cTarget arg);
    outcome (AddLicencePost pkg cTarget arg);
    outcome (SetCommand pkg cTarget arg) ].

End PostBuildOutcomes.

(** Inclusion of the exported dependencies, target by target. *)
Definition exportedIncluded (t : BuildTarget) : Prop :=
  ExportedDependencies t ⊆ DeclaredDependencies t.

(** The graph of the examples: package [a] is parsed and has the target
    [//a:rules] with one output, no visibility and state Inactive. *)
Definition rulesTarget : BuildTarget :=
  setOutputs (NewBuildTarget (mkLabel "a" "rules")) ["rules.build_defs"].

Definition rulesGraph : BuildGraph :=
  mkGraph {[ "a" ]} {[ mkLabel "a" "rules" := rulesTarget ]} [] [].

(** ** Components of paths *)

(** A string without a slash is its only component. *)
Definition slashFree (c : string) : Prop := splitSlash c = [c].

(** Components that [path.Clean] keeps as they are. *)
Definition plainName (c : string) : Prop :=
  c ≠ "" /\ c ≠ "." /\ c ≠ ".." /\ slashFree c.

Definition nonTrivial (c : string) : Prop := c ≠ "" /\ c ≠ ".".

Global Instance nonTrivial_dec c : Decision (nonTrivial c).
Proof. unfold nonTrivial. apply _. Defined.

(** The non-empty prefixes of a list, shortest first. *)
Fixpoint prefixesAsc {A} (l : list A) : list (list A) :=
  match l with
  | [] => []
  | x :: l' => [x] :: (cons x <$> prefixesAsc l')
  end.



(** A package name is empty (the root package) or a path of plain names. *)
Definition wellFormedPackage (packageName : string) : Prop :=
  packageName = "" \/ Forall plainName (splitSlash packageName).

(** The memo table agrees with the file system. *)
Definition memoValid (env : ParseEnv) (memo : gmap string bool) : Prop :=
  map_Forall (fun name ret => ret = isPackageInternal env name) memo.

(** The tree of the examples: [x] and [x/y] are packages, [x/y/a] is a
    plain directory. *)
Definition exampleEnv : ParseEnv :=
  mkParseEnv
    (Directory
       [("x", Directory
                [("BUILD", RegularFile);
                 ("y", Directory
                         [("BUILD", RegularFile);
                          ("a", Directory [("f.go", RegularFile)])])])])
    ["BUILD"].

(** ** Labels of the dependencies *)

(** [reaches t t']: [t'] is [t] or one of its transitive dependencies. *)
Inductive reaches : BuildTarget -> BuildTarget -> Prop :=
| reaches_self t : reaches t t
| reaches_dep t d t' : d ∈ Dependencies t -> reaches d t' -> reaches t t'.

(** What GetLabels makes of a label that has the prefix. *)
Definition labelSuffix (prefix label : string) : string :=
  TrimSpace (TrimPrefix label prefix).

(** The suffixes that the walk from a target collects. *)
Definition collected (prefix : string) (target : BuildTarget) (x : string) : Prop :=
  exists t label, reaches target t /\ label ∈ Labels t
                  /\ HasPrefix label prefix = true /\ x = labelSuffix prefix label.

(** A package whose target [t] is being built and carries a label with a
    space after the prefix. *)
Definition labelledTarget : BuildTarget :=
  mkBuildTarget (mkLabel "a" "t") false false false false false
    false false false 0 0 0 "" "" "" ["cc:ld: -lfoo"] [] [] [] [] [] []
    [] [] [] [] Building.

Definition labelledPackage : Package :=
  mkPackage "a" {[ "t" := labelledTarget ]} ∅.

(** ** Walks of the working tree *)

(** The nodes that a walk from [root] may enter: the root, and the entries
    of a directory that is the root or is not a package. *)
Inductive entered (env : ParseEnv) (root : string) (rootNode : FsNode)
    : string -> FsNode -> Prop :=
| entered_root : entered env root rootNode root rootNode
| entered_entry name entries k child :
    entered env root rootNode name (Directory entries) ->
    name = root \/ isPackageInternal env name = false ->
    (k, child) ∈ entries ->
    entered env root rootNode (path_Join name k) child.

(** The tree of the example: package [p] holds [main.go] and the directory
    [sub], which has a build file of its own and the file [inner.go]. *)
Definition globEnv : ParseEnv :=
  mkParseEnv
    (Directory
       [("p", Directory
                [("BUILD", RegularFile);
                 ("main.go", RegularFile);
                 ("sub", Directory [("BUILD", RegularFile); ("inner.go", RegularFile)])])])
    ["BUILD"].

(** ** File systems of the cache *)



(** [q] is a proper prefix of [p]. *)
Definition strictPrefix (q p : Path) : Prop := q `prefix_of` p /\ q ≠ p.

(** Neither path is below the other. *)
Definition incomparable (p q : Path) : Prop :=
  ¬ p `prefix_of` q /\ ¬ q `prefix_of` p.

(** Every entry lies in a directory. *)
Definition fsWf (fs : FileSystem) : Prop :=
  forall p c, is_Some (fs (p ++ [c])) -> fs p = Some CDir.

(** What a transfer of the artifacts [outs] leaves at the relative path
    [q] of the destination, when [ref] gives the content to copy: the
    content below an artifact, a directory above one, nothing elsewhere. *)
Definition restored (ref : Path -> option CNode) (outs : list Path) (q : Path)
    : option CNode :=
  if decide (Exists (fun out => out `prefix_of` q) outs) then ref q
  else if decide (Exists (fun out => q `prefix_of` out) outs) then Some CDir
  else None.

(** The effect of storing or retrieving one artifact [out] from the tree at
    [S] to the tree at [D]. *)
Definition transfer (mode : Z) (link : bool) (S D out : Path) (fs : FileSystem)
    : FileSystem :=
  fun q =>
    if decide (D ++ out `prefix_of` q)
    then placed mode link <$> fs (S ++ drop (length D) q)
    else if decide (q `prefix_of` D ++ removelast out) then Some CDir
    else fs q.

(** [fs'] is [fs] with the tree at [O] emptied: nothing is left below [O],
    and [O] itself is gone or is a directory. *)
Definition emptied (O : Path) (fs fs' : FileSystem) : Prop :=
  (forall q, ¬ O `prefix_of` q -> fs' q = fs q)
  /\ (forall q, q ≠ [] -> fs' (O ++ q) = None)
  /\ isFile (fs' O) = false.

(** [ref] describes a tree: what has something below it is a directory. *)
Definition refWf (ref : Path -> option CNode) : Prop :=
  forall p r, r ≠ [] -> is_Some (ref (p ++ r)) -> ref p = Some CDir.

(** ** A concrete cache *)

(** A file system given by a finite map. *)
Definition fsOfMap (m : gmap Path CNode) : FileSystem := fun q => m !! q.

(** The instance of the examples: the repository is at [/repo], out-dirs
    are [plz-out/bin/<package>] and [plz-out/gen/<package>], the artifacts
    of a target are its outputs, and keys are written as they are. *)
Definition exampleCacheCore : CacheCore :=
  {| RepoRoot := ["repo"];
     OutDirPath := fun t =>
       ["plz-out"; if IsBinary t then "bin" else "gen"]
         ++ cleanComps (PackageName (Label t));
     cacheArtifacts := fun t => cleanComps <$> outputs t;
     encodeKey := fun key => key |}.

Definition exampleCache : dirCache := mkDirCache ["cache"].

(** The binary target [//y:z] with the single output [z]. *)
Definition zTarget : BuildTarget :=
  mkBuildTarget (mkLabel "y" "z") true false false false false false false false
    0 0 0 "" "build z" "" ["bin"] [] [] [] [] [] [] [] ["z"] [] [] Built.

Definition zOutDir : Path := ["repo"; "plz-out"; "bin"; "y"].

(** The tree before the build, with an out-dir that holds nothing, and
    after it, with the output [z] of mode 0755. *)
Definition unbuiltTree : gmap Path CNode :=
  list_to_map
    [ ([], CDir); (["repo"], CDir); (["repo"; "plz-out"], CDir);
      (["repo"; "plz-out"; "bin"], CDir); (zOutDir, CDir); (["cache"], CDir) ].

Definition builtTree : gmap Path CNode :=
  <[ zOutDir ++ ["z"] := CFile (octal 7 5 5) "ELF" ]> unbuiltTree.



(** ** Lengths of paths *)

(** The bytes of the components of a path, each with a separator. *)
Definition pathWeight (l : list string) : nat :=
  foldr (fun c n => S (String.length c + n)) O l.

(** A component that [path.Clean] keeps: it is not empty and has no
    slash. *)
Definition keptName (c : string) : Prop := c ≠ "" /\ slashFree c.

(** A valid table that already knows [x] and [x/y] of the example tree. *)
Definition exampleMemo : gmap string bool := {[ "x" := true; "x/y" := true ]}.

(** ** Matches of a walk *)

(** The regular expression that [glob] makes of a pattern with [**]. *)
Definition globRegex (pattern : string) : string :=
  Replace (Replace (Replace pattern "*" "[^/]*") "[^/]*[^/]*" ".*") "/.*/" "/(?:.*/)?".

(** What the walk of [glob] adds below a node when the answers of
    [isPackage] are those of the file system: the matching files in the
    order of the walk, a directory that is a package and not the root of the
    walk being left out with all that it holds. *)
Fixpoint walkMatches (env : ParseEnv) (rootPath : string) (regex : string -> bool)
    (name : string) (n : FsNode) : list string :=
  match n with
  | RegularFile => if regex name then [name] else []
  | Directory entries =>
      if negb (String.eqb name rootPath) && isPackageInternal env name then []
      else
        mjoin
          (snd <$> sortEntries
             ((fix children (es : list (string * FsNode)) : list (string * list string) :=
                 match es with
                 | [] => []
                 | (k, child) :: es' =>
                     (k, walkMatches env rootPath regex (path_Join name k) child)
                     :: children es'
                 end) entries))
  end.

(** A library for the examples: every regular expression compiles to the
    test for the suffix [.go], an exclude pattern matches the name that is
    equal to it, and patterns with meta characters expand to nothing. *)
Definition exampleGoLib : GoLib :=
  {| regexpCompile := fun _ => Some (fun name => HasSuffix name ".go");
     filepathMatch := fun pattern name => Ok (String.eqb pattern name);
     filepathGlobMeta := fun _ _ => Ok [] |}.

(** The tree of the example with a hidden file in the package [p]. *)
Definition hiddenEnv : ParseEnv :=
  mkParseEnv
    (Directory
       [("p", Directory
                [("BUILD", RegularFile);
                 (".gitignore", RegularFile);
                 ("main.go", RegularFile);
                 ("lib", Directory [("util.go", RegularFile)])])])
    ["BUILD"].
(** A table that knows the package [p/sub] of the example tree. *)
Definition globMemo : gmap string bool := {[ "p/sub" := true ]}.

(** ** Inputs and requirements of a target *)

(** The labels among the sources, the named sources, the data and the
    tools of a target. *)
Definition inputLabels (t : BuildTarget) : list BuildLabel :=
  omap BuildInput_Label (Sources t ++ (snd <$> NamedSources t) ++ Data t) ++ Tools t.

(** The state of a target that [AddTarget] has just made. *)
Definition newTargetState (label : BuildLabel) (memo : gmap string bool) : TargetState :=
  mkTargetState (NewBuildTarget label) (mkAttributes [] [] []) memo.

(** The invariant of the callbacks: the labels of the inputs are declared
    dependencies, and the requirements are labels. *)
Definition targetCoherent (st : TargetState) : Prop :=
  inputLabels (stTarget st) ⊆ DeclaredDependencies (stTarget st)
  /\ Requires (stAttributes st) ⊆ Labels (stTarget st).

(** Methods for the examples: subincludes are not recorded, provides are
    ignored and every container setting is refused. *)
Definition exampleCoreMethods : CoreMethods :=
  {| RepoRootDir := "/repo";
     RegisterSubinclude := fun pkg _ => pkg;
     target_AddProvide := fun t _ _ => t;
     target_SetContainerSetting := fun _ _ _ => Panic InvalidLabel |}.

(** ** Where the cache writes *)

(** [fs'] differs from [fs] only at [D] and below it, apart from the
    directories above [D] that have been made. *)
Definition writesBelow (D : Path) (fs fs' : FileSystem) : Prop :=
  forall q, ¬ D `prefix_of` q ->
            fs' q = fs q \/ (q `prefix_of` D /\ fs' q = Some CDir).

(** The two file systems hold the same at every path. *)
Definition sameFiles (fs fs' : FileSystem) : Prop := forall q, fs q = fs' q.

(** The same outcome of an operation that may fail. *)
Definition sameOutcome (r r' : option FileSystem) : Prop :=
  match r, r' with
  | Some fs, Some fs' => sameFiles fs fs'
  | None, None => True
  | _, _ => False
  end.

(** A configuration with a relative cache directory and a cleaner. *)
Definition exampleConfig : CacheConfig :=
  mkCacheConfig ".plz-cache" "cache_cleaner" "10G" "8G".

(** ** Rules of the examples *)

(** A target that is being built and has the label of a Go path mapping. *)
Definition protoTarget : BuildTarget :=
  mkBuildTarget (mkLabel "api" "_service#protoc") false false true false false
    false false false 0 0 0 "" "$TOOLS_PROTOC --go_out=$TMP_DIR ${SRCS}" ""
    [go_map_label "api" "service.proto" "service"] [] [] [] [] [] []
    [] [] [] [] Building.

Definition protoPackage : Package :=
  mkPackage "api" {[ "_service#protoc" := protoTarget ]} ∅.

(** ** Trees with plain names *)

(** The names of the entries of all directories of the tree are plain: not
    empty, not [.] or [..], and without a slash, as the names of a file
    system are. *)
Fixpoint plainTree (n : FsNode) : Prop :=
  match n with
  | RegularFile => True
  | Directory entries =>
      (fix all (es : list (string * FsNode)) : Prop :=
         match es with
         | [] => True
         | (k, child) :: es' => plainName k /\ plainTree child /\ all es'
         end) entries
  end.

(** ** The loop of Glob *)

(** The body of the loop of [Glob] over the include patterns. *)
Definition globStep `{GoLib} (env : ParseEnv) (cPackage : string)
    (cExcludes : list string) (includeHidden : bool)
    (acc : result (list string) * gmap string bool) (include : string)
    : result (list string) * gmap string bool :=
  match acc with
  | (Panic e, memo) => (Panic e, memo)
  | (Ok filenames, memo) =>
      match glob env memo cPackage include with
      | (Panic e, memo') => (Panic e, memo')
      | (Ok matches, memo') =>
          (globFilter cPackage cExcludes includeHidden filenames matches, memo')
      end
  end.

(** The tree of the example with a source two directories down. *)
Definition deepEnv : ParseEnv :=
  mkParseEnv
    (Directory
       [("p", Directory
                [("BUILD", RegularFile);
                 ("lib", Directory
                           [("util", Directory [("strings.go", RegularFile)])]);
                 ("sub", Directory [("BUILD", RegularFile); ("inner.go", RegularFile)])])])
    ["BUILD"].

(** * Properties *)

(** ** Post-build mutation, target creation and dependencies *)

Section InterpreterProperties.
Context `{Core} `{GoLib}.

Lemma getTargetPost_unknown pkg cTarget :
  Targets pkg !! cTarget = None -> getTargetPost pkg cTarget = Panic UnknownTarget.
Proof. intros Hm. unfold getTargetPost. by rewrite Hm. Qed.

Lemma getTargetPost_built pkg cTarget target :
  Targets pkg !! cTarget = Some target ->
  stateRank (state target) >= stateRank Built ->
  getTargetPost pkg cTarget = Panic ImmutableBuiltTarget.
Proof. intros Hm Hs. unfold getTargetPost. rewrite Hm. by rewrite decide_True. Qed.

Lemma getTargetPost_Ok pkg cTarget target :
  getTargetPost pkg cTarget = Ok target <->
  Targets pkg !! cTarget = Some target /\ stateRank (state target) < stateRank Built.
Proof.
  unfold getTargetPost. destruct (Targets pkg !! cTarget) as [t|]; [|naive_solver].
  case_decide; [split; [done | intros [[= ->] ?]; lia] |].
  split; [intros [= ->]; split; [done | lia] | by intros [[= ->] _]].
Qed.

Lemma bind_Ok_inv {A B} (r : result A) (k : A -> result B) b :
  r ≫= k = Ok b -> exists a, r = Ok a /\ k a = Ok b.
Proof. destruct r; [eauto | done]. Qed.

(** C4: each of the post-build callbacks AddDependency, AddOutputPost,
    AddLicencePost and SetCommand panics with UnknownTarget when the package
    has no target of that name, panics with ImmutableBuiltTarget when the
    state of the target is Built or beyond, and gets past the check only for
    a target of the package whose state is below Built. *)
Theorem post_build_mutation_guarded (g : BuildGraph) (pkg : Package)
    (cTarget arg : string) (exported : bool) :
  (Targets pkg !! cTarget = None ->
   Forall (fun o => o = Some UnknownTarget) (postBuildOutcomes g pkg cTarget arg exported))
  /\ (forall target, Targets pkg !! cTarget = Some target ->
      stateRank (state target) >= stateRank Built ->
      Forall (fun o => o = Some ImmutableBuiltTarget)
        (postBuildOutcomes g pkg cTarget arg exported))
  /\ (forall o, o ∈ postBuildOutcomes g pkg cTarget arg exported ->
      o ≠ Some UnknownTarget -> o ≠ Some ImmutableBuiltTarget ->
      exists target, Targets pkg !! cTarget = Some target
                     /\ stateRank (state target) < stateRank Built).
Proof.
  unfold postBuildOutcomes, AddDependency, AddOutputPost, AddLicencePost, SetCommand.
  split; [|split].
  - intros Hm. rewrite (getTargetPost_unknown _ _ Hm). by repeat constructor.
  - intros t Hm Hs. rewrite (getTargetPost_built _ _ _ Hm Hs). by repeat constructor.
  - intros o Ho Hu Hb.
    destruct (getTargetPost pkg cTarget) as [t|e] eqn:Hg.
    { apply getTargetPost_Ok in Hg. eauto. }
    exfalso. unfold getTargetPost in Hg.
    destruct (Targets pkg !! cTarget); [case_decide|]; simplify_eq/=;
      set_solver.
Qed.

(** C5: addTarget panics with DuplicateTarget when the package already has
    a target of that name; otherwise it panics when a test command is given
    to a target that is not a test, and when a test has an empty test
    command; otherwise the target is created with the given attributes and
    the package holds it under its name, the other targets being as they
    were. *)
Theorem addTarget_validation (g : BuildGraph) (pkg : Package)
    (name cmd testCmd : string)
    (binary test needsTransitiveDeps outputIsComplete containerise
     noTestOutput skipCache testOnly : bool)
    (flakiness buildTimeout testTimeout : Z) (buildingDescription : string) :
  let r := addTarget g pkg name cmd testCmd binary test needsTransitiveDeps
             outputIsComplete containerise noTestOutput skipCache testOnly
             flakiness buildTimeout testTimeout buildingDescription in
  (is_Some (Targets pkg !! name) -> r = Panic DuplicateTarget)
  /\ (Targets pkg !! name = None -> testCmd ≠ "" -> test = false ->
      r = Panic TestCommandWithoutTest)
  /\ (Targets pkg !! name = None -> test = true -> testCmd = "" ->
      r = Panic TestWithoutTestCommand)
  /\ (Targets pkg !! name = None -> (testCmd ≠ "" <-> test = true) ->
      exists g' pkg' target,
        r = Ok (g', pkg', target)
        /\ Targets pkg' !! name = Some target
        /\ (forall other, other ≠ name -> Targets pkg' !! other = Targets pkg !! other)
        /\ Label target = mkLabel (pkgName pkg) name
        /\ Command target = cmd /\ TestCommand target = testCmd
        /\ IsBinary target = binary /\ IsTest target = test
        /\ state target = Inactive).
Proof.
  intros r. subst r. unfold addTarget.
  set (t0 := setFlags _ _ _ _ _ _ _ _ _ _ _ _).
  set (t1 := if containerise then _ else _).
  set (t2 := if decide (buildingDescription ≠ "") then _ else _).
  set (t3 := if binary then _ else _).
  assert (Ht3 : Label t3 = mkLabel (pkgName pkg) name /\ IsBinary t3 = binary
                /\ IsTest t3 = test /\ state t3 = Inactive).
  { subst t3 t2 t1 t0. destruct containerise, binary;
      case_decide; simpl; done. }
  destruct Ht3 as (Hl & Hb & Ht & Hs).
  split; [|split; [|split]].
  - intros Hm. by rewrite decide_True.
  - intros Hm Hc Hf. rewrite decide_False by (rewrite Hm; by intros [? ?]).
    rewrite decide_True; [done|]. simpl. by rewrite Ht.
  - intros Hm Hc Hf. rewrite decide_False by (rewrite Hm; by intros [? ?]).
    rewrite decide_False by (simpl; naive_solver).
    rewrite decide_True; [done|]. simpl. by rewrite Ht.
  - intros Hm Hiff. rewrite decide_False by (rewrite Hm; by intros [? ?]).
    rewrite decide_False.
    2:{ simpl. rewrite Ht. intros [? ?]. destruct test; naive_solver. }
    rewrite decide_False.
    2:{ simpl. rewrite Ht. intros [? ?]. naive_solver. }
    eexists _, _, _. split; [reflexivity|].
    simpl. rewrite lookup_insert_eq. split; [done|].
    split; [intros other Ho; by rewrite lookup_insert_ne|].
    done.
Qed.

Lemma elem_of_appendNew {A} `{EqDecision A} (l : list A) (x y : A) :
  y ∈ appendNew l x <-> y ∈ l \/ y = x.
Proof. unfold appendNew. case_decide; set_solver. Qed.

Lemma exportedIncluded_AddDependency t dep :
  exportedIncluded t -> exportedIncluded (target_AddDependency t dep).
Proof.
  unfold exportedIncluded. simpl. intros Hi x Hx.
  apply elem_of_appendNew. left. by apply Hi.
Qed.

Lemma exportedIncluded_AddExported t dep :
  exportedIncluded t ->
  exportedIncluded (target_AddExportedDependency (target_AddDependency t dep) dep).
Proof.
  unfold exportedIncluded. simpl. intros Hi x Hx.
  apply elem_of_appendNew in Hx. apply elem_of_appendNew.
  destruct Hx as [Hx| ->]; [left; by apply Hi | by right].
Qed.

Lemma exportedIncluded_setTools t l :
  exportedIncluded t -> exportedIncluded (setTools t l).
Proof. done. Qed.

Lemma exportedIncluded_addTarget g pkg name cmd testCmd b1 b2 b3 b4 b5 b6 b7 b8
    z1 z2 z3 d g' pkg' target :
  addTarget g pkg name cmd testCmd b1 b2 b3 b4 b5 b6 b7 b8 z1 z2 z3 d
    = Ok (g', pkg', target) ->
  map_Forall (fun _ t => exportedIncluded t) (Targets pkg) ->
  map_Forall (fun _ t => exportedIncluded t) (Targets pkg').
Proof.
  unfold addTarget. intros Heq Hall.
  destruct (decide (is_Some (Targets pkg !! name))); [done|].
  destruct (decide (_ /\ _)); [done|].
  destruct (decide (_ /\ _)); [done|].
  injection Heq as <- <- <-. simpl.
  apply map_Forall_insert_2; [|done].
  unfold exportedIncluded.
  destruct b5, b1, (decide (d ≠ "")); simpl; set_solver.
Qed.

Lemma exportedIncluded_onTarget pkg name f pkg' :
  (forall t t', f t = Ok t' -> exportedIncluded t -> exportedIncluded t') ->
  onTarget pkg name f = Ok pkg' ->
  map_Forall (fun _ t => exportedIncluded t) (Targets pkg) ->
  map_Forall (fun _ t => exportedIncluded t) (Targets pkg').
Proof.
  intros Hf. unfold onTarget.
  destruct (Targets pkg !! name) as [t|] eqn:Hm; [|by intros [= <-]].
  intros Heq Hall. apply bind_Ok_inv in Heq as (t' & Ht' & [= <-]).
  simpl. apply map_Forall_insert_2; [|done].
  eapply Hf; [done|]. by eapply (Hall name).
Qed.

Lemma exportedIncluded_runDepCall st c st' :
  runDepCall st c = Ok st' ->
  map_Forall (fun _ t => exportedIncluded t) (Targets st.2) ->
  map_Forall (fun _ t => exportedIncluded t) (Targets st'.2).
Proof.
  destruct st as [g pkg]. destruct c; simpl; intros Heq Hall.
  - apply bind_Ok_inv in Heq as ([[g' pkg'] t] & Ha & [= <-]).
    by eapply exportedIncluded_addTarget.
  - apply bind_Ok_inv in Heq as (pkg' & Ho & [= <-]).
    eapply exportedIncluded_onTarget; [|done..].
    intros t t' Ht Hi. unfold AddDep in Ht.
    apply bind_Ok_inv in Ht as ([d f] & _ & [= <-]).
    by apply exportedIncluded_AddDependency.
  - apply bind_Ok_inv in Heq as (pkg' & Ho & [= <-]).
    eapply exportedIncluded_onTarget; [|done..].
    intros t t' Ht Hi. unfold AddExportedDep in Ht.
    apply bind_Ok_inv in Ht as ([d f] & _ & [= <-]).
    by apply exportedIncluded_AddExported.
  - apply bind_Ok_inv in Heq as (pkg' & Ho & [= <-]).
    eapply exportedIncluded_onTarget; [|done..].
    intros t t' Ht Hi. unfold AddTool in Ht.
    apply bind_Ok_inv in Ht as ([d f] & _ & [= <-]).
    by apply exportedIncluded_AddDependency, exportedIncluded_setTools.
  - unfold AddDependency in Heq.
    apply bind_Ok_inv in Heq as (t & Ht & Heq).
    apply bind_Ok_inv in Heq as ([d f] & _ & [= <-]).
    apply getTargetPost_Ok in Ht as [Ht _].
    simpl. apply map_Forall_insert_2; [|done].
    pose proof (Hall _ _ Ht) as Hi. simpl in Hi.
    destruct exported.
    + by apply exportedIncluded_AddExported.
    + by apply exportedIncluded_AddDependency.
Qed.

Lemma exportedIncluded_runDepCalls cs st :
  map_Forall (fun _ t => exportedIncluded t) (Targets st.2) ->
  map_Forall (fun _ t => exportedIncluded t) (Targets (runDepCalls st cs).2).
Proof.
  revert st. induction cs as [|c cs IH]; intros st Hall; [done|].
  simpl. apply IH.
  destruct (runDepCall st c) as [st'|] eqn:Hr; [|done].
  by eapply exportedIncluded_runDepCall.
Qed.

(** C9: in a package that starts empty, after any sequence of AddTarget,
    AddDep, AddExportedDep, AddTool and AddDependency calls (exported or
    not), every label among the exported dependencies of a target is among
    its dependencies. *)
Theorem exported_dependencies_included (g : BuildGraph) (pkg : string)
    (calls : list DepCall) :
  map_Forall (fun _ target =>
                forall dep, dep ∈ ExportedDependencies target ->
                            dep ∈ DeclaredDependencies target)
    (Targets (runDepCalls (g, mkPackage pkg ∅ ∅) calls).2).
Proof.
  apply (exportedIncluded_runDepCalls calls (g, mkPackage pkg ∅ ∅)).
  simpl. apply map_Forall_empty.
Qed.

(** ** GetSubincludeFile *)

(** C2 (as amended): when the label parses, GetSubincludeFile records a
    deferred parse and returns the DEFER sentinel if the graph has neither
    the target nor its package; it panics (Unsubincludable) if the package
    is there without the target.  For a target of the graph the checks come
    in this order: a target the caller cannot see panics
    (VisibilityViolation) whatever its state; one whose outputs are not
    exactly one panics (MultipleOutputs); a visible target with one output
    records a deferral and returns DEFER while its state is below Built, and
    yields the path of its output under its out-dir from Built on. *)
Theorem GetSubincludeFile_protocol (g : BuildGraph) (pkg : Package)
    (cLabel : string) (label : BuildLabel)
    (Hparse : ParseBuildLabel cLabel (pkgName pkg) = Ok label) :
  let r := GetSubincludeFile g pkg cLabel in
  let caller := NewBuildTarget (mkLabel (pkgName pkg) "all") in
  (Graph_Target g label = None -> Graph_Package g (PackageName label) = false ->
   r = Ok (deferParse g label pkg, pyDeferParse))
  /\ (Graph_Target g label = None -> Graph_Package g (PackageName label) = true ->
      r = Panic Unsubincludable)
  /\ (forall target, Graph_Target g label = Some target ->
      (CanSee caller target = false -> r = Panic VisibilityViolation)
      /\ (CanSee caller target = true -> length (outputs target) ≠ 1%nat ->
          r = Panic MultipleOutputs)
      /\ (forall out, CanSee caller target = true -> outputs target = [out] ->
          (stateRank (state target) < stateRank Built ->
           r = Ok (deferParse g label pkg, pyDeferParse))
          /\ (stateRank (state target) >= stateRank Built ->
              r = Ok (g, path_Join (OutDir target) out)))).
Proof.
  intros r caller. subst r caller. unfold GetSubincludeFile.
  rewrite Hparse. simpl.
  split; [|split].
  - intros -> ->. done.
  - intros -> ->. done.
  - intros target ->. split; [|split].
    + intros ->. done.
    + intros -> Hl. simpl. by rewrite decide_True.
    + intros out -> Ho. rewrite Ho. simpl. split.
      * intros Hs. by rewrite decide_True.
      * intros Hs. rewrite decide_False by lia. done.
Qed.

End InterpreterProperties.

Lemma post_build_mutation_guarded_witness :
  let pkg := mkPackage "a" {[ "lib" := NewBuildTarget (mkLabel "a" "lib") ]} ∅ in
  exists target, Targets pkg !! "lib" = Some target
                 /\ stateRank (state target) < stateRank Built.
Proof.
  intros pkg.
  apply (proj2 (proj2 (@post_build_mutation_guarded exampleCore
                         (mkGraph ∅ ∅ [] []) pkg "lib" "echo" false)) None).
  - unfold postBuildOutcomes. simpl. set_solver.
  - discriminate.
  - discriminate.
Defined.

Lemma addTarget_validation_witness :
  exists g' pkg' target,
    addTarget (mkGraph ∅ ∅ [] []) (mkPackage "a" ∅ ∅) "lib_test" "go test -c" "$TEST"
      true true false false false false false false 0 0 0 ""
    = Ok (g', pkg', target)
    /\ Targets pkg' !! "lib_test" = Some target.
Proof.
  destruct (proj2 (proj2 (proj2 (addTarget_validation (mkGraph ∅ ∅ [] [])
              (mkPackage "a" ∅ ∅) "lib_test" "go test -c" "$TEST"
              true true false false false false false false 0 0 0 ""))))
    as (g' & pkg' & target & Hr & Hl & _).
  - reflexivity.
  - split; [reflexivity | discriminate].
  - exists g', pkg', target. split; [exact Hr | exact Hl].
Defined.

Lemma GetSubincludeFile_protocol_witness :
  @GetSubincludeFile exampleCore rulesGraph (mkPackage "b" ∅ ∅) "//a:rules"
  = Panic VisibilityViolation.
Proof.
  refine (proj1 (proj2 (proj2 (@GetSubincludeFile_protocol exampleCore rulesGraph
            (mkPackage "b" ∅ ∅) "//a:rules" (mkLabel "a" "rules") _)) rulesTarget _) _).
  - reflexivity.
  - reflexivity.
  - reflexivity.
Defined.

(** C2 fails as stated: the target [//a:rules] exists in the graph and its
    state is below Built, yet the call from package [b], which it is not
    visible to, panics instead of returning the DEFER sentinel. *)
Lemma GetSubincludeFile_defer_counterexample :
  @ParseBuildLabel exampleCore "//a:rules" "b" = Ok (mkLabel "a" "rules")
  /\ Graph_Target rulesGraph (mkLabel "a" "rules") = Some rulesTarget
  /\ stateRank (state rulesTarget) < stateRank Built
  /\ @GetSubincludeFile exampleCore rulesGraph (mkPackage "b" ∅ ∅) "//a:rules"
     = Panic VisibilityViolation
  /\ @GetSubincludeFile exampleCore rulesGraph (mkPackage "b" ∅ ∅) "//a:rules"
     ≠ Ok (deferParse rulesGraph (mkLabel "a" "rules") (mkPackage "b" ∅ ∅), pyDeferParse).
Proof. repeat split; try reflexivity; discriminate. Qed.

(** ** parseSource *)

Section ParseSourceProperties.
Context `{Core} `{GoLib}.

Lemma ownerWalk_outcome env p fuel dir memo :
  (ownerWalk env p fuel dir memo).1 = None
  \/ (ownerWalk env p fuel dir memo).1 = Some (Ok ())
  \/ exists d, (ownerWalk env p fuel dir memo).1 = Some (Panic (CrossPackageFile d)).
Proof.
  revert dir memo. induction fuel as [|fuel IH]; intros dir memo; simpl;
    case_decide; try (right; left; done);
    destruct (isPackage env dir memo) as [[] memo']; simpl; eauto.
Qed.

(** C10: on the empty source string parseSource indexes [src[0]] and
    panics with the run-time error of an index out of range, and so do its
    callers AddSource, AddNamedSource and AddData; a non-empty string that
    is not a build label never panics that way. *)
Theorem parseSource_empty_source (env : ParseEnv) (memo : gmap string bool)
    (packageName cName : string) (target : BuildTarget) :
  parseSource env memo "" packageName = (Some (Panic IndexOutOfRange), memo)
  /\ AddSource env memo target "" = (Some (Panic IndexOutOfRange), memo)
  /\ AddNamedSource env memo target cName "" = (Some (Panic IndexOutOfRange), memo)
  /\ AddData env memo target "" = (Some (Panic IndexOutOfRange), memo)
  /\ (forall src, src ≠ "" -> LooksLikeABuildLabel src = false ->
      (parseSource env memo src packageName).1 ≠ Some (Panic IndexOutOfRange)).
Proof.
  repeat split; try reflexivity.
  intros src Hne Hl. unfold parseSource. rewrite Hl.
  destruct (Contains src "../"); [done|].
  destruct src as [|c src]; [done|]. simpl firstByte. cbv iota.
  destruct (Ascii.eqb c "/"); [done|].
  destruct (Contains (String c src) "/"); [|done].
  set (w := ownerWalk _ _ _ _ _).
  destruct (ownerWalk_outcome env packageName
              (String.length (path_Join packageName (String c src)))
              (path_Dir (path_Join packageName (String c src))) memo)
    as [Hw|[Hw|[d Hw]]]; fold w in Hw; destruct w as [[[[]|e]|] memo'];
    simpl in *; simplify_eq; done.
Qed.

End ParseSourceProperties.

Lemma parseSource_empty_source_witness :
  (@parseSource exampleCore (mkParseEnv (Directory []) ["BUILD"]) ∅ "main.go" "a").1
  ≠ Some (Panic IndexOutOfRange).
Proof.
  apply (proj2 (proj2 (proj2 (proj2 (@parseSource_empty_source exampleCore
           (mkParseEnv (Directory []) ["BUILD"]) ∅ "a" "" (NewBuildTarget (mkLabel "a" "t"))))))
           "main.go").
  - discriminate.
  - reflexivity.
Defined.

(** ** Strings and paths *)

Lemma append_cons c (a b : string) : String c a +:+ b = String c (a +:+ b).
Proof. reflexivity. Qed.

Lemma append_nil_l (b : string) : "" +:+ b = b.
Proof. reflexivity. Qed.

Lemma append_assoc (a b c : string) : (a +:+ b) +:+ c = a +:+ (b +:+ c).
Proof. induction a as [|x a IH]; [done|]. rewrite !append_cons. by f_equal. Qed.

Lemma length_append (a b : string) :
  String.length (a +:+ b) = (String.length a + String.length b)%nat.
Proof. induction a as [|x a IH]; [done|]. rewrite append_cons. simpl. by f_equal. Qed.

Lemma splitSlash_nonempty s : splitSlash s ≠ [].
Proof.
  destruct s as [|c s]; [done|]. simpl.
  destruct (Ascii.eqb c "/"); [done|]. by destruct (splitSlash s).
Qed.

Lemma splitSlash_app_slash (a b : string) :
  splitSlash (a +:+ String "/" b) = splitSlash a ++ splitSlash b.
Proof.
  induction a as [|c a IH]; [done|].
  rewrite append_cons. simpl. destruct (Ascii.eqb c "/").
  - by rewrite IH.
  - rewrite IH. pose proof (splitSlash_nonempty a).
    by destruct (splitSlash a).
Qed.

Lemma slashFree_cons x c : slashFree (String x c) -> x ≠ "/"%char /\ slashFree c.
Proof.
  unfold slashFree. simpl. destruct (Ascii.eqb_spec x "/") as [->|Hx].
  - intros [= ?]. 
  - intros Hs. split; [done|].
    pose proof (splitSlash_nonempty c). destruct (splitSlash c) as [|y ys]; [done|].
    by simplify_eq.
Qed.

Lemma slashFree_splitSlash s : Forall slashFree (splitSlash s).
Proof.
  induction s as [|c s IH]; [by repeat constructor|].
  simpl. destruct (Ascii.eqb_spec c "/") as [->|Hc].
  - by constructor.
  - pose proof (splitSlash_nonempty s). destruct (splitSlash s) as [|x xs]; [done|].
    inversion IH as [|? ? Hx Hxs]; subst. constructor; [|done].
    unfold slashFree in *. simpl. rewrite Hx.
    by destruct (Ascii.eqb_spec c "/").
Qed.

Lemma joinSlash_cons2 x y l : joinSlash (x :: y :: l) = x +:+ String "/" (joinSlash (y :: l)).
Proof. reflexivity. Qed.

Lemma splitSlash_joinSlash l :
  l ≠ [] -> Forall slashFree l -> splitSlash (joinSlash l) = l.
Proof.
  induction l as [|x l IH]; [done|]. intros _ Hall.
  inversion Hall as [|? ? Hx Hl]; subst.
  destruct l as [|y l]; [done|].
  rewrite joinSlash_cons2, splitSlash_app_slash, Hx, IH; done.
Qed.

Lemma joinSlash_snoc l c :
  l ≠ [] -> joinSlash (l ++ [c]) = joinSlash l +:+ String "/" c.
Proof.
  induction l as [|x l IH]; [done|]. intros _.
  destruct l as [|y l]; [done|].
  change ((x :: y :: l) ++ [c]) with (x :: y :: (l ++ [c])).
  rewrite !joinSlash_cons2, append_assoc. f_equal.
  rewrite append_cons. f_equal. change (y :: l ++ [c]) with ((y :: l) ++ [c]).
  by apply IH.
Qed.

Lemma length_joinSlash l :
  Forall (fun c => c ≠ "") l -> (length l ≤ String.length (joinSlash l))%nat.
Proof.
  induction l as [|x l IH]; [simpl; lia|]. intros Hall.
  inversion Hall as [|? ? Hx Hl]; subst.
  destruct l as [|y l].
  - destruct x; [done | simpl; lia].
  - rewrite joinSlash_cons2, length_append. specialize (IH Hl). simpl in *. lia.
Qed.

Lemma path_Split_slashFree c : slashFree c -> path_Split c = ("", c).
Proof.
  induction c as [|x c IH]; [done|]. intros Hs.
  apply slashFree_cons in Hs as [Hx Hc]. simpl. rewrite (IH Hc). simpl.
  by destruct (Ascii.eqb_spec x "/").
Qed.

Lemma path_Split_app_slash a c :
  slashFree c -> path_Split (a +:+ String "/" c) = (a +:+ "/", c).
Proof.
  intros Hc. induction a as [|x a IH].
  - rewrite append_nil_l. simpl. by rewrite (path_Split_slashFree c Hc).
  - rewrite append_cons. simpl. rewrite IH.
    destruct (decide (a +:+ "/" = "")) as [He|He]; [by destruct a | done].
Qed.

Lemma isRooted_head s : isRooted s = true -> head (splitSlash s) = Some "".
Proof.
  destruct s as [|c s]; [done|]. unfold isRooted. cbn [HasPrefix splitSlash].
  destruct (Ascii.eqb_spec "/" c) as [<-|]; [done | done].
Qed.

Lemma isRooted_app a b : a ≠ "" -> isRooted (a +:+ b) = isRooted a.
Proof. by destruct a. Qed.

Lemma foldl_cleanStep rooted l stack :
  ".." ∉ l ->
  foldl (cleanStep rooted) stack l = rev (filter nonTrivial l) ++ stack.
Proof.
  revert stack. induction l as [|c l IH]; intros stack Hdd; [done|].
  simpl. rewrite IH by set_solver.
  unfold cleanStep. destruct (decide (c = "" ∨ c = ".")) as [Hc|Hc].
  - rewrite filter_cons_False; [done|]. unfold nonTrivial. naive_solver.
  - rewrite decide_False by set_solver.
    rewrite filter_cons_True by (unfold nonTrivial; naive_solver).
    simpl. by rewrite <- app_assoc.
Qed.

Lemma cleanComps_noDotDot s :
  ".." ∉ splitSlash s -> cleanComps s = filter nonTrivial (splitSlash s).
Proof.
  intros Hdd. unfold cleanComps. rewrite foldl_cleanStep by done.
  by rewrite app_nil_r, rev_involutive.
Qed.

Lemma filter_plain l : Forall plainName l -> filter nonTrivial l = l.
Proof.
  induction 1 as [|x l Hx Hl IH]; [done|].
  rewrite filter_cons_True, IH; [done|]. unfold plainName, nonTrivial in *. naive_solver.
Qed.

Lemma plain_notin l : Forall plainName l -> ".." ∉ l.
Proof.
  intros Hall Hin. rewrite Forall_forall in Hall. apply Hall in Hin.
  unfold plainName in Hin. naive_solver.
Qed.

Lemma renderPath_plain l : l ≠ [] -> renderPath false l = joinSlash l.
Proof. by destruct l. Qed.

Lemma isRooted_joinSlash l : Forall plainName l -> isRooted (joinSlash l) = false.
Proof.
  intros Hall. destruct l as [|x l]; [done|].
  destruct (isRooted (joinSlash (x :: l))) eqn:Hr; [|done].
  apply isRooted_head in Hr.
  rewrite splitSlash_joinSlash in Hr; [| done |].
  - inversion Hall as [|? ? Hx _]; subst. simpl in Hr. unfold plainName in Hx. naive_solver.
  - eapply Forall_impl; [done|]. unfold plainName. naive_solver.
Qed.

Lemma plain_slashFree l : Forall plainName l -> Forall slashFree l.
Proof. intros Hall. eapply Forall_impl; [done|]. unfold plainName. naive_solver. Qed.

Lemma path_Clean_joinSlash_slash l :
  l ≠ [] -> Forall plainName l -> path_Clean (joinSlash l +:+ "/") = joinSlash l.
Proof.
  intros Hne Hall. unfold path_Clean.
  assert (Hs : splitSlash (joinSlash l +:+ "/") = l ++ [""]).
  { rewrite splitSlash_app_slash, splitSlash_joinSlash; auto using plain_slashFree. }
  assert (Hj : joinSlash l ≠ "").
  { intros Hj. apply (f_equal splitSlash) in Hj.
    rewrite splitSlash_joinSlash in Hj by auto using plain_slashFree.
    subst l. inversion Hall as [|? ? Hx _]; subst. unfold plainName in Hx. naive_solver. }
  rewrite isRooted_app by done.
  rewrite isRooted_joinSlash by done.
  rewrite cleanComps_noDotDot; rewrite Hs.
  - rewrite filter_app, filter_plain by done.
    rewrite filter_cons_False by (unfold nonTrivial; naive_solver).
    rewrite filter_nil, app_nil_r. by apply renderPath_plain.
  - intros Hin. apply elem_of_app in Hin as [Hin|Hin].
    + by apply plain_notin in Hin.
    + set_solver.
Qed.

Lemma path_Dir_joinSlash_snoc l c :
  Forall plainName l -> plainName c ->
  path_Dir (joinSlash (l ++ [c])) = renderPath false l.
Proof.
  intros Hl Hc. unfold path_Dir. destruct (decide (l = [])) as [->|Hne].
  - simpl. rewrite path_Split_slashFree by (unfold plainName in Hc; naive_solver). done.
  - rewrite joinSlash_snoc, path_Split_app_slash by (unfold plainName in Hc; naive_solver).
    cbn [fst]. rewrite path_Clean_joinSlash_slash by done.
    symmetry. by apply renderPath_plain.
Qed.

Lemma joinSlash_inj l1 l2 :
  l1 ≠ [] -> l2 ≠ [] -> Forall slashFree l1 -> Forall slashFree l2 ->
  joinSlash l1 = joinSlash l2 -> l1 = l2.
Proof.
  intros ? ? H1 H2 Heq.
  rewrite <- (splitSlash_joinSlash l1), <- (splitSlash_joinSlash l2) by done.
  by rewrite Heq.
Qed.

(** ** The directories between a package and a source file *)

Lemma prefixesAsc_snoc {A} (l : list A) (c : A) :
  prefixesAsc (l ++ [c]) = prefixesAsc l ++ [l ++ [c]].
Proof.
  induction l as [|x l IH]; [done|].
  simpl. rewrite IH, fmap_app. done.
Qed.

Lemma joinSlash_splitSlash s : joinSlash (splitSlash s) = s.
Proof.
  induction s as [|c s IH]; [done|].
  cbn [splitSlash]. pose proof (splitSlash_nonempty s) as Hne.
  destruct (Ascii.eqb_spec c "/") as [->|Hc].
  - destruct (splitSlash s) as [|x xs]; [done|].
    rewrite joinSlash_cons2, IH. done.
  - destruct (splitSlash s) as [|x xs]; [done|].
    rewrite <- IH. by destruct xs.
Qed.

Lemma isPackage_valid env name memo :
  memoValid env memo ->
  exists memo', isPackage env name memo = (isPackageInternal env name, memo')
                /\ memoValid env memo'.
Proof.
  intros Hm. unfold isPackage. destruct (memo !! name) as [ret|] eqn:Hl.
  - exists memo. split; [|done]. by rewrite (Hm _ _ Hl).
  - eexists. split; [done|]. by apply map_Forall_insert_2.
Qed.

Lemma joinSlash_plain_ne l :
  l ≠ [] -> Forall plainName l -> joinSlash l ≠ "" /\ joinSlash l ≠ ".".
Proof.
  intros Hne Hall.
  split; intros Hj; apply (f_equal splitSlash) in Hj;
    rewrite splitSlash_joinSlash in Hj by auto using plain_slashFree;
    subst l; inversion Hall as [|? ? Hx _]; subst;
    unfold plainName in Hx; naive_solver.
Qed.

Section OwnerWalk.
Context (env : ParseEnv) (packageName : string) (pc : list string).
Hypothesis Hpc : Forall plainName pc.
Hypothesis Hpkg : (pc = [] /\ packageName = "") \/ (pc ≠ [] /\ packageName = joinSlash pc).

Lemma ownerWalk_below pre :
  Forall plainName pre ->
  forall fuel memo, (length pre ≤ fuel)%nat -> memoValid env memo ->
  exists memo',
    memoValid env memo' /\
    ownerWalk env packageName fuel (renderPath false (pc ++ pre)) memo
    = (Some (match List.find (isPackageInternal env)
                     ((fun q => renderPath false (pc ++ q)) <$> rev (prefixesAsc pre)) with
             | Some dir => Panic (CrossPackageFile dir)
             | None => Ok ()
             end), memo').
Proof.
  induction pre as [|c pre IH] using rev_ind; intros Hpre fuel memo Hfuel Hmemo.
  - exists memo. split; [done|]. rewrite app_nil_r. simpl.
    assert (Hstop : ¬ (renderPath false pc ≠ packageName /\ renderPath false pc ≠ ".")).
    { destruct Hpkg as [[-> ->]|[Hne ->]]; [naive_solver|].
      rewrite renderPath_plain by done. naive_solver. }
    destruct fuel; simpl; by rewrite decide_False.
  - apply Forall_app in Hpre as [Hpre Hc]. rewrite Forall_singleton in Hc.
    rewrite prefixesAsc_snoc, rev_app_distr. cbn [rev app].
    rewrite fmap_cons. cbn [List.find].
    assert (Hall : Forall plainName (pc ++ pre ++ [c])).
    { rewrite !Forall_app, Forall_singleton. auto. }
    assert (Hnil : pc ++ pre ++ [c] ≠ []) by (by destruct pc, pre).
    set (dir := renderPath false (pc ++ pre ++ [c])).
    assert (Hdir : dir = joinSlash (pc ++ pre ++ [c])) by (by apply renderPath_plain).
    clearbody dir.
    destruct (joinSlash_plain_ne _ Hnil Hall) as [Hd1 Hd2].
    assert (Hgo : dir ≠ packageName /\ dir ≠ ".").
    { rewrite Hdir. split; [|done].
      destruct Hpkg as [[_ ->]|[Hne ->]]; [done|].
      intros Heq. apply joinSlash_inj in Heq; auto using plain_slashFree.
      apply (f_equal length) in Heq. rewrite !length_app in Heq. simpl in Heq. lia. }
    destruct (isPackage_valid env dir memo Hmemo) as (memo1 & Hip & Hmemo1).
    rewrite length_app in Hfuel. simpl in Hfuel.
    destruct fuel as [|fuel]; [lia|].
    cbn [ownerWalk]. rewrite decide_True by done. rewrite Hip.
    destruct (isPackageInternal env dir) eqn:Hpk.
    + exists memo1. done.
    + assert (Hd : path_Dir dir = renderPath false (pc ++ pre)).
      { rewrite Hdir, app_assoc. apply path_Dir_joinSlash_snoc; [|done].
        by apply Forall_app. }
      rewrite Hd. apply IH; [done | lia | done].
Qed.

End OwnerWalk.

Lemma cleanComps_render l :
  Forall plainName l -> cleanComps (renderPath false l) = l.
Proof.
  intros Hall. destruct (decide (l = [])) as [->|Hne]; [done|].
  rewrite renderPath_plain by done.
  rewrite cleanComps_noDotDot; rewrite splitSlash_joinSlash;
    auto using plain_slashFree, plain_notin, filter_plain.
Qed.

Lemma plain_filter_splitSlash s :
  ".." ∉ splitSlash s -> Forall plainName (filter nonTrivial (splitSlash s)).
Proof.
  intros Hdd. apply Forall_forall. intros c Hc.
  apply list_elem_of_filter in Hc as [[Hc1 Hc2] Hin].
  repeat split; [done | done | by intros -> |].
  pose proof (slashFree_splitSlash s) as Hs. rewrite Forall_forall in Hs. by apply Hs.
Qed.

Lemma join_components p src :
  wellFormedPackage p -> ".." ∉ splitSlash src -> isRooted src = false -> src ≠ "" ->
  let pc := cleanComps p in
  let sc := filter nonTrivial (splitSlash src) in
  Forall plainName pc /\ Forall plainName sc
  /\ ((pc = [] /\ p = "") \/ (pc ≠ [] /\ p = joinSlash pc))
  /\ isRooted p = false
  /\ path_Join p src = renderPath false (pc ++ sc)
  /\ cleanComps (path_Join p src) = pc ++ sc.
Proof.
  intros Hwf Hdd Hroot Hne pc sc.
  assert (Hsc : Forall plainName sc) by (by apply plain_filter_splitSlash).
  destruct Hwf as [->|Hwf].
  - assert (Hj : path_Join "" src = renderPath false sc).
    { unfold path_Join. rewrite decide_True by done. rewrite decide_False by done.
      unfold path_Clean. rewrite Hroot. by rewrite cleanComps_noDotDot. }
    split_and!; [done | done | by left | done | done |].
    rewrite Hj. by apply cleanComps_render.
  - assert (Hpne : p ≠ "").
    { intros ->. inversion Hwf as [|? ? Hx _]; subst. unfold plainName in Hx. naive_solver. }
    assert (Hpc : pc = splitSlash p).
    { subst pc. rewrite cleanComps_noDotDot by (by apply plain_notin).
      by apply filter_plain. }
    assert (Hp : p = joinSlash pc) by (by rewrite Hpc, joinSlash_splitSlash).
    assert (Hpcne : pc ≠ []) by (rewrite Hpc; apply splitSlash_nonempty).
    assert (Hall : Forall plainName pc) by (by rewrite Hpc).
    assert (Hpr : isRooted p = false) by (rewrite Hp; by apply isRooted_joinSlash).
    assert (Hj : path_Join p src = renderPath false (pc ++ sc)).
    { unfold path_Join. rewrite !decide_False by done.
      change (p +:+ "/" +:+ src) with (p +:+ String "/" src).
      unfold path_Clean. rewrite isRooted_app, Hpr by done.
      rewrite cleanComps_noDotDot; rewrite splitSlash_app_slash.
      - rewrite filter_app. fold sc. rewrite <- Hpc. by rewrite (filter_plain pc).
      - rewrite <- Hpc. intros Hin. apply elem_of_app in Hin as [Hin|Hin]; [|done].
        by apply plain_notin in Hin. }
    split_and!; [done | done | by right | done | done |].
    rewrite Hj. apply cleanComps_render. by apply Forall_app.
Qed.

Section ParseSourceClassification.
Context `{Core}.


End ParseSourceClassification.

Lemma memoValid_empty env : memoValid env ∅.
Proof. apply map_Forall_empty. Qed.



(** ** GetLabels *)

(** Induction on a target with the property at hand for its resolved
    dependencies. *)
Lemma BuildTarget_deps_ind (P : BuildTarget -> Prop) :
  (forall t, Forall P (Dependencies t) -> P t) -> forall t, P t.
Proof.
  intros IH. fix rec 1. intros t. apply IH.
  destruct t as [? ? ? ? ? ? ? ? ? ? ? ? ? ? ? ? ? ? ? ? ? ? deps ? ? ? ?]. simpl.
  revert deps. fix go 1. intros [|d deps].
  - constructor.
  - constructor; [apply rec | apply go].
Qed.

Lemma foldl_labels prefix (ls : list string) (acc : gset string) x :
  x ∈ foldl (fun labels label =>
               if HasPrefix label prefix
               then {[ TrimSpace (TrimPrefix label prefix) ]} ∪ labels
               else labels) acc ls
  <-> x ∈ acc \/ exists label, label ∈ ls /\ HasPrefix label prefix = true
                               /\ x = labelSuffix prefix label.
Proof.
  revert acc. induction ls as [|l ls IH]; intros acc; simpl.
  - set_solver.
  - rewrite IH. unfold labelSuffix. destruct (HasPrefix l prefix) eqn:Hp.
    + set_solver.
    + split; [set_solver|]. intros [?|(label & Hin & Hpre & ->)]; [by left|].
      apply elem_of_cons in Hin as [->|Hin]; [congruence|]. right. eauto.
Qed.

Lemma getLabels_unfold prefix target labels :
  getLabels prefix target labels
  = foldl (fun labels dep => getLabels prefix dep labels)
      (foldl (fun labels label =>
                if HasPrefix label prefix
                then {[ TrimSpace (TrimPrefix label prefix) ]} ∪ labels
                else labels) labels (Labels target))
      (Dependencies target).
Proof. by destruct target. Qed.

Lemma elem_of_getLabels prefix target :
  forall labels x,
    x ∈ getLabels prefix target labels <-> x ∈ labels \/ collected prefix target x.
Proof.
  induction target as [target IH] using BuildTarget_deps_ind. intros labels x.
  rewrite getLabels_unfold.
  assert (Hdeps : forall deps acc,
             Forall (fun d => forall labels x,
                       x ∈ getLabels prefix d labels
                       <-> x ∈ labels \/ collected prefix d x) deps ->
             x ∈ foldl (fun labels dep => getLabels prefix dep labels) acc deps
             <-> x ∈ acc \/ exists d, d ∈ deps /\ collected prefix d x).
  { clear. induction deps as [|d deps IHd]; intros acc Hall; simpl.
    - set_solver.
    - inversion Hall as [|? ? Hd Hds]; subst. rewrite (IHd _ Hds), Hd. set_solver. }
  rewrite (Hdeps _ _ IH), foldl_labels. unfold collected. split.
  - intros [[Hx|(label & Hin & Hp & ->)]|(d & Hd & t & label & Hr & Hin & Hp & ->)].
    + by left.
    + right. exists target, label. eauto using reaches_self.
    + right. exists t, label. eauto using reaches_dep.
  - intros [Hx|(t & label & Hr & Hin & Hp & ->)]; [by left; left|].
    inversion Hr as [|? d ? Hd Hr']; subst.
    + left. right. eauto.
    + right. exists d. split; [done|]. exists t, label. eauto.
Qed.

(** C6 (as amended): for a target of the package in state Building,
    GetLabels returns a sequence that is sorted, has no duplicates, and
    holds exactly the strings obtained from the labels with the given
    prefix, on the target and on all its transitive dependencies, by
    stripping the prefix and then trimming the white space at both ends.
    In any other state, and for an unknown target, the call fails. *)
Theorem GetLabels_sorted_suffixes (pkg : Package) (cTarget cPrefix : string) :
  (forall target, Targets pkg !! cTarget = Some target -> state target = Building ->
   exists ret, GetLabels pkg cTarget cPrefix = Ok ret
               /\ Sorted String.le ret /\ NoDup ret
               /\ forall x, x ∈ ret <-> collected cPrefix target x)
  /\ (forall target, Targets pkg !! cTarget = Some target -> state target ≠ Building ->
      exists e, GetLabels pkg cTarget cPrefix = Panic e)
  /\ (Targets pkg !! cTarget = None -> GetLabels pkg cTarget cPrefix = Panic UnknownTarget).
Proof.
  unfold GetLabels, getTargetPost. split; [|split].
  - intros target -> Hs. rewrite Hs. simpl.
    rewrite decide_False by (by intros ?).
    eexists. split; [done|]. split; [|split].
    + apply Sorted_merge_sort. apply _.
    + rewrite merge_sort_Permutation. apply NoDup_elements.
    + intros x. rewrite merge_sort_Permutation, elem_of_elements, elem_of_getLabels.
      set_solver.
  - intros target -> Hs. case_decide; simpl; [eauto|].
    rewrite decide_True by done. eauto.
  - intros ->. done.
Qed.

Lemma GetLabels_sorted_suffixes_witness :
  exists ret, GetLabels labelledPackage "t" "cc:ld:" = Ok ret
              /\ Sorted String.le ret /\ NoDup ret
              /\ forall x, x ∈ ret <-> collected "cc:ld:" labelledTarget x.
Proof.
  apply (proj1 (GetLabels_sorted_suffixes labelledPackage "t" "cc:ld:") labelledTarget).
  - reflexivity.
  - reflexivity.
Defined.

(** C6 fails as stated: the label [cc:ld: -lfoo] has the prefix [cc:ld:];
    with the prefix stripped it is [ -lfoo], with a space in front, but
    GetLabels returns [-lfoo]. *)
Lemma GetLabels_suffix_counterexample :
  Targets labelledPackage !! "t" ≠ None
  /\ HasPrefix "cc:ld: -lfoo" "cc:ld:" = true
  /\ TrimPrefix "cc:ld: -lfoo" "cc:ld:" = " -lfoo"
  /\ GetLabels labelledPackage "t" "cc:ld:" = Ok ["-lfoo"]
  /\ " -lfoo" ∉ ["-lfoo"].
Proof.
  split_and!; try reflexivity.
  - discriminate.
  - intros Hin. inversion Hin as [|? ? ? Hin']; subst. inversion Hin'.
Qed.

(** ** Glob *)

Lemma FsNode_entries_ind (P : FsNode -> Prop) :
  P RegularFile ->
  (forall entries, Forall (fun e => P e.2) entries -> P (Directory entries)) ->
  forall n, P n.
Proof.
  intros Hf Hd. fix rec 1. intros [|entries]; [exact Hf|].
  apply Hd. revert entries. fix go 1. intros [|[k child] entries].
  - constructor.
  - constructor; [apply rec | apply go].
Qed.

Lemma insertEntry_fmap {A B} (f : string -> A -> B) (x : string * A)
    (l : list (string * A)) :
  insertEntry (x.1, f x.1 x.2) ((fun e => (e.1, f e.1 e.2)) <$> l)
  = (fun e => (e.1, f e.1 e.2)) <$> insertEntry x l.
Proof.
  induction l as [|y l IH]; [done|]. cbn [insertEntry fmap list_fmap fst].
  destruct (String.leb x.1 y.1); [done|]. cbn [fmap list_fmap]. by rewrite <- IH.
Qed.

Lemma sortEntries_fmap {A B} (f : string -> A -> B) (l : list (string * A)) :
  sortEntries ((fun e => (e.1, f e.1 e.2)) <$> l)
  = (fun e => (e.1, f e.1 e.2)) <$> sortEntries l.
Proof.
  induction l as [|x l IH]; [done|]. cbn [sortEntries foldr fmap list_fmap].
  fold (sortEntries ((fun e => (e.1, f e.1 e.2)) <$> l)). fold (sortEntries l).
  rewrite IH. apply insertEntry_fmap.
Qed.

Lemma insertEntry_Permutation {A} (x : string * A) (l : list (string * A)) :
  insertEntry x l ≡ₚ x :: l.
Proof.
  induction l as [|y l IH]; [done|]. cbn [insertEntry].
  destruct (String.leb x.1 y.1); [done|]. rewrite IH. apply Permutation_swap.
Qed.

Lemma sortEntries_Permutation {A} (l : list (string * A)) : sortEntries l ≡ₚ l.
Proof.
  induction l as [|x l IH]; [done|]. cbn [sortEntries foldr]. fold (sortEntries l).
  by rewrite insertEntry_Permutation, IH.
Qed.

(** The order of the walk is the order of the names. *)
Lemma sortEntries_Sorted {A} (l : list (string * A)) :
  Sorted (fun a b => String.le a.1 b.1) (sortEntries l).
Proof.
  induction l as [|x l IH]; [constructor|]. cbn [sortEntries foldr]. fold (sortEntries l).
  induction IH as [|y l' Hs IH' Hhd]; [by repeat constructor|].
  cbn [insertEntry]. destruct (String.leb x.1 y.1) eqn:Hle.
  - constructor; [by constructor|]. constructor. unfold String.le. by rewrite Hle.
  - assert (Hyx : String.le y.1 x.1).
    { destruct (total String.le x.1 y.1) as [Hxy|?]; [|done].
      unfold String.le in Hxy. by rewrite Hle in Hxy. }
    constructor; [done|]. destruct l' as [|z l']; [by constructor|].
    cbn [insertEntry]. destruct (String.leb x.1 z.1); constructor; [done|].
    by inversion Hhd.
Qed.

Lemma elem_of_sortEntries {A} (e : string * A) (l : list (string * A)) :
  e ∈ sortEntries l <-> e ∈ l.
Proof. by rewrite sortEntries_Permutation. Qed.

(** The walk of a directory, with the entries in the order of the walk. *)
Lemma walkNode_Directory {A} (fn : string -> bool -> A -> WalkAction * A)
    (name : string) (entries : list (string * FsNode)) (acc : A) :
  walkNode fn name (Directory entries) acc
  = match fn name true acc with
    | (WalkSkipDir, acc') => acc'
    | (WalkContinue, acc') =>
        foldl (fun acc e => walkNode fn (path_Join name e.1) e.2 acc) acc'
          (sortEntries entries)
    end.
Proof.
  cbn [walkNode]. destruct (fn name true acc) as [[] acc']; [|done].
  set (visits := fix children (es : list (string * FsNode)) : list (string * (A -> A)) :=
                   match es with
                   | [] => []
                   | (k, child) :: es' =>
                       (k, walkNode fn (path_Join name k) child) :: children es'
                   end).
  assert (Hv : forall es,
             visits es = (fun e => (e.1, walkNode fn (path_Join name e.1) e.2)) <$> es).
  { induction es as [|[k child] es IHes]; [done|]. cbn [visits]. fold visits.
    by rewrite IHes. }
  rewrite Hv, (sortEntries_fmap (fun k child => walkNode fn (path_Join name k) child)).
  generalize (sortEntries entries) acc'. clear.
  induction l as [|e l IH]; intros acc; [done|]. cbn [fmap list_fmap foldl]. apply IH.
Qed.

Section GlobProperties.
Context `{GoLib}.

Lemma walkNode_glob env root rootNode regex n :
  forall name matches memo,
    entered env root rootNode name n -> memoValid env memo ->
    exists new memo',
      walkNode (globWalkFn env root regex) name n (matches, memo)
      = (matches ++ new, memo')
      /\ memoValid env memo'
      /\ Forall (fun m => entered env root rootNode m RegularFile) new.
Proof.
  induction n as [|entries IH] using FsNode_entries_ind; intros name matches memo He Hm.
  - cbn [walkNode]. unfold globWalkFn. cbn [andb negb].
    destruct (regex name).
    + exists [name], memo. split; [done|]. split; [done|]. by constructor.
    + exists [], memo. rewrite app_nil_r. by repeat split.
  - rewrite walkNode_Directory.
    assert (Hchildren : forall es matches memo,
               es ⊆ entries -> memoValid env memo ->
               (name = root \/ isPackageInternal env name = false) ->
               exists new memo',
                 foldl (fun acc e =>
                          walkNode (globWalkFn env root regex) (path_Join name e.1) e.2 acc)
                   (matches, memo) es = (matches ++ new, memo')
                 /\ memoValid env memo'
                 /\ Forall (fun m => entered env root rootNode m RegularFile) new).
    { intros es. induction es as [|[k child] es IHes]; intros ms mm Hsub Hmm Hopen.
      - exists [], mm. rewrite app_nil_r. by repeat split.
      - apply list_subseteq_cons_iff in Hsub as [Hin Hsub].
        rewrite Forall_forall in IH. pose proof (IH _ Hin) as IHc. cbn [snd] in IHc.
        cbn [foldl fst snd].
        destruct (IHc (path_Join name k) ms mm) as (new1 & m1 & -> & Hm1 & Hn1);
          [by eapply entered_entry | done |].
        destruct (IHes (ms ++ new1) m1) as (new2 & m2 & -> & Hm2 & Hn2);
          [done | done | done |].
        exists (new1 ++ new2), m2. rewrite app_assoc. split; [done|].
        split; [done|]. by apply Forall_app. }
    assert (Hsorted : sortEntries entries ⊆ entries).
    { intros e. by rewrite elem_of_sortEntries. }
    unfold globWalkFn at 1. cbn [andb negb].
    destruct (String.eqb_spec name root) as [Heq|Hne]; cbn [negb].
    + by apply Hchildren; [| |left].
    + destruct (isPackage_valid env name memo Hm) as (memo1 & -> & Hm1).
      destruct (isPackageInternal env name) eqn:Hp.
      * exists [], memo1. rewrite app_nil_r. by repeat split.
      * by apply Hchildren; [| |right].
Qed.

(** The branch of [glob] for patterns with [**] stops at package
    boundaries: every match is a regular file that the walk entered, so all
    directories on the way from the root of the walk down to it, the root
    apart, are not packages. *)
Lemma glob_doublestar_prunes env memo rootPath pattern matches memo' :
  Contains pattern "**" = true -> memoValid env memo ->
  glob env memo rootPath pattern = (Ok matches, memo') ->
  exists rootNode,
    Lstat (fsRoot env) rootPath = Some rootNode
    /\ Forall (fun m => entered env rootPath rootNode m RegularFile) matches.
Proof.
  intros Hc Hm. unfold glob. rewrite Hc. cbn [negb].
  destruct (regexpCompile _) as [regex|]; [|done].
  destruct (Lstat (fsRoot env) rootPath) as [n|] eqn:Hl; [|done].
  destruct (walkNode_glob env rootPath n regex n rootPath [] memo)
    as (new & memo1 & -> & _ & Hnew); [constructor | done |].
  intros [= <- <-]. eauto.
Qed.

End GlobProperties.

(** C7, the failing input: [p/sub] is a package below [p], and Glob in
    package [p] with the include pattern [sub/inner.go], which has no [**],
    returns the file [sub/inner.go] of that package, whatever the pattern
    matcher and the regular expressions of the library do. *)
Theorem Glob_returns_file_of_subpackage `{GoLib} :
  isPackageInternal globEnv "p/sub" = true
  /\ Contains "sub/inner.go" "**" = false
  /\ (Glob globEnv ∅ "p" ["sub/inner.go"] [] false).1 = Ok ["sub/inner.go"].
Proof. split_and!; reflexivity. Qed.

(** ** The directory cache: file modes *)











Section DirCacheModes.
Context `{CacheCore}.










End DirCacheModes.



(** ** The directory cache: the round trip *)

Lemma elem_of_prefixes (q p : Path) : q ∈ prefixes p <-> q `prefix_of` p.
Proof.
  unfold prefixes. rewrite list_elem_of_fmap. split.
  - intros (n & -> & _). apply prefix_take.
  - intros [k ->]. exists (length q). split.
    + by rewrite take_app_length.
    + apply elem_of_seq. rewrite length_app. lia.
Qed.

Lemma MkdirAll_spec p fs :
  (forall q, q `prefix_of` p -> isFile (fs q) = false) ->
  MkdirAll p fs = Some (fun q => if decide (q `prefix_of` p) then Some CDir else fs q).
Proof.
  intros Hp. unfold MkdirAll.
  destruct (existsb _ _) eqn:He; [|done].
  apply existsb_exists in He as (q & Hin & Hf).
  apply list_elem_of_In, elem_of_prefixes in Hin. by rewrite Hp in Hf.
Qed.

Lemma strictPrefix_removelast (q p : Path) :
  strictPrefix q p <-> p ≠ [] /\ q `prefix_of` removelast p.
Proof.
  split.
  - intros [[k ->] Hne]. destruct k as [|c k] using rev_ind.
    { by rewrite app_nil_r in Hne. }
    split; [by destruct q|]. rewrite app_assoc, removelast_last. by apply prefix_app_r.
  - intros [Hne Hq]. destruct (exists_last Hne) as (p' & c & ->).
    rewrite removelast_last in Hq. split; [by apply prefix_app_r|].
    intros ->. by apply prefix_snoc_not in Hq.
Qed.

Lemma removelast_app_ne (p out : Path) :
  out ≠ [] -> removelast (p ++ out) = p ++ removelast out.
Proof. intros Hne. by apply removelast_app. Qed.

Lemma prefix_antisym (p q : Path) : p `prefix_of` q -> q `prefix_of` p -> p = q.
Proof. intros H1 H2. by apply (anti_symm prefix). Qed.

Lemma incomparable_app (C O a b : Path) :
  incomparable C O -> ¬ (C ++ a) `prefix_of` (O ++ b) /\ ¬ (O ++ b) `prefix_of` (C ++ a).
Proof.
  intros [H1 H2]. split; intros Hp.
  - assert (HC : C `prefix_of` O ++ b) by (by eapply prefix_app_l).
    destruct (prefix_weak_total C O (O ++ b)) as [?|?]; [done | by apply prefix_app_r | done..].
  - assert (HO : O `prefix_of` C ++ a) by (by eapply prefix_app_l).
    destruct (prefix_weak_total C O (C ++ a)) as [?|?]; [by apply prefix_app_r | done..].
Qed.

Lemma prefix_app_same (D a b : Path) : D ++ a `prefix_of` D ++ b <-> a `prefix_of` b.
Proof. split; [apply prefix_app_inv | apply prefix_app]. Qed.

(** A prefix of [D ++ a] is a prefix of [D] or extends [D] by a prefix of
    [a]. *)
Lemma prefix_app_cases (q D a : Path) :
  q `prefix_of` D ++ a ->
  q `prefix_of` D \/ exists a', q = D ++ a' /\ a' `prefix_of` a.
Proof.
  intros Hq. destruct (prefix_weak_total q D (D ++ a)) as [?|[k ->]];
    [done | by apply prefix_app_r | by left |].
  right. exists k. split; [done|]. by apply prefix_app_inv in Hq.
Qed.

Lemma fsWf_ancestor fs p q :
  fsWf fs -> q ≠ [] -> is_Some (fs (p ++ q)) -> fs p = Some CDir.
Proof.
  intros Hwf. induction q as [|c q IH] using rev_ind; [done|]. intros _ Hs.
  rewrite app_assoc in Hs. apply Hwf in Hs.
  destruct (decide (q = [])) as [->|Hne]; [by rewrite app_nil_r in Hs|].
  apply IH; [done|]. by rewrite Hs.
Qed.

Lemma RecursiveCopyFile_spec from to mode link fs :
  is_Some (fs from) -> to ≠ [] ->
  (forall q, strictPrefix q to -> fs q = Some CDir) ->
  (forall q, to `prefix_of` q -> fs q = None) ->
  (isFile (fs from) = true -> forall r, r ≠ [] -> fs (from ++ r) = None) ->
  exists fs',
    RecursiveCopyFile from to mode link fs = Some fs'
    /\ forall q, fs' q = if decide (to `prefix_of` q)
                         then placed mode link <$> fs (from ++ drop (length to) q)
                         else fs q.
Proof.
  intros [n Hn] Hto Hanc Hfree Hleaf. unfold RecursiveCopyFile. rewrite Hn.
  assert (Hparent : fs (removelast to) = Some CDir).
  { apply Hanc, strictPrefix_removelast. done. }
  destruct n as [m content|].
  - rewrite Hparent, (Hfree to) by done. eexists. split; [done|].
    intros q. unfold writeNode. destruct (decide (q = to)) as [->|Hne].
    + rewrite decide_True by done. by rewrite drop_all, app_nil_r, Hn.
    + case_decide as Hp; [|done]. rewrite (Hfree q Hp).
      destruct Hp as [k ->]. rewrite drop_app_length.
      rewrite Hleaf; [done | by rewrite Hn |]. intros ->. by rewrite app_nil_r in Hne.
  - rewrite MkdirAll_spec.
    2:{ intros q Hq. destruct (decide (q = to)) as [->|Hne];
          [by rewrite Hfree | by rewrite Hanc]. }
    eexists. split; [done|]. intros q. cbv beta.
    destruct (decide (to `prefix_of` q)) as [Hp|Hp].
    + destruct (fs (from ++ drop (length to) q)) as [n|] eqn:Hsrc; [done|].
      simpl. destruct (decide (q `prefix_of` to)) as [Hq|Hq]; [|by apply Hfree].
      assert (q = to) as -> by (by apply prefix_antisym).
      by rewrite drop_all, app_nil_r, Hn in Hsrc.
    + destruct (decide (q `prefix_of` to)) as [Hq|Hq]; [|done].
      symmetry. apply Hanc. split; [done|]. by intros ->.
Qed.

Lemma app_prefix_not (D out : Path) : out ≠ [] -> ¬ D ++ out `prefix_of` D.
Proof.
  intros Hne Hp. apply prefix_length in Hp. rewrite length_app in Hp.
  destruct out; [done | simpl in Hp; lia].
Qed.

Lemma prefix_strict_not (p q : Path) : strictPrefix q p -> ¬ p `prefix_of` q.
Proof. intros [Hq Hne] Hp. apply Hne. by apply prefix_antisym. Qed.

Section DirCacheTransfer.
Context `{CacheCore}.
Context (cache : dirCache) (target : BuildTarget) (key : string).

Let C := getPath cache target key.
Let O := outDirOf target.
Let mode := fileMode target.

Lemma StoreExtra_transfer out fs :
  out ≠ [] -> incomparable C O ->
  is_Some (fs (O ++ out)) ->
  (isFile (fs (O ++ out)) = true -> forall r, r ≠ [] -> fs (O ++ out ++ r) = None) ->
  (forall q, strictPrefix q (C ++ out) -> isFile (fs q) = false) ->
  forall q, StoreExtra cache target key out fs q = transfer mode false O C out fs q.
Proof.
  intros Hout Hinc Hsrc Hleaf Hanc.
  unfold StoreExtra. fold C O mode. set (d := removelast out).
  assert (Hd : forall q, q `prefix_of` C ++ d -> strictPrefix q (C ++ out)).
  { intros q Hq. apply strictPrefix_removelast. rewrite removelast_app_ne by done.
    split; [by destruct C, out | done]. }
  (* the state after the first MkdirAll *)
  assert (Hmade : exists fs1,
             (if decide (d ≠ []) then MkdirAll (C ++ d) fs else Some fs) = Some fs1
             /\ (forall q, q `prefix_of` C ++ d -> q `prefix_of` C \/ fs1 q = Some CDir)
             /\ (forall q, ¬ q `prefix_of` C ++ d -> fs1 q = fs q)
             /\ (forall q, q `prefix_of` C -> isFile (fs1 q) = false)).
  { destruct (decide (d ≠ [])) as [Hne|He].
    - rewrite MkdirAll_spec by (intros q Hq; by apply Hanc, Hd).
      eexists. split; [done|]. split_and!; intros q Hq.
      + right. by rewrite decide_True.
      + by rewrite decide_False.
      + rewrite decide_True; [done|]. by apply prefix_app_r.
    - apply dec_stable in He. exists fs. split; [done|]. split_and!; intros q Hq.
      + left. by rewrite He, app_nil_r in Hq.
      + done.
      + apply Hanc, Hd. by apply prefix_app_r. }
  destruct Hmade as (fs1 & -> & H1 & H2 & H3).
  set (fs2 := RemoveAll (C ++ out) fs1).
  assert (Hkeep : forall q, ¬ C ++ out `prefix_of` q -> fs2 q = fs1 q).
  { intros q Hq. unfold fs2, RemoveAll. by rewrite decide_False. }
  rewrite MkdirAll_spec.
  2:{ intros q Hq. rewrite Hkeep; [by apply H3|].
      intros Hp. apply (app_prefix_not C out Hout). by etrans. }
  set (fs3 := fun q : Path => if decide (q `prefix_of` C) then Some CDir else fs2 q).
  assert (Hsource : forall x, fs3 (O ++ x) = fs (O ++ x)).
  { intros x. unfold fs3.
    pose proof (incomparable_app C O [] x Hinc) as [_ Hn1]. rewrite app_nil_r in Hn1.
    rewrite decide_False by done.
    rewrite Hkeep by apply (incomparable_app C O out x Hinc).
    apply H2. apply (incomparable_app C O d x Hinc). }
  destruct (RecursiveCopyFile_spec (O ++ out) (C ++ out) mode false fs3)
    as (fs4 & -> & Hfs4).
  - by rewrite Hsource.
  - by destruct C, out.
  - intros q Hq. unfold fs3. case_decide as Hc; [done|].
    rewrite Hkeep by (by apply prefix_strict_not).
    apply strictPrefix_removelast in Hq as [_ Hq].
    rewrite removelast_app_ne in Hq by done.
    by destruct (H1 q Hq).
  - intros q Hq. unfold fs3. rewrite decide_False.
    + unfold fs2, RemoveAll. by rewrite decide_True.
    + intros Hp. apply (app_prefix_not C out Hout). by etrans.
  - rewrite Hsource. intros Hf r Hr. rewrite <- app_assoc, Hsource. by apply Hleaf.
  - intros q. rewrite Hfs4. unfold transfer.
    destruct (decide (C ++ out `prefix_of` q)) as [[r ->]|Hn].
    + rewrite drop_app_length, <- !app_assoc, drop_app_length.
      by rewrite Hsource.
    + unfold fs3. destruct (decide (q `prefix_of` C)) as [Hc|Hc].
      * rewrite decide_True; [done|]. by apply prefix_app_r.
      * rewrite Hkeep by done. fold d.
        destruct (decide (q `prefix_of` C ++ d)) as [Hqd|Hqd]; [|by apply H2].
        by destruct (H1 q Hqd).
Qed.

Lemma RetrieveExtra_missing out fs :
  fs (C ++ out) = None -> RetrieveExtra cache target key out fs = (fs, false).
Proof.
  intros Hn. unfold RetrieveExtra. fold C. unfold PathExists.
  rewrite bool_decide_eq_false_2; [done|]. rewrite Hn. by intros [? ?].
Qed.

Lemma RetrieveExtra_transfer out fs :
  out ≠ [] -> incomparable C O ->
  is_Some (fs (C ++ out)) ->
  (isFile (fs (C ++ out)) = true -> forall r, r ≠ [] -> fs (C ++ out ++ r) = None) ->
  (forall q, strictPrefix q (O ++ out) -> isFile (fs q) = false) ->
  exists fs',
    RetrieveExtra cache target key out fs = (fs', true)
    /\ forall q, fs' q = transfer mode true C O out fs q.
Proof.
  intros Hout Hinc Hsrc Hleaf Hanc.
  unfold RetrieveExtra. fold C O mode. unfold PathExists.
  rewrite bool_decide_eq_true_2 by done. cbn [negb].
  rewrite removelast_app_ne by done. set (d := removelast out).
  assert (Hd : forall q, q `prefix_of` O ++ d -> strictPrefix q (O ++ out)).
  { intros q Hq. apply strictPrefix_removelast. rewrite removelast_app_ne by done.
    split; [by destruct O, out | done]. }
  rewrite MkdirAll_spec by (intros q Hq; by apply Hanc, Hd).
  set (fs1 := fun q : Path => if decide (q `prefix_of` O ++ d) then Some CDir else fs q).
  set (fs2 := RemoveAll (O ++ out) fs1).
  assert (Hkeep : forall q, ¬ O ++ out `prefix_of` q -> fs2 q = fs1 q).
  { intros q Hq. unfold fs2, RemoveAll. by rewrite decide_False. }
  assert (Hsource : forall x, fs2 (C ++ x) = fs (C ++ x)).
  { intros x. rewrite Hkeep by apply (incomparable_app C O x out Hinc).
    unfold fs1. rewrite decide_False; [done|]. apply (incomparable_app C O x d Hinc). }
  destruct (RecursiveCopyFile_spec (C ++ out) (O ++ out) mode true fs2)
    as (fs3 & -> & Hfs3).
  - by rewrite Hsource.
  - by destruct O, out.
  - intros q Hq. rewrite Hkeep by (by apply prefix_strict_not).
    unfold fs1. rewrite decide_True; [done|].
    apply strictPrefix_removelast in Hq as [_ Hq].
    by rewrite removelast_app_ne in Hq.
  - intros q Hq. unfold fs2, RemoveAll. by rewrite decide_True.
  - rewrite Hsource. intros Hf r Hr. rewrite <- app_assoc, Hsource. by apply Hleaf.
  - eexists. split; [done|]. intros q. rewrite Hfs3. unfold transfer.
    destruct (decide (O ++ out `prefix_of` q)) as [[r ->]|Hn].
    + rewrite drop_app_length, <- !app_assoc, drop_app_length.
      by rewrite Hsource.
    + rewrite Hkeep by done. done.
Qed.

End DirCacheTransfer.

Lemma chmod_idemp mode n : chmod mode (chmod mode n) = chmod mode n.
Proof. by destruct n. Qed.

Lemma refWf_chmod mode (f : Path -> option CNode) :
  refWf f -> refWf (fun q => chmod mode <$> f q).
Proof.
  intros Hf p r Hr Hs. cbv beta in *. rewrite (Hf p r Hr); [done|].
  by apply fmap_is_Some in Hs.
Qed.

Lemma refWf_placed mode link (f : Path -> option CNode) :
  refWf f -> refWf (fun q => placed mode link <$> f q).
Proof.
  intros Hf p r Hr Hs. cbv beta in *. rewrite (Hf p r Hr); [by destruct link|].
  by apply fmap_is_Some in Hs.
Qed.

Lemma fsWf_refWf fs O : fsWf fs -> refWf (fun q => fs (O ++ q)).
Proof.
  intros Hwf p r Hr Hs. cbv beta in *. rewrite app_assoc in Hs.
  by eapply fsWf_ancestor.
Qed.

Lemma restored_nil ref q : restored ref [] q = None.
Proof.
  unfold restored. rewrite decide_False by (by intros ?%Exists_nil).
  by rewrite decide_False by (by intros ?%Exists_nil).
Qed.

Lemma restored_covered ref outs out r :
  out ∈ outs -> restored ref outs (out ++ r) = ref (out ++ r).
Proof.
  intros Hin. unfold restored. rewrite decide_True; [done|].
  apply Exists_exists. exists out. split; [done|]. by apply prefix_app_r.
Qed.

Lemma restored_not_file ref done out q :
  refWf ref -> is_Some (ref out) -> strictPrefix q out ->
  isFile (restored ref done q) = false.
Proof.
  intros Hwf Hs [[r ->] Hne]. unfold restored.
  destruct (decide (Exists (fun o => o `prefix_of` q) done)) as [Hc|Hc].
  - rewrite (Hwf q r); [done | | done]. intros ->. by rewrite app_nil_r in Hne.
  - by destruct (decide (Exists (fun o => q `prefix_of` o) done)).
Qed.

Lemma restored_wf ref outs :
  refWf ref -> Forall (fun out => is_Some (ref out)) outs -> refWf (restored ref outs).
Proof.
  intros Hwf Hall p r Hr Hs. rewrite Forall_forall in Hall.
  assert (Habove : forall out, out ∈ outs -> p `prefix_of` out -> p ≠ out ->
                               ref p = Some CDir).
  { intros out Hin [k ->] Hne. apply (Hwf p k); [|by apply Hall].
    intros ->. by rewrite app_nil_r in Hne. }
  unfold restored in *.
  destruct (decide (Exists (fun out => out `prefix_of` p ++ r) outs)) as [Hc|Hc].
  - assert (Hp : ref p = Some CDir) by (by apply (Hwf p r)).
    case_decide; [done|]. rewrite decide_True; [done|].
    apply Exists_exists in Hc as (out & Hin & Hpre).
    apply Exists_exists. exists out. split; [done|].
    destruct (prefix_weak_total out p (p ++ r)) as [Ho|Ho];
      [done | by apply prefix_app_r | | done].
    exfalso. apply H. apply Exists_exists. eauto.
  - destruct (decide (Exists (fun out => p ++ r `prefix_of` out) outs)) as [Ha|Ha];
      [|by destruct Hs].
    apply Exists_exists in Ha as (out & Hin & Hpre).
    assert (Hpo : p `prefix_of` out) by (by eapply prefix_app_l).
    case_decide.
    + apply (Habove out); [done..|]. intros ->.
      apply prefix_length in Hpre. rewrite length_app in Hpre.
      destruct r; [done | simpl in Hpre; lia].
    + rewrite decide_True; [done|]. apply Exists_exists. eauto.
Qed.

Lemma restored_step ref done out f mode link S D q :
  refWf ref -> is_Some (ref out) ->
  f (D ++ q) = restored ref done q ->
  (forall r, placed mode link <$> f (S ++ out ++ r) = ref (out ++ r)) ->
  transfer mode link S D out f (D ++ q) = restored ref (done ++ [out]) q.
Proof.
  intros Hwf Hs Hq Hsrc. unfold transfer.
  destruct (decide (D ++ out `prefix_of` D ++ q)) as [Hp|Hp].
  - apply prefix_app_inv in Hp as [r ->]. rewrite drop_app_length, Hsrc.
    symmetry. apply restored_covered. set_solver.
  - rewrite prefix_app_same in Hp.
    assert (Hcov : Exists (fun o => o `prefix_of` q) (done ++ [out])
                   <-> Exists (fun o => o `prefix_of` q) done).
    { rewrite Exists_app, Exists_cons, Exists_nil. naive_solver. }
    destruct (decide (D ++ q `prefix_of` D ++ removelast out)) as [Hd|Hd].
    + rewrite prefix_app_same in Hd.
      assert (Hst : strictPrefix q out).
      { apply strictPrefix_removelast. split; [|done].
        intros ->. apply Hp. apply prefix_nil_inv in Hd. by subst. }
      unfold restored. case_decide.
      * destruct Hst as [[r ->] Hne]. rewrite (Hwf q r); [done | | done].
        intros ->. by rewrite app_nil_r in Hne.
      * rewrite decide_True; [done|]. rewrite Exists_app, Exists_cons. right. left.
        by destruct Hst.
    + rewrite prefix_app_same in Hd. rewrite Hq. unfold restored.
      assert (Hab : Exists (fun o => q `prefix_of` o) (done ++ [out])
                    <-> Exists (fun o => q `prefix_of` o) done).
      { rewrite Exists_app, Exists_cons, Exists_nil.
        split; [|naive_solver]. intros [?|[Hqo|[]]]; [done|].
        exfalso. destruct (decide (q = out)) as [->|Hne]; [by apply Hp|].
        apply Hd. by apply (strictPrefix_removelast q out). }
      destruct (decide (Exists (fun o => o `prefix_of` q) done)) as [Hc|Hc].
      * rewrite decide_True by (by apply Hcov). done.
      * rewrite (decide_False (P := Exists _ (done ++ [out]))) by (by rewrite Hcov).
        destruct (decide (Exists (fun o => q `prefix_of` o) done)) as [Ha|Ha].
        -- rewrite decide_True by (by apply Hab). done.
        -- rewrite decide_False by (by rewrite Hab). done.
Qed.

Section DirCacheRoundTrip.
Context `{CacheCore}.
Context (cache : dirCache) (target : BuildTarget) (key : string).

Let C := getPath cache target key.
Let O := outDirOf target.
Let mode := fileMode target.

Hypothesis Hinc : incomparable C O.

(** *** Storing *)

Section StoreLoop.
Context (fs : FileSystem).
Hypothesis Hwf : fsWf fs.
Hypothesis Hclear : forall q, strictPrefix q C -> isFile (fs q) = false.

Let refO : Path -> option CNode := fun q => chmod mode <$> fs (O ++ q).

Lemma refO_wf : refWf refO.
Proof. by apply refWf_chmod, fsWf_refWf. Qed.

Lemma store_loop todo :
  Forall (fun out => out ≠ [] /\ is_Some (fs (O ++ out))) todo ->
  forall done f,
    (forall q, f (C ++ q) = restored refO done q) ->
    (forall x, f (O ++ x) = fs (O ++ x)) ->
    (forall q, ¬ C `prefix_of` q -> f q = fs q \/ f q = Some CDir) ->
    let f' := foldl (fun fs out => StoreExtra cache target key out fs) f todo in
    (forall q, f' (C ++ q) = restored refO (done ++ todo) q)
    /\ (forall x, f' (O ++ x) = fs (O ++ x))
    /\ (forall q, ¬ C `prefix_of` q -> f' q = fs q \/ f' q = Some CDir).
Proof.
  induction 1 as [|out todo [Hout Hex] _ IH]; intros done f HA HS1 HS3.
  { simpl. by rewrite app_nil_r. }
  cbn [foldl].
  assert (Href : is_Some (refO out)) by (unfold refO; by apply fmap_is_Some).
  assert (Htr : forall q, StoreExtra cache target key out f q
                          = transfer mode false O C out f q).
  { apply StoreExtra_transfer; [done | done | by rewrite HS1 | |].
    - rewrite HS1. intros Hf r Hr. rewrite HS1, app_assoc.
      destruct (fs ((O ++ out) ++ r)) eqn:Hs; [|done].
      rewrite (fsWf_ancestor fs (O ++ out) r) in Hf; [done.. |]. by rewrite Hs.
    - intros q Hq. apply strictPrefix_removelast in Hq as [_ Hq].
      rewrite removelast_app_ne in Hq by done.
      apply prefix_app_cases in Hq as [Hq|(d' & -> & Hd')].
      + destruct (decide (q = C)) as [->|Hne].
        * rewrite <- (app_nil_r C), HA.
          apply (restored_not_file refO done out []); [apply refO_wf | done |].
          split; [apply prefix_nil | done].
        * destruct (HS3 q) as [->| ->]; [|by apply Hclear|done].
          intros Hc. apply Hne. by apply prefix_antisym.
      + rewrite HA. apply (restored_not_file refO done out d'); [apply refO_wf | done |].
        by apply strictPrefix_removelast. }
  replace (done ++ out :: todo) with ((done ++ [out]) ++ todo) by (by rewrite <- app_assoc).
  apply IH.
  - intros q. rewrite Htr. apply restored_step; [apply refO_wf | done | done |].
    intros r. by rewrite HS1.
  - intros x. rewrite Htr. unfold transfer.
    rewrite decide_False by apply (incomparable_app C O out x Hinc).
    rewrite decide_False by apply (incomparable_app C O (removelast out) x Hinc).
    done.
  - intros q Hq. rewrite Htr. unfold transfer.
    rewrite decide_False by (intros Hp; apply Hq; by eapply prefix_app_l).
    case_decide; [by right | by apply HS3].
Qed.

Lemma Store_spec :
  Forall (fun out => out ≠ [] /\ is_Some (fs (O ++ out))) (cacheArtifacts target) ->
  (forall q, Store cache target key fs (C ++ q) = restored refO (cacheArtifacts target) q)
  /\ (forall x, Store cache target key fs (O ++ x) = fs (O ++ x))
  /\ (forall q, ¬ C `prefix_of` q ->
      Store cache target key fs q = fs q \/ Store cache target key fs q = Some CDir).
Proof.
  intros Hall. unfold Store. fold C.
  apply (store_loop _ Hall []).
  - intros q. rewrite restored_nil. unfold RemoveAll.
    rewrite decide_True; [done|]. by apply prefix_app_r.
  - intros x. unfold RemoveAll. rewrite decide_False; [done|].
    pose proof (incomparable_app C O [] x Hinc) as [Hn _]. by rewrite app_nil_r in Hn.
  - intros q Hq. left. unfold RemoveAll. by rewrite decide_False.
Qed.

End StoreLoop.

(** *** Retrieving *)

Section RetrieveLoop.
Context (fs : FileSystem).
Hypothesis HwfC : refWf (fun q => fs (C ++ q)).

Let refC : Path -> option CNode := fun q => placed mode true <$> fs (C ++ q).

Lemma refC_wf : refWf refC.
Proof. by apply refWf_placed. Qed.

Lemma retrieve_loop todo :
  Forall (fun out => out ≠ []) todo ->
  forall done g,
    (forall q, q ≠ [] -> g (O ++ q) = restored refC done q) ->
    (forall x, g (C ++ x) = fs (C ++ x)) ->
    (forall q, q `prefix_of` O -> isFile (g q) = false) ->
    (Forall (fun out => is_Some (fs (C ++ out))) todo ->
     exists g', retrieveAll cache target key todo g = (g', true)
                /\ (forall q, q ≠ [] -> g' (O ++ q) = restored refC (done ++ todo) q)
                /\ (todo ≠ [] -> g' O = Some CDir))
    /\ (¬ Forall (fun out => is_Some (fs (C ++ out))) todo ->
        (retrieveAll cache target key todo g).2 = false).
Proof.
  induction 1 as [|out todo Hout _ IH]; intros done g HJ1 HJ2 HJ3.
  { split; [|by intros []]. intros _. exists g. rewrite app_nil_r. by split_and!. }
  cbn [retrieveAll].
  destruct (decide (is_Some (fs (C ++ out)))) as [Hex|Hex].
  2:{ split; [intros Hall; by inversion Hall|]. intros _.
      rewrite RetrieveExtra_missing; [done|]. rewrite HJ2.
      destruct (fs (C ++ out)); [|done]. exfalso. by apply Hex. }
  assert (Href : is_Some (refC out)) by (unfold refC; by apply fmap_is_Some).
  destruct (RetrieveExtra_transfer cache target key out g) as (g1 & -> & Htr).
  - done.
  - done.
  - by rewrite HJ2.
  - rewrite HJ2. intros Hf r Hr. rewrite HJ2.
    destruct (fs (C ++ out ++ r)) eqn:Hs; [|done].
    rewrite (HwfC out r) in Hf; [done.. |]. by rewrite Hs.
  - intros q Hq. apply strictPrefix_removelast in Hq as [_ Hq].
    rewrite removelast_app_ne in Hq by done.
    apply prefix_app_cases in Hq as [Hq|(d' & -> & Hd')]; [by apply HJ3|].
    destruct (decide (d' = [])) as [->|Hne].
    + rewrite app_nil_r. by apply HJ3.
    + rewrite HJ1 by done.
      apply (restored_not_file refC done out d'); [apply refC_wf | done |].
      by apply strictPrefix_removelast.
  - assert (HO : g1 O = Some CDir).
    { rewrite Htr. unfold transfer.
      rewrite decide_False by (by apply app_prefix_not).
      rewrite decide_True; [done|]. by apply prefix_app_r. }
    destruct (IH (done ++ [out]) g1) as [IHok IHfail].
    + intros q Hq. rewrite Htr. apply restored_step; [apply refC_wf | done | by apply HJ1 |].
      intros r. by rewrite HJ2.
    + intros x. rewrite Htr. unfold transfer.
      rewrite decide_False by apply (incomparable_app C O x out Hinc).
      rewrite decide_False by apply (incomparable_app C O x (removelast out) Hinc).
      done.
    + intros q Hq. rewrite Htr. unfold transfer.
      rewrite decide_False.
      2:{ intros Hp. apply (app_prefix_not O out Hout). by etrans. }
      rewrite decide_True; [done|]. by apply prefix_app_r.
    + split.
      * intros Hall. inversion Hall as [|? ? _ Hall']; subst.
        destruct (IHok Hall') as (g' & Hg' & HJ1' & HO').
        exists g'. split; [done|]. rewrite <- app_assoc in HJ1'. split; [done|].
        intros _. destruct (decide (todo = [])) as [->|Hne]; [|by apply HO'].
        simpl in Hg'. by injection Hg' as <-.
      * intros Hnall. apply IHfail. intros Hall'. apply Hnall. by constructor.
Qed.

Lemma Retrieve_spec :
  Forall (fun out => out ≠ []) (cacheArtifacts target) ->
  (forall q, q ≠ [] -> fs (O ++ q) = None) ->
  (forall q, q `prefix_of` O -> isFile (fs q) = false) ->
  (is_Some (fs C) /\ Forall (fun out => is_Some (fs (C ++ out))) (cacheArtifacts target) ->
   exists fs', Retrieve cache target key fs = (fs', true)
               /\ (forall q, q ≠ [] ->
                   fs' (O ++ q) = restored refC (cacheArtifacts target) q)
               /\ (cacheArtifacts target ≠ [] -> fs' O = Some CDir))
  /\ (¬ (is_Some (fs C) /\ Forall (fun out => is_Some (fs (C ++ out))) (cacheArtifacts target)) ->
      (Retrieve cache target key fs).2 = false).
Proof.
  intros Hne Hempty Hclear.
  destruct (retrieve_loop _ Hne [] fs) as [Hok Hfail]; [|done|done|].
  { intros q Hq. rewrite restored_nil. by apply Hempty. }
  unfold Retrieve, PathExists. fold C. split.
  - intros [HC Hall]. rewrite bool_decide_eq_true_2 by done. by apply Hok.
  - intros Hn. destruct (decide (is_Some (fs C))) as [HC|HC].
    + rewrite bool_decide_eq_true_2 by done. apply Hfail. naive_solver.
    + by rewrite bool_decide_eq_false_2.
Qed.

End RetrieveLoop.

End DirCacheRoundTrip.

Lemma refWf_ext (f g : Path -> option CNode) :
  (forall q, g q = f q) -> refWf f -> refWf g.
Proof. intros Heq Hf p r Hr Hs. rewrite Heq in *. by apply (Hf p r). Qed.

Lemma restored_ext (f g : Path -> option CNode) outs q :
  (forall r out, out ∈ outs -> g (out ++ r) = f (out ++ r)) ->
  restored g outs q = restored f outs q.
Proof.
  intros Heq. unfold restored. case_decide as Hc; [|done].
  apply Exists_exists in Hc as (out & Hin & [r ->]). by apply Heq.
Qed.

Lemma restored_above ref outs :
  Forall (fun out => out ≠ []) outs -> outs ≠ [] -> restored ref outs [] = Some CDir.
Proof.
  intros Hne Hn. unfold restored. rewrite decide_False.
  - rewrite decide_True; [done|]. destruct outs as [|out outs]; [done|].
    apply Exists_cons. left. apply prefix_nil.
  - intros (out & Hin & Hp)%Exists_exists. apply prefix_nil_inv in Hp. subst.
    rewrite Forall_forall in Hne. by apply (Hne []).
Qed.

Lemma emptied_RemoveAll O fs : emptied O fs (RemoveAll O fs).
Proof.
  unfold emptied, RemoveAll. split_and!.
  - intros q Hq. by rewrite decide_False.
  - intros q _. rewrite decide_True; [done|]. by apply prefix_app_r.
  - by rewrite decide_True.
Qed.

(** C1 (as amended).  Take a file system in which every entry lies in a
    directory, a cache directory and an out-dir neither of which is below
    the other, and artifacts with non-empty paths.
    - With nothing below the out-dir and no regular file on its path,
      Retrieve succeeds exactly when the key directory exists and every
      artifact of cacheArtifacts exists in it, and reports a miss
      otherwise.
    - If the target has artifacts, each of them exists under the out-dir
      when Store runs, and no regular file is on the path of the key
      directory, then after Store and after the out-dir is emptied,
      Retrieve succeeds, and below the out-dir there is exactly: under each
      artifact path what the out-dir held there when it was stored, with
      the mode of the cache, directories above the artifacts, and nothing
      else. *)
Theorem cache_round_trip `{CacheCore} (cache : dirCache) (target : BuildTarget)
    (key : string) (fs : FileSystem) :
  let C := getPath cache target key in
  let O := outDirOf target in
  let outs := cacheArtifacts target in
  fsWf fs -> incomparable C O -> Forall (fun out => out ≠ []) outs ->
  ((forall q, q ≠ [] -> fs (O ++ q) = None) ->
   (forall q, q `prefix_of` O -> isFile (fs q) = false) ->
   ((Retrieve cache target key fs).2 = true
    <-> is_Some (fs C) /\ forall out, out ∈ outs -> is_Some (fs (C ++ out))))
  /\ (outs ≠ [] ->
      (forall out, out ∈ outs -> is_Some (fs (O ++ out))) ->
      (forall q, strictPrefix q C -> isFile (fs q) = false) ->
      forall fs2, emptied O (Store cache target key fs) fs2 ->
      exists fs3,
        Retrieve cache target key fs2 = (fs3, true)
        /\ forall q, fs3 (O ++ q)
                     = restored (fun q => chmod (fileMode target) <$> fs (O ++ q)) outs q).
Proof.
  intros C O outs Hwf Hinc Hne. split.
  - intros Hempty Hclear.
    destruct (Retrieve_spec cache target key Hinc fs (fsWf_refWf fs C Hwf) Hne Hempty Hclear)
      as [Hok Hfail]. fold C outs in Hok, Hfail.
    rewrite <- Forall_forall. split.
    + intros Hr. destruct (decide (is_Some (fs C)
                 /\ Forall (fun out => is_Some (fs (C ++ out))) outs)) as [?|Hn]; [done|].
      rewrite (Hfail Hn) in Hr. done.
    + intros Hall. destruct (Hok Hall) as (fs' & -> & _). done.
  - intros Hsome Hex Hclear fs2 (He1 & He2 & He3).
    set (refO := fun q => chmod (fileMode target) <$> fs (O ++ q)).
    assert (Hall : Forall (fun out => out ≠ [] /\ is_Some (fs (O ++ out))) outs).
    { rewrite Forall_forall in *. intros out Hin. split; [by apply Hne | by apply Hex]. }
    destruct (Store_spec cache target key Hinc fs Hwf Hclear Hall) as (HA & HS1 & HS3).
    fold C O outs refO in HA, HS1, HS3.
    assert (HrefO : refWf refO) by (by apply refWf_chmod, fsWf_refWf).
    assert (HrefAll : Forall (fun out => is_Some (refO out)) outs).
    { rewrite Forall_forall in *. intros out Hin. unfold refO. apply fmap_is_Some. by apply Hex. }
    assert (HC2 : forall q, fs2 (C ++ q) = restored refO outs q).
    { intros q. rewrite He1; [by apply HA|].
      pose proof (incomparable_app C O q [] Hinc) as [_ Hn].
      by rewrite app_nil_r in Hn. }
    destruct (Retrieve_spec cache target key Hinc fs2) as [Hok _]; [| done | done | |].
    + apply (refWf_ext (restored refO outs)); [done|]. by apply restored_wf.
    + intros q [k HO]. fold O in HO.
      destruct (decide (k = [])) as [->|Hk].
      { rewrite app_nil_r in HO. by rewrite <- HO. }
      assert (Hq : fs q = Some CDir).
      { destruct outs as [|out outs'] eqn:Houts; [done|].
        apply (fsWf_ancestor fs q (k ++ out)); [done | by destruct k |].
        rewrite app_assoc, <- HO. apply Hex. by left. }
      rewrite He1.
      2:{ intros Hp. apply prefix_length in Hp.
          rewrite HO, length_app in Hp. destruct k; [done | simpl in Hp; lia]. }
      destruct (HS3 q) as [-> | ->]; [|by rewrite Hq|done].
      intros [k' ->]. apply (proj1 Hinc). rewrite HO.
      rewrite <- app_assoc. by apply prefix_app_r.
    + fold C O outs in Hok. destruct Hok as (fs3 & -> & HJ1 & HO3).
      { split.
        - rewrite <- (app_nil_r C), HC2. by rewrite restored_above.
        - rewrite Forall_forall. intros out Hin. rewrite HC2.
          pose proof (restored_covered refO outs out [] Hin) as Hcov.
          rewrite app_nil_r in Hcov. rewrite Hcov. rewrite Forall_forall in HrefAll. by apply HrefAll. }
      exists fs3. split; [done|]. intros q.
      destruct (decide (q = [])) as [->|Hq].
      * rewrite app_nil_r, HO3 by done. by rewrite restored_above.
      * rewrite HJ1 by done. apply restored_ext. intros r out Hin.
        rewrite HC2, restored_covered by done. unfold refO.
        by destruct (fs (O ++ out ++ r)) as [n|].
Qed.

Lemma fsWf_ofMap (m : gmap Path CNode) :
  map_Forall (fun p _ => p = [] \/ m !! removelast p = Some CDir) m -> fsWf (fsOfMap m).
Proof.
  intros Hm p c [n Hn]. unfold fsOfMap in *.
  destruct (Hm _ _ Hn) as [Hnil|Hp]; [by destruct p|].
  by rewrite removelast_last in Hp.
Qed.

Lemma builtTree_wf : fsWf (fsOfMap builtTree).
Proof. apply fsWf_ofMap. apply (bool_decide_unpack _). by vm_compute. Qed.

Lemma exampleCache_incomparable :
  incomparable (@getPath exampleCacheCore exampleCache zTarget "K")
    (@outDirOf exampleCacheCore zTarget).
Proof. apply (bool_decide_unpack _). by vm_compute. Qed.

Lemma exampleCache_clear q :
  strictPrefix q (@getPath exampleCacheCore exampleCache zTarget "K") ->
  isFile (fsOfMap builtTree q) = false.
Proof.
  intros [Hq _]. apply elem_of_prefixes in Hq. vm_compute in Hq.
  repeat (apply elem_of_cons in Hq as [->|Hq]; [by vm_compute|]).
  by apply elem_of_nil in Hq.
Qed.

(** A target without artifacts is never found again: Store leaves no key
    directory, and Retrieve asks for it first. *)
Lemma Retrieve_without_artifacts `{CacheCore} cache target key fs :
  cacheArtifacts target = [] ->
  (Retrieve cache target key
     (RemoveAll (outDirOf target) (Store cache target key fs))).2 = false.
Proof.
  intros Hnone. unfold Retrieve, Store, PathExists. rewrite Hnone. simpl.
  rewrite bool_decide_eq_false_2; [done|].
  unfold RemoveAll. case_decide; [by intros [? ?]|].
  rewrite decide_True by done. by intros [? ?].
Qed.

Lemma cache_round_trip_witness :
  exists fs3,
    @Retrieve exampleCacheCore exampleCache zTarget "K"
      (RemoveAll zOutDir (@Store exampleCacheCore exampleCache zTarget "K" (fsOfMap builtTree)))
    = (fs3, true)
    /\ forall q, fs3 (zOutDir ++ q)
                 = restored (fun q => chmod (fileMode zTarget) <$> fsOfMap builtTree (zOutDir ++ q))
                     [["z"]] q.
Proof.
  refine (proj2 (@cache_round_trip exampleCacheCore exampleCache zTarget "K"
                   (fsOfMap builtTree) builtTree_wf exampleCache_incomparable _)
            _ _ exampleCache_clear _ (emptied_RemoveAll _ _)).
  - repeat constructor. discriminate.
  - discriminate.
  - intros out Hin. apply list_elem_of_singleton in Hin. subst out.
    apply (bool_decide_unpack _). by vm_compute.
Defined.

(** C1 fails as stated: Store swallows the failure to copy an artifact that
    the out-dir does not hold, so after Store, with the out-dir removed,
    Retrieve reports a miss for the target [//y:z]. *)
Lemma cache_round_trip_counterexample :
  @cacheArtifacts exampleCacheCore zTarget = [["z"]]
  /\ (@Retrieve exampleCacheCore exampleCache zTarget "K"
        (RemoveAll zOutDir
           (@Store exampleCacheCore exampleCache zTarget "K" (fsOfMap unbuiltTree)))).2
     = false.
Proof. split; by vm_compute. Qed.

(** * Further properties *)

(** ** The memo table of isPackage *)

Lemma isPackage_grows env name memo : memo ⊆ (isPackage env name memo).2.
Proof.
  unfold isPackage. destruct (memo !! name) as [ret|] eqn:Hl; simpl; [done|].
  by apply insert_subseteq.
Qed.

(** X1: isPackage records its answer under the name, keeps what the table
    held, and answers every later call for that name from the table: the
    answer is the recorded one whatever the file system has become. *)
Theorem isPackage_memoised (env env' : ParseEnv) (name : string)
    (memo : gmap string bool) :
  let r := isPackage env name memo in
  r.2 !! name = Some r.1
  /\ memo ⊆ r.2
  /\ isPackage env' name r.2 = r.
Proof.
  intros r. split_and!; [| apply isPackage_grows |]; subst r; unfold isPackage;
    destruct (memo !! name) as [ret|] eqn:Hl; simpl;
    rewrite ?Hl, ?lookup_insert_eq; done.
Qed.

Lemma ownerWalk_memo env p fuel :
  forall dir memo1 memo2,
    memoValid env memo1 -> memoValid env memo2 ->
    (ownerWalk env p fuel dir memo1).1 = (ownerWalk env p fuel dir memo2).1.
Proof.
  induction fuel as [|fuel IH]; intros dir memo1 memo2 H1 H2; simpl;
    (case_decide; [|done]);
    destruct (isPackage_valid env dir memo1 H1) as (m1 & -> & Hm1);
    destruct (isPackage_valid env dir memo2 H2) as (m2 & -> & Hm2);
    destruct (isPackageInternal env dir); simpl; auto.
Qed.

Lemma ownerWalk_valid env p fuel :
  forall dir memo,
    memoValid env memo ->
    memoValid env (ownerWalk env p fuel dir memo).2
    /\ memo ⊆ (ownerWalk env p fuel dir memo).2.
Proof.
  induction fuel as [|fuel IH]; intros dir memo Hm; simpl;
    (case_decide; [|done]);
    pose proof (isPackage_grows env dir memo) as Hg;
    destruct (isPackage_valid env dir memo Hm) as (m1 & Heq & Hm1);
    rewrite Heq in Hg |- *; simpl in Hg;
    destruct (isPackageInternal env dir); simpl; auto.
  destruct (IH (path_Dir dir) m1 Hm1) as [Hv Hs]. split; [done|].
  by etrans.
Qed.

Section ParseSourceMemo.
Context `{Core}.

(** X2: the memo table is an optimisation of parseSource.  With a table
    that agrees with the file system the result is the one that the empty
    table gives, the table that is left still agrees with the file system,
    and nothing that it held has been dropped. *)
Theorem parseSource_memo_transparent (env : ParseEnv) (memo : gmap string bool)
    (src packageName : string) :
  memoValid env memo ->
  (parseSource env memo src packageName).1 = (parseSource env ∅ src packageName).1
  /\ memoValid env (parseSource env memo src packageName).2
  /\ memo ⊆ (parseSource env memo src packageName).2.
Proof.
  intros Hm. unfold parseSource.
  destruct (LooksLikeABuildLabel src); [done|].
  destruct (Contains src "../"); [done|].
  destruct (firstByte src) as [c|e]; [|done].
  destruct (Ascii.eqb c "/"); [done|].
  destruct (Contains src "/"); [|done].
  set (joined := path_Join packageName src).
  pose proof (ownerWalk_memo env packageName (String.length joined)
                (path_Dir joined) memo ∅ Hm (memoValid_empty env)) as Heq.
  destruct (ownerWalk_valid env packageName (String.length joined)
              (path_Dir joined) memo Hm) as [Hv Hs].
  destruct (ownerWalk env packageName (String.length joined) (path_Dir joined) memo)
    as [[[[]|e]|] m1];
    destruct (ownerWalk env packageName (String.length joined) (path_Dir joined) ∅)
    as [[[[]|e']|] m2]; simpl in *; simplify_eq; done.
Qed.

End ParseSourceMemo.

Lemma exampleMemo_valid : memoValid exampleEnv exampleMemo.
Proof. apply (bool_decide_unpack _). by vm_compute. Qed.

Lemma parseSource_memo_transparent_witness :
  (@parseSource exampleCore exampleEnv exampleMemo "y/a/f.go" "x").1
  = (@parseSource exampleCore exampleEnv ∅ "y/a/f.go" "x").1
  /\ memoValid exampleEnv (@parseSource exampleCore exampleEnv exampleMemo "y/a/f.go" "x").2
  /\ exampleMemo ⊆ (@parseSource exampleCore exampleEnv exampleMemo "y/a/f.go" "x").2.
Proof.
  apply (@parseSource_memo_transparent exampleCore exampleEnv exampleMemo "y/a/f.go" "x").
  apply exampleMemo_valid.
Defined.

(** ** Termination of the walk of parseSource *)

Lemma pathWeight_app l1 l2 : pathWeight (l1 ++ l2) = (pathWeight l1 + pathWeight l2)%nat.
Proof. induction l1 as [|x l1 IH]; simpl; [done|]. rewrite IH. lia. Qed.

Lemma pathWeight_rev l : pathWeight (rev l) = pathWeight l.
Proof.
  induction l as [|x l IH]; simpl; [done|].
  rewrite pathWeight_app, IH. simpl. lia.
Qed.

Lemma pathWeight_joinSlash l :
  l ≠ [] -> S (String.length (joinSlash l)) = pathWeight l.
Proof.
  induction l as [|x [|y l] IH]; intros Hne; [done | simpl; lia |].
  rewrite joinSlash_cons2, length_append. cbn [String.length pathWeight foldr].
  cbn [pathWeight foldr] in IH. rewrite <- IH by done. lia.
Qed.

Lemma pathWeight_splitSlash s : pathWeight (splitSlash s) = S (String.length s).
Proof.
  rewrite <- (pathWeight_joinSlash _ (splitSlash_nonempty s)).
  by rewrite joinSlash_splitSlash.
Qed.

Lemma pathWeight_cleanStep rooted stack c :
  (pathWeight (cleanStep rooted stack c) ≤ pathWeight stack + S (String.length c))%nat.
Proof.
  unfold cleanStep. repeat case_decide; try (simpl; lia).
  destruct stack as [|top rest]; [destruct rooted; simpl; lia|].
  case_decide; simpl; lia.
Qed.

Lemma pathWeight_foldl rooted l :
  forall stack,
    (pathWeight (foldl (cleanStep rooted) stack l) ≤ pathWeight stack + pathWeight l)%nat.
Proof.
  induction l as [|c l IH]; intros stack; simpl; [lia|].
  specialize (IH (cleanStep rooted stack c)).
  pose proof (pathWeight_cleanStep rooted stack c). lia.
Qed.

Lemma keptName_cleanStep rooted stack c :
  slashFree c -> Forall keptName stack -> Forall keptName (cleanStep rooted stack c).
Proof.
  intros Hc Hs. unfold cleanStep. case_decide as H1; [done|].
  case_decide as H2.
  - destruct stack as [|top rest]; [destruct rooted; [done|]|].
    + apply Forall_singleton. by subst.
    + inversion_clear Hs. case_decide; [|done].
      repeat constructor; subst; done.
  - constructor; [|done]. split; [naive_solver | done].
Qed.

Lemma keptName_foldl rooted l :
  forall stack,
    Forall slashFree l -> Forall keptName stack ->
    Forall keptName (foldl (cleanStep rooted) stack l).
Proof.
  induction l as [|c l IH]; intros stack Hl Hs; simpl; [done|].
  inversion_clear Hl. apply IH; [done|]. by apply keptName_cleanStep.
Qed.

Lemma keptName_cleanComps s : Forall keptName (cleanComps s).
Proof.
  unfold cleanComps. apply Forall_rev.
  apply keptName_foldl; [apply slashFree_splitSlash | done].
Qed.

Lemma isRooted_keptName c : keptName c -> isRooted c = false.
Proof.
  intros [Hne Hs]. destruct c as [|x c]; [done|].
  apply slashFree_cons in Hs as [Hx _]. unfold isRooted. cbn [HasPrefix].
  destruct (Ascii.eqb_spec "/" x) as [<-|]; done.
Qed.

Lemma path_Clean_relative s :
  isRooted s = false -> isRooted (path_Clean s) = false /\ path_Clean s ≠ "".
Proof.
  intros Hr. unfold path_Clean. rewrite Hr. simpl.
  pose proof (keptName_cleanComps s) as Hk.
  destruct (cleanComps s) as [|x l]; [done|].
  inversion_clear Hk as [|? ? Hx _].
  assert (Hj : joinSlash (x :: l) = x +:+ (match l with
                                            | [] => ""
                                            | _ => String "/" (joinSlash l)
                                            end)).
  { destruct l; [|done]. cbn [joinSlash]. clear.
    induction x as [|a x IHx]; [done|]. rewrite append_cons. by f_equal. }
  rewrite Hj. destruct Hx as [Hne Hs]. split.
  - rewrite isRooted_app by done. by apply isRooted_keptName.
  - by destruct x.
Qed.

Lemma path_Clean_length s :
  isRooted s = false ->
  path_Clean s = "." \/ (String.length (path_Clean s) ≤ String.length s)%nat.
Proof.
  intros Hr. unfold path_Clean. rewrite Hr. simpl.
  destruct (cleanComps s) as [|x l] eqn:Hc; [by left|]. right.
  assert (Hne : x :: l ≠ []) by done.
  pose proof (pathWeight_joinSlash _ Hne) as Hw.
  rewrite <- Hc in Hw at 2. unfold cleanComps in Hw.
  rewrite pathWeight_rev in Hw.
  pose proof (pathWeight_foldl (isRooted s) (splitSlash s) []) as Hf.
  rewrite pathWeight_splitSlash in Hf. simpl in Hf. lia.
Qed.

Lemma path_Clean_trailing_slash a :
  a ≠ "" -> path_Clean (a +:+ "/") = path_Clean a.
Proof.
  intros Hne. unfold path_Clean, cleanComps.
  rewrite isRooted_app by done.
  rewrite splitSlash_app_slash, foldl_app. simpl.
  unfold cleanStep at 1. by rewrite decide_True by (by left).
Qed.

Lemma path_Split_spec d :
  d = (path_Split d).1 +:+ (path_Split d).2
  /\ ((path_Split d).1 = "" \/ exists a, (path_Split d).1 = a +:+ "/").
Proof.
  induction d as [|c d [IH1 IH2]]; [by split; [|left]|].
  cbn [path_Split]. destruct (path_Split d) as [s f]. simpl in *.
  case_decide as Hs.
  - subst s. rewrite append_nil_l in IH1. subst f.
    destruct (Ascii.eqb_spec c "/") as [->|Hc]; simpl.
    + split; [done|]. right. by exists "".
    + split; [done|]. by left.
  - simpl. split; [by rewrite append_cons; f_equal|]. right.
    destruct IH2 as [?|[a ->]]; [done|]. by exists (String c a).
Qed.

Lemma path_Dir_shorter d :
  isRooted d = false ->
  isRooted (path_Dir d) = false /\ path_Dir d ≠ ""
  /\ (path_Dir d = "." \/ (String.length (path_Dir d) < String.length d)%nat).
Proof.
  intros Hr. unfold path_Dir.
  destruct (path_Split_spec d) as [Hd Hs].
  destruct Hs as [Hs|[a Hs]]; rewrite Hs in Hd |- *.
  { split_and!; [done | done | by left]. }
  assert (Ha : a ≠ "" /\ isRooted a = false).
  { destruct a as [|x a]; [by rewrite Hd in Hr|]. split; [done|].
    rewrite Hd in Hr. unfold isRooted in *. rewrite !append_cons in Hr.
    cbn [HasPrefix] in *. by destruct (Ascii.eqb_spec "/" x). }
  destruct Ha as [Hne Hra].
  assert (Hrs : isRooted (a +:+ "/") = false) by (by rewrite isRooted_app).
  destruct (path_Clean_relative _ Hrs) as [H1 H2].
  split_and!; [done | done |].
  rewrite path_Clean_trailing_slash by done.
  destruct (path_Clean_length a Hra) as [?|Hl]; [by left | right].
  apply (f_equal String.length) in Hd. rewrite !length_append in Hd.
  simpl in Hd. lia.
Qed.

Lemma ownerWalk_fuel env p fuel :
  forall dir memo,
    isRooted dir = false -> dir ≠ "" ->
    dir = "." \/ (String.length dir ≤ fuel)%nat ->
    is_Some (ownerWalk env p fuel dir memo).1.
Proof.
  induction fuel as [|fuel IH]; intros dir memo Hr Hne Hl; simpl.
  - case_decide as Hd; [|done]. exfalso.
    destruct Hl as [?|Hl]; [naive_solver|]. destruct dir; [done | simpl in Hl; lia].
  - case_decide as Hd; [|done].
    destruct (isPackage env dir memo) as [[] memo']; [done|].
    destruct (path_Dir_shorter dir Hr) as (H1 & H2 & H3).
    apply IH; [done | done |].
    destruct H3 as [?|H3]; [by left | right].
    destruct Hl as [?|Hl]; [naive_solver | lia].
Qed.

Section ParseSourceTermination.
Context `{Core}.

(** X3: for a package name that is not an absolute path the loop of
    parseSource over the parent directories ends: parseSource returns a
    build input or panics, on every source and in every file system. *)
Theorem parseSource_terminates (env : ParseEnv) (memo : gmap string bool)
    (src packageName : string) :
  HasPrefix packageName "/" = false ->
  is_Some (parseSource env memo src packageName).1.
Proof.
  intros Hp. unfold parseSource.
  destruct (LooksLikeABuildLabel src); [done|].
  destruct (Contains src "../"); [done|].
  destruct src as [|c src]; [done|]. simpl firstByte. cbv iota.
  destruct (Ascii.eqb_spec c "/") as [->|Hc]; [done|].
  destruct (Contains (String c src) "/"); [|done].
  set (joined := path_Join packageName (String c src)).
  assert (Hsrc : isRooted (String c src) = false).
  { unfold isRooted. cbn [HasPrefix]. by destruct (Ascii.eqb_spec "/" c) as [<-|]. }
  assert (Hj : isRooted joined = false /\ joined ≠ "").
  { subst joined. unfold path_Join. case_decide as Hpe.
    - rewrite decide_False by done. by apply path_Clean_relative.
    - rewrite decide_False by done. apply path_Clean_relative.
      by rewrite isRooted_app. }
  destruct Hj as [Hjr Hjn].
  destruct (path_Dir_shorter joined Hjr) as (H1 & H2 & H3).
  pose proof (ownerWalk_fuel env packageName (String.length joined)
                (path_Dir joined) memo H1 H2) as Hw.
  destruct (ownerWalk env packageName (String.length joined) (path_Dir joined) memo)
    as [[[[]|e]|] memo']; try done.
  simpl in Hw. exfalso. apply (is_Some_None (A := result ())). apply Hw.
  destruct H3 as [?|H3]; [by left | right; lia].
Qed.

End ParseSourceTermination.

Lemma parseSource_terminates_witness :
  is_Some (@parseSource exampleCore exampleEnv ∅ "a/.." "x/y").1.
Proof.
  apply (@parseSource_terminates exampleCore exampleEnv ∅ "a/.." "x/y").
  reflexivity.
Defined.

(** ** Glob: the walk for patterns with a double star *)

Section GlobWalk.
Context `{GoLib}.
Context (env : ParseEnv) (rootPath : string) (regex : string -> bool).

Lemma walkMatches_Directory name entries :
  walkMatches env rootPath regex name (Directory entries)
  = if negb (String.eqb name rootPath) && isPackageInternal env name then []
    else mjoin ((fun e => walkMatches env rootPath regex (path_Join name e.1) e.2)
                   <$> sortEntries entries).
Proof.
  cbn [walkMatches]. destruct (negb _ && _); [done|].
  set (found := fix children (es : list (string * FsNode)) : list (string * list string) :=
                  match es with
                  | [] => []
                  | (k, child) :: es' =>
                      (k, walkMatches env rootPath regex (path_Join name k) child)
                      :: children es'
                  end).
  assert (Hf : forall es,
             found es
             = (fun e => (e.1, walkMatches env rootPath regex (path_Join name e.1) e.2))
                 <$> es).
  { induction es as [|[k child] es IHes]; [done|]. cbn [found]. fold found.
    by rewrite IHes. }
  rewrite Hf, (sortEntries_fmap
                 (fun k child => walkMatches env rootPath regex (path_Join name k) child)).
  by rewrite <- list_fmap_compose.
Qed.

Lemma walkNode_matches n :
  forall name matches memo,
    memoValid env memo ->
    exists memo',
      walkNode (globWalkFn env rootPath regex) name n (matches, memo)
      = (matches ++ walkMatches env rootPath regex name n, memo')
      /\ memoValid env memo' /\ memo ⊆ memo'.
Proof.
  induction n as [|entries IH] using FsNode_entries_ind; intros name matches memo Hm.
  - cbn [walkNode walkMatches]. unfold globWalkFn. cbn [andb negb].
    exists memo. destruct (regex name); rewrite ?app_nil_r; done.
  - rewrite walkNode_Directory, walkMatches_Directory.
    assert (Hchildren : forall es matches memo,
               es ⊆ entries -> memoValid env memo ->
               exists memo',
                 foldl (fun acc e =>
                          walkNode (globWalkFn env rootPath regex) (path_Join name e.1)
                            e.2 acc)
                   (matches, memo) es
                 = (matches
                      ++ mjoin ((fun e => walkMatches env rootPath regex
                                             (path_Join name e.1) e.2) <$> es),
                    memo')
                 /\ memoValid env memo' /\ memo ⊆ memo').
    { intros es. induction es as [|[k child] es IHes]; intros ms mm Hsub Hmm.
      - exists mm. cbn. rewrite app_nil_r. done.
      - apply list_subseteq_cons_iff in Hsub as [Hin Hsub].
        rewrite Forall_forall in IH. pose proof (IH _ Hin) as IHc. cbn [snd] in IHc.
        cbn [foldl fmap list_fmap mjoin list_join fst snd].
        destruct (IHc (path_Join name k) ms mm Hmm) as (m1 & -> & Hm1 & Hs1).
        destruct (IHes (ms ++ walkMatches env rootPath regex (path_Join name k) child) m1)
          as (m2 & -> & Hm2 & Hs2); [done | done |].
        exists m2. rewrite app_assoc. split; [done|].
        split; [done | by etrans]. }
    assert (Hsorted : sortEntries entries ⊆ entries).
    { intros e. by rewrite elem_of_sortEntries. }
    unfold globWalkFn at 1. cbn [andb negb].
    destruct (String.eqb_spec name rootPath) as [Heq|Hne]; cbn [negb andb].
    + by apply Hchildren.
    + pose proof (isPackage_grows env name memo) as Hg.
      destruct (isPackage_valid env name memo Hm) as (memo1 & Heq & Hm1).
      rewrite Heq in Hg |- *. simpl in Hg.
      destruct (isPackageInternal env name) eqn:Hp.
      * exists memo1. rewrite app_nil_r. done.
      * destruct (Hchildren (sortEntries entries) matches memo1) as (m2 & -> & Hm2 & Hs2);
          [done..|].
        exists m2. split; [done|]. split; [done | by etrans].
Qed.

Lemma elem_of_walkMatches_Directory name entries m :
  m ∈ walkMatches env rootPath regex name (Directory entries)
  <-> (name = rootPath \/ isPackageInternal env name = false)
      /\ exists k child, (k, child) ∈ entries
           /\ m ∈ walkMatches env rootPath regex (path_Join name k) child.
Proof.
  rewrite walkMatches_Directory.
  destruct (String.eqb_spec name rootPath) as [Heq|Hne]; cbn [negb andb].
  - rewrite list_elem_of_join. split.
    + intros (l & Hm & Hl). apply list_elem_of_fmap in Hl as ([k child] & -> & He).
      rewrite elem_of_sortEntries in He. split; [by left|].
      exists k, child. split; [done | exact Hm].
    + intros (_ & k & child & He & Hm). eexists. split; [exact Hm|].
      apply list_elem_of_fmap. exists (k, child). split; [done|].
      by apply elem_of_sortEntries.
  - destruct (isPackageInternal env name) eqn:Hp.
    + split; [by intros ?%elem_of_nil | by intros ([?|?] & _)].
    + rewrite list_elem_of_join. split.
      * intros (l & Hm & Hl). apply list_elem_of_fmap in Hl as ([k child] & -> & He).
        rewrite elem_of_sortEntries in He. split; [by right|].
        exists k, child. split; [done | exact Hm].
      * intros (_ & k & child & He & Hm). eexists. split; [exact Hm|].
        apply list_elem_of_fmap. exists (k, child). split; [done|].
        by apply elem_of_sortEntries.
Qed.

Lemma walkMatches_entered rootNode n :
  forall name m,
    entered env rootPath rootNode name n ->
    m ∈ walkMatches env rootPath regex name n ->
    entered env rootPath rootNode m RegularFile /\ regex m = true.
Proof.
  induction n as [|entries IH] using FsNode_entries_ind; intros name m He Hin.
  - cbn [walkMatches] in Hin. destruct (regex name) eqn:Hr; [|by inversion Hin].
    apply list_elem_of_singleton in Hin as ->. done.
  - apply elem_of_walkMatches_Directory in Hin as (Hopen & k & child & Hk & Hin).
    rewrite Forall_forall in IH.
    apply (IH (k, child)) with (name := path_Join name k); [done | | done].
    by eapply entered_entry.
Qed.

Lemma walkMatches_entry name entries k child m :
  name = rootPath \/ isPackageInternal env name = false ->
  (k, child) ∈ entries ->
  m ∈ walkMatches env rootPath regex (path_Join name k) child ->
  m ∈ walkMatches env rootPath regex name (Directory entries).
Proof.
  intros Hopen Hin Hm. apply elem_of_walkMatches_Directory. split; [done|].
  by exists k, child.
Qed.

Lemma entered_walkMatches rootNode name n m :
  entered env rootPath rootNode name n ->
  m ∈ walkMatches env rootPath regex name n ->
  m ∈ walkMatches env rootPath regex rootPath rootNode.
Proof.
  induction 1 as [|name entries k child He IH Hopen Hin]; [done|].
  intros Hm. apply IH. by eapply walkMatches_entry.
Qed.

Lemma elem_of_walkMatches rootNode m :
  m ∈ walkMatches env rootPath regex rootPath rootNode
  <-> entered env rootPath rootNode m RegularFile /\ regex m = true.
Proof.
  split.
  - apply walkMatches_entered. constructor.
  - intros [He Hr]. apply (entered_walkMatches rootNode m RegularFile); [done|].
    cbn [walkMatches]. rewrite Hr. by apply list_elem_of_singleton.
Qed.

End GlobWalk.

Section GlobDoubleStar.
Context `{GoLib}.

Lemma glob_doublestar env memo rootPath pattern regex rootNode :
  Contains pattern "**" = true -> memoValid env memo ->
  regexpCompile (globRegex pattern) = Some regex ->
  Lstat (fsRoot env) rootPath = Some rootNode ->
  exists memo',
    glob env memo rootPath pattern
    = (Ok (walkMatches env rootPath regex rootPath rootNode), memo')
    /\ memoValid env memo' /\ memo ⊆ memo'.
Proof.
  intros Hc Hm Hre Hl. unfold glob. rewrite Hc. cbn [negb].
  fold (globRegex pattern). rewrite Hre, Hl.
  destruct (walkNode_matches env rootPath regex rootNode rootPath [] memo Hm)
    as (memo' & -> & Hm' & Hs).
  exists memo'. done.
Qed.

(** X4: with a memo table that agrees with the file system, for a pattern
    with [**] whose regular expression compiles, glob returns exactly the
    regular files below the root of the walk that the expression matches
    and that no package boundary hides: every directory on the way from the
    root down to the file, the root apart, is not a package.  When the
    expression does not compile or the root does not exist, glob fails. *)
Theorem glob_doublestar_exact (env : ParseEnv) (memo : gmap string bool)
    (rootPath pattern : string) :
  Contains pattern "**" = true -> memoValid env memo ->
  (forall regex rootNode,
      regexpCompile (globRegex pattern) = Some regex ->
      Lstat (fsRoot env) rootPath = Some rootNode ->
      exists matches memo',
        glob env memo rootPath pattern = (Ok matches, memo')
        /\ forall m, m ∈ matches
                     <-> entered env rootPath rootNode m RegularFile /\ regex m = true)
  /\ (regexpCompile (globRegex pattern) = None \/ Lstat (fsRoot env) rootPath = None ->
      glob env memo rootPath pattern = (Panic GlobError, memo)).
Proof.
  intros Hc Hm. split.
  - intros regex rootNode Hre Hl.
    destruct (glob_doublestar env memo rootPath pattern regex rootNode Hc Hm Hre Hl)
      as (memo' & -> & _).
    eexists _, memo'. split; [done|]. intros m. apply elem_of_walkMatches.
  - intros Hfail. unfold glob. rewrite Hc. cbn [negb]. fold (globRegex pattern).
    destruct (regexpCompile (globRegex pattern)) as [regex|]; [|done].
    destruct Hfail as [?|Hl]; [done|]. by rewrite Hl.
Qed.

End GlobDoubleStar.

Lemma glob_doublestar_exact_witness :
  exists matches memo',
    @glob exampleGoLib globEnv ∅ "p" "**/*.go" = (Ok matches, memo')
    /\ forall m, m ∈ matches
                 <-> entered globEnv "p"
                       (Directory
                          [("BUILD", RegularFile); ("main.go", RegularFile);
                           ("sub", Directory [("BUILD", RegularFile);
                                              ("inner.go", RegularFile)])])
                       m RegularFile
                     /\ HasSuffix m ".go" = true.
Proof.
  apply (proj1 (@glob_doublestar_exact exampleGoLib globEnv ∅ "p" "**/*.go"
                  eq_refl (memoValid_empty globEnv))
           (fun name => HasSuffix name ".go")); reflexivity.
Defined.

(** ** Glob and the memo table *)

Section GlobMemo.
Context `{GoLib}.

Lemma glob_memo env memo rootPath pattern :
  memoValid env memo ->
  (glob env memo rootPath pattern).1 = (glob env ∅ rootPath pattern).1
  /\ memoValid env (glob env memo rootPath pattern).2
  /\ memo ⊆ (glob env memo rootPath pattern).2.
Proof.
  intros Hm. unfold glob.
  destruct (negb (Contains pattern "**")); [done|].
  destruct (regexpCompile _) as [regex|]; [|done].
  destruct (Lstat (fsRoot env) rootPath) as [n|]; [|done].
  destruct (walkNode_matches env rootPath regex n rootPath [] memo Hm)
    as (m1 & -> & Hm1 & Hs1).
  destruct (walkNode_matches env rootPath regex n rootPath [] ∅ (memoValid_empty env))
    as (m2 & -> & _ & _).
  done.
Qed.

Lemma Glob_memo_fold env cPackage cExcludes includeHidden cIncludes :
  forall r memo1 memo2,
    memoValid env memo1 -> memoValid env memo2 ->
    let step := fun (acc : result (list string) * gmap string bool) include =>
      match acc with
      | (Panic e, memo) => (Panic e, memo)
      | (Ok filenames, memo) =>
          match glob env memo cPackage include with
          | (Panic e, memo') => (Panic e, memo')
          | (Ok matches, memo') =>
              (globFilter cPackage cExcludes includeHidden filenames matches, memo')
          end
      end in
    (foldl step (r, memo1) cIncludes).1 = (foldl step (r, memo2) cIncludes).1
    /\ memoValid env (foldl step (r, memo1) cIncludes).2
    /\ memo1 ⊆ (foldl step (r, memo1) cIncludes).2.
Proof.
  induction cIncludes as [|include cIncludes IH]; intros r memo1 memo2 H1 H2 step;
    [done|].
  cbn [foldl]. destruct r as [filenames|e].
  - cbn [step].
    destruct (glob_memo env memo1 cPackage include H1) as (E1 & V1 & S1).
    destruct (glob_memo env memo2 cPackage include H2) as (E2 & V2 & _).
    rewrite <- E2 in E1.
    destruct (glob env memo1 cPackage include) as [r1 m1].
    destruct (glob env memo2 cPackage include) as [r2 m2].
    simpl in *. subst r2.
    destruct r1 as [matches|e].
    + destruct (IH (globFilter cPackage cExcludes includeHidden filenames matches)
                  m1 m2 V1 V2) as (E & V & S).
      split; [done|]. split; [done | by etrans].
    + destruct (IH (Panic e) m1 m2 V1 V2) as (E & V & S).
      split; [done|]. split; [done | by etrans].
  - cbn [step]. apply (IH (Panic e) memo1 memo2 H1 H2).
Qed.

(** X5: the memo table is an optimisation of Glob.  With a table that
    agrees with the file system Glob returns what it returns with the empty
    table, and the table that it leaves still agrees with the file system
    and keeps what it held. *)
Theorem Glob_memo_transparent (env : ParseEnv) (memo : gmap string bool)
    (cPackage : string) (cIncludes cExcludes : list string) (includeHidden : bool) :
  memoValid env memo ->
  (Glob env memo cPackage cIncludes cExcludes includeHidden).1
  = (Glob env ∅ cPackage cIncludes cExcludes includeHidden).1
  /\ memoValid env (Glob env memo cPackage cIncludes cExcludes includeHidden).2
  /\ memo ⊆ (Glob env memo cPackage cIncludes cExcludes includeHidden).2.
Proof.
  intros Hm. unfold Glob.
  apply (Glob_memo_fold env cPackage cExcludes includeHidden cIncludes (Ok []) memo ∅
           Hm (memoValid_empty env)).
Qed.

End GlobMemo.

Lemma globMemo_valid : memoValid globEnv globMemo.
Proof. apply (bool_decide_unpack _). by vm_compute. Qed.

Lemma Glob_memo_transparent_witness :
  (@Glob exampleGoLib globEnv globMemo "p" ["**/*.go"] [] false).1
  = (@Glob exampleGoLib globEnv ∅ "p" ["**/*.go"] [] false).1
  /\ memoValid globEnv (@Glob exampleGoLib globEnv globMemo "p" ["**/*.go"] [] false).2
  /\ globMemo ⊆ (@Glob exampleGoLib globEnv globMemo "p" ["**/*.go"] [] false).2.
Proof.
  apply (@Glob_memo_transparent exampleGoLib globEnv globMemo "p" ["**/*.go"] [] false).
  apply globMemo_valid.
Defined.

(** ** Glob: literal patterns and the names that are returned *)

Lemma HasPrefix_app p s : HasPrefix (p +:+ s) p = true.
Proof.
  induction p as [|c p IH]; [done|]. rewrite append_cons. cbn [HasPrefix].
  by rewrite Ascii.eqb_refl.
Qed.

Lemma HasPrefix_refl p : HasPrefix p p = true.
Proof. induction p as [|c p IH]; [done|]. cbn [HasPrefix]. by rewrite Ascii.eqb_refl. Qed.

Lemma dropString_app p s : dropString (String.length p) (p +:+ s) = s.
Proof. induction p as [|c p IH]; [done|]. by rewrite append_cons. Qed.

Lemma joinSlash_app l1 l2 :
  l1 ≠ [] -> l2 ≠ [] ->
  joinSlash (l1 ++ l2) = joinSlash l1 +:+ String "/" (joinSlash l2).
Proof.
  induction l1 as [|x [|y l1] IH]; intros H1 H2; [done | |].
  - destruct l2; [done|]. reflexivity.
  - change ((x :: y :: l1) ++ l2) with (x :: (y :: l1) ++ l2).
    change ((y :: l1) ++ l2) with (y :: l1 ++ l2) at 1.
    rewrite !joinSlash_cons2.
    change (y :: l1 ++ l2) with ((y :: l1) ++ l2). rewrite IH by done.
    rewrite append_assoc. by rewrite append_cons.
Qed.

Lemma path_Clean_nonempty s : path_Clean s ≠ "".
Proof.
  destruct (isRooted s) eqn:Hr; [|by apply path_Clean_relative].
  unfold path_Clean. rewrite Hr. done.
Qed.

Section GlobNames.
Context `{GoLib}.


Lemma glob_literal env memo rootPath pattern :
  Contains pattern "**" = false -> hasMeta (path_Join rootPath pattern) = false ->
  glob env memo rootPath pattern
  = (Ok (match Lstat (fsRoot env) (path_Join rootPath pattern) with
         | Some _ => [path_Join rootPath pattern]
         | None => []
         end), memo).
Proof.
  intros Hs Hm. unfold glob, filepathGlob. rewrite Hs, Hm. cbn [negb].
  by destruct (Lstat _ _).
Qed.

Lemma globFilter_cons cPackage cExcludes includeHidden filenames m matches :
  globFilter cPackage cExcludes includeHidden filenames (m :: matches)
  = match (if negb includeHidden && isHidden m then Ok filenames
           else
             excluded ← shouldExcludeMatch m cPackage cExcludes;
             if (excluded : bool) then Ok filenames
             else if HasPrefix m cPackage then
               filename ← sliceFrom (String.length cPackage + 1) m;
               Ok (filenames ++ [filename])
             else Ok (filenames ++ [m])) with
    | Ok filenames' => globFilter cPackage cExcludes includeHidden filenames' matches
    | Panic e => Panic e
    end.
Proof.
  unfold globFilter. cbn [foldl].
  match goal with |- foldl ?f ?a matches = match ?X with _ => _ end =>
    change a with X; destruct X as [fs|e]; [done|] end.
  induction matches as [|m' matches IH]; [done|]. cbn [foldl]. apply IH.
Qed.



(** X8: the empty package name is a prefix of every match, and the slice
    that strips the package and its slash then cuts the first byte of the
    match.  For the empty package name and a literal pattern that names an
    existing path, Glob returns nothing when the path is hidden and hidden
    files are not asked for or when an exclude pattern matches it, panics
    when an exclude pattern fails to match, and otherwise returns the
    cleaned pattern without its first byte. *)
Theorem Glob_empty_package_name (env : ParseEnv) (memo : gmap string bool)
    (pattern : string) (cExcludes : list string) (includeHidden : bool) :
  pattern ≠ "" -> Contains pattern "**" = false ->
  hasMeta (path_Clean pattern) = false ->
  is_Some (Lstat (fsRoot env) (path_Clean pattern)) ->
  Glob env memo "" [pattern] cExcludes includeHidden
  = (if negb includeHidden && isHidden (path_Clean pattern) then Ok []
     else
       excluded ← shouldExcludeMatch (path_Clean pattern) "" cExcludes;
       Ok (if (excluded : bool) then [] else [dropString 1 (path_Clean pattern)]),
     memo).
Proof.
  intros Hne Hstar Hmeta [n Hl].
  assert (Hj : path_Join "" pattern = path_Clean pattern).
  { unfold path_Join. rewrite decide_True by done. by rewrite decide_False. }
  unfold Glob. cbn [foldl]. rewrite glob_literal by (by rewrite ?Hj).
  rewrite Hj, Hl, globFilter_cons.
  destruct (negb includeHidden && isHidden (path_Clean pattern)); [done|].
  destruct (shouldExcludeMatch _ _ _) as [[]|e]; cbn [mbind result_bind]; [done| |done].
  cbn [HasPrefix]. unfold sliceFrom. pose proof (path_Clean_nonempty pattern) as Hc.
  rewrite decide_True; [done|].
  destruct (path_Clean pattern); [done | simpl; lia].
Qed.

End GlobNames.



Lemma Glob_empty_package_name_witness :
  @Glob exampleGoLib globEnv ∅ "" ["p/main.go"] ["p/BUILD"] false = (Ok ["/main.go"], ∅).
Proof.
  apply (@Glob_empty_package_name exampleGoLib globEnv ∅ "p/main.go" ["p/BUILD"] false).
  - discriminate.
  - reflexivity.
  - reflexivity.
  - by eexists.
Defined.

(** ** Glob: hidden files *)

Lemma path_Split_below p rest :
  (path_Split (p +:+ String "/" rest)).1 ≠ ""
  /\ (path_Split (p +:+ String "/" rest)).2 = (path_Split rest).2.
Proof.
  induction p as [|c p [IH1 IH2]].
  - rewrite append_nil_l. cbn [path_Split]. destruct (path_Split rest) as [d f].
    case_decide; simpl; done.
  - rewrite append_cons. cbn [path_Split].
    destruct (path_Split (p +:+ String "/" rest)) as [d f]. simpl in *.
    rewrite decide_False by done. done.
Qed.

Lemma isHidden_below p rest : isHidden (p +:+ String "/" rest) = isHidden rest.
Proof. unfold isHidden. by rewrite (proj2 (path_Split_below p rest)). Qed.

Section GlobHidden.
Context `{GoLib}.

(** X9: without includeHidden the inner loop of Glob drops the hidden
    matches.  When the matches lie below the package directory, every name
    that the loop adds is a match taken relative to the package, and its
    last component neither starts with a dot nor is enclosed in [#]. *)
Theorem globFilter_skips_hidden (cPackage : string) (cExcludes filenames matches
    out : list string) :
  Forall (fun m => exists rest, m = cPackage +:+ "/" +:+ rest) matches ->
  globFilter cPackage cExcludes false filenames matches = Ok out ->
  exists added,
    out = filenames ++ added
    /\ Forall (fun f => isHidden f = false /\ cPackage +:+ "/" +:+ f ∈ matches) added.
Proof.
  intros Hall. revert filenames.
  induction Hall as [|m matches [rest ->] _ IH]; intros filenames Hout.
  { exists []. injection Hout as <-. by rewrite app_nil_r. }
  rewrite globFilter_cons in Hout. cbn [negb andb] in Hout.
  assert (Hweak : forall fs,
             globFilter cPackage cExcludes false fs matches = Ok out ->
             forall new,
               fs = filenames ++ new ->
               Forall (fun f => isHidden f = false /\
                         cPackage +:+ "/" +:+ f ∈ (cPackage +:+ "/" +:+ rest) :: matches) new ->
               exists added,
                 out = filenames ++ added
                 /\ Forall (fun f => isHidden f = false /\
                              cPackage +:+ "/" +:+ f ∈ (cPackage +:+ "/" +:+ rest) :: matches)
                      added).
  { intros fs Hfs new -> Hnew. destruct (IH _ Hfs) as (added & -> & Hadd).
    exists (new ++ added). rewrite app_assoc. split; [done|].
    apply Forall_app. split; [done|].
    eapply Forall_impl; [done|]. intros f [? ?]. split; [done|].
    by apply list_elem_of_further. }
  change (cPackage +:+ "/" +:+ rest) with (cPackage +:+ String "/" rest) in Hout.
  rewrite isHidden_below in Hout.
  destruct (isHidden rest) eqn:Hh.
  { apply (Hweak _ Hout []); [by rewrite app_nil_r | done]. }
  destruct (shouldExcludeMatch _ cPackage cExcludes) as [[]|e];
    cbn [mbind result_bind] in Hout; [| |done].
  { apply (Hweak _ Hout []); [by rewrite app_nil_r | done]. }
  rewrite HasPrefix_app in Hout. unfold sliceFrom in Hout.
  rewrite decide_True in Hout by (rewrite length_append; simpl; lia).
  cbn [mbind result_bind] in Hout.
  assert (Hdrop : dropString (String.length cPackage + 1)
                    (cPackage +:+ String "/" rest) = rest).
  { clear. replace (String.length cPackage + 1)%nat with (S (String.length cPackage)) by lia.
    induction cPackage as [|c p IH]; [done|]. by rewrite append_cons. }
  rewrite Hdrop in Hout.
  apply (Hweak _ Hout [rest]); [done|].
  apply Forall_singleton. split; [done | apply list_elem_of_here].
Qed.

End GlobHidden.

Lemma globFilter_skips_hidden_witness :
  exists added,
    ["main.go"] = [] ++ added
    /\ Forall (fun f => isHidden f = false
                        /\ "p" +:+ "/" +:+ f ∈ ["p/.gitignore"; "p/main.go"]) added.
Proof.
  apply (@globFilter_skips_hidden exampleGoLib "p" [] [] ["p/.gitignore"; "p/main.go"]
           ["main.go"]).
  - repeat constructor; by eexists.
  - reflexivity.
Defined.

(** ** Inputs, requirements and the other attributes *)

Lemma elem_of_appendNew_l {A} `{EqDecision A} (l : list A) (x y : A) :
  y ∈ l -> y ∈ appendNew l x.
Proof. intros Hy. unfold appendNew. case_decide; [done|]. apply elem_of_app. by left. Qed.

Lemma elem_of_appendNew_new {A} `{EqDecision A} (l : list A) (x : A) :
  x ∈ appendNew l x.
Proof.
  unfold appendNew. case_decide; [done|]. apply elem_of_app. right.
  apply list_elem_of_here.
Qed.

Lemma omap_snoc {A B} (f : A -> option B) (l : list A) (x : A) :
  omap f (l ++ [x]) = omap f l ++ match f x with Some y => [y] | None => [] end.
Proof. rewrite omap_app. simpl. by destruct (f x). Qed.

Section TargetInvariant.
Context `{Core} `{CoreMethods}.

Lemma inputLabels_addInputDependency t t' source :
  inputLabels t' ⊆ inputLabels t ++ omap BuildInput_Label [source] ->
  Labels t' = Labels t -> DeclaredDependencies t' = DeclaredDependencies t ->
  inputLabels t ⊆ DeclaredDependencies t ->
  inputLabels (addInputDependency t' source)
    ⊆ DeclaredDependencies (addInputDependency t' source)
  /\ Labels (addInputDependency t' source) = Labels t.
Proof.
  intros Hin Hl Hd Hinv. unfold addInputDependency. simpl in Hin.
  destruct (BuildInput_Label source) as [label|]; simpl.
  - split; [|done]. intros x Hx. rewrite Hd.
    assert (Hx' : x ∈ inputLabels t') by done.
    apply Hin in Hx'. apply elem_of_app in Hx' as [Hx'|Hx'].
    + apply elem_of_appendNew_l. by apply Hinv.
    + apply list_elem_of_singleton in Hx' as ->. apply elem_of_appendNew_new.
  - split; [|done]. rewrite Hd. intros x Hx. apply Hin in Hx.
    rewrite app_nil_r in Hx. by apply Hinv.
Qed.

Lemma targetCoherent_parsedInput st t' source memo :
  targetCoherent st ->
  inputLabels t' ⊆ inputLabels (stTarget st) ++ omap BuildInput_Label [source] ->
  Labels t' = Labels (stTarget st) ->
  DeclaredDependencies t' = DeclaredDependencies (stTarget st) ->
  targetCoherent (mkTargetState (addInputDependency t' source) (stAttributes st) memo).
Proof.
  intros [Hi Hr] Hin Hl Hd.
  destruct (inputLabels_addInputDependency (stTarget st) t' source Hin Hl Hd Hi)
    as [Hi' Hl'].
  split; simpl; [done | by rewrite Hl'].
Qed.

Lemma targetCoherent_runTargetCall env st c :
  targetCoherent st -> targetCoherent (runTargetCall env st c).
Proof.
  intros Hst. pose proof Hst as [Hi Hr].
  destruct st as [t attrs memo]. simpl in Hi, Hr.
  destruct c; cbn [runTargetCall stTarget stAttributes stMemo].
  - unfold AddSource.
    destruct (parseSource env memo src (PackageName (Label t))) as [[[source|e]|] memo'];
      simpl; [|done..].
    apply (targetCoherent_parsedInput (mkTargetState t attrs memo)); [done | | done..].
    unfold inputLabels. simpl. rewrite <- !app_assoc, !omap_app. simpl.
    intros x. rewrite !elem_of_app. destruct (BuildInput_Label source); set_solver.
  - unfold AddNamedSource.
    destruct (parseSource env memo src (PackageName (Label t))) as [[[source|e]|] memo'];
      simpl; [|done..].
    apply (targetCoherent_parsedInput (mkTargetState t attrs memo)); [done | | done..].
    unfold inputLabels. simpl. rewrite fmap_app, !omap_app. simpl.
    intros x. rewrite !elem_of_app. destruct (BuildInput_Label source); set_solver.
  - unfold AddData.
    destruct (parseSource env memo data (PackageName (Label t))) as [[[source|e]|] memo'];
      simpl; [|done..].
    apply (targetCoherent_parsedInput (mkTargetState t attrs memo)); [done | | done..].
    unfold inputLabels. simpl. rewrite !omap_app. simpl.
    intros x. rewrite !elem_of_app. destruct (BuildInput_Label source); set_solver.
  - done.
  - unfold AddDep. destruct (ParseBuildFileLabel _ _) as [[parsed file]|e]; simpl; [|done].
    split; simpl; [|done]. intros x Hx. apply elem_of_appendNew_l. by apply Hi.
  - unfold AddExportedDep.
    destruct (ParseBuildFileLabel _ _) as [[parsed file]|e]; simpl; [|done].
    split; simpl; [|done]. intros x Hx. apply elem_of_appendNew_l. by apply Hi.
  - unfold AddTool. destruct (ParseBuildFileLabel _ _) as [[parsed file]|e]; simpl; [|done].
    split; simpl; [|done]. intros x Hx. unfold inputLabels in Hx. simpl in Hx.
    rewrite app_assoc in Hx. apply elem_of_app in Hx as [Hx|Hx].
    + apply elem_of_appendNew_l. by apply Hi.
    + apply list_elem_of_singleton in Hx as ->. apply elem_of_appendNew_new.
  - unfold AddVis. case_decide; simpl; [done|].
    destruct (ParseBuildLabel _ _) as [parsed|e]; simpl; done.
  - split; simpl; [done|]. intros x Hx. apply elem_of_appendNew_l. by apply Hr.
  - done.
  - done.
  - done.
  - split; simpl; [done|]. intros x Hx. apply elem_of_app in Hx as [Hx|Hx].
    + apply elem_of_appendNew_l. by apply Hr.
    + apply list_elem_of_singleton in Hx as ->. apply elem_of_appendNew_new.
Qed.

Lemma targetCoherent_runTargetCalls env cs :
  forall st, targetCoherent st -> targetCoherent (runTargetCalls env st cs).
Proof.
  unfold runTargetCalls. induction cs as [|c cs IH]; intros st Hst; [done|].
  cbn [foldl]. apply IH. by apply targetCoherent_runTargetCall.
Qed.

(** X10: every label that the callbacks AddSource, AddNamedSource,
    AddData and AddTool put among the inputs of a target is also among its
    declared dependencies, after any sequence of the callbacks of the parse
    phase on a new target. *)
Theorem label_inputs_are_dependencies (env : ParseEnv) (memo : gmap string bool)
    (label : BuildLabel) (calls : list TargetCall) :
  let target := stTarget (runTargetCalls env (newTargetState label memo) calls) in
  inputLabels target ⊆ DeclaredDependencies target.
Proof.
  apply (targetCoherent_runTargetCalls env calls (newTargetState label memo)).
  split; simpl; set_solver.
Qed.

(** X11: requirements are implicit labels: after any sequence of the
    callbacks of the parse phase on a new target, every requirement that
    AddRequire has recorded is among the labels of the target. *)
Theorem requirements_are_labels (env : ParseEnv) (memo : gmap string bool)
    (label : BuildLabel) (calls : list TargetCall) :
  let st := runTargetCalls env (newTargetState label memo) calls in
  Requires (stAttributes st) ⊆ Labels (stTarget st).
Proof.
  apply (targetCoherent_runTargetCalls env calls (newTargetState label memo)).
  split; simpl; set_solver.
Qed.

End TargetInvariant.

(** ** Names of container settings and of included files *)

Lemma Replace_underscore_app a b :
  Replace (a +:+ b) "_" "" = Replace a "_" "" +:+ Replace b "_" "".
Proof.
  unfold Replace. induction a as [|c a IH]; [done|].
  rewrite append_cons. cbn [replaceFrom HasPrefix String.length Nat.sub].
  destruct (Ascii.eqb "_" c); rewrite IH; [by rewrite !append_nil_l|].
  by rewrite append_cons.
Qed.

Lemma Replace_underscore_none s :
  Contains s "_" = false -> Replace s "_" "" = s.
Proof.
  unfold Replace. induction s as [|c s IH]; [done|].
  cbn [Contains replaceFrom HasPrefix String.length Nat.sub].
  destruct (Ascii.eqb "_" c); [done|]. cbn [orb]. intros Hs. by rewrite IH.
Qed.

Lemma TrimLeft_slash_rest rest :
  HasPrefix rest "/" = false -> TrimLeft rest "/" = rest.
Proof.
  destruct rest as [|c rest]; [done|]. cbn [HasPrefix TrimLeft list_ascii_of_string existsb].
  rewrite (Ascii.eqb_sym c "/"). by destruct (Ascii.eqb "/" c).
Qed.

Section Names.
Context `{Core} `{CoreMethods}.

(** X12: SetContainerSetting ignores the underscores of the name of a
    setting: a name with an underscore anywhere sets what the name without
    it sets, and a name without underscores is passed on as it is. *)
Theorem SetContainerSetting_ignores_underscores (target : BuildTarget)
    (a b cName cValue : string) :
  SetContainerSetting target (a +:+ "_" +:+ b) cValue
  = SetContainerSetting target (a +:+ b) cValue
  /\ (Contains cName "_" = false ->
      SetContainerSetting target cName cValue
      = target_SetContainerSetting target cName cValue).
Proof.
  unfold SetContainerSetting. split.
  - rewrite !Replace_underscore_app. by rewrite append_nil_l.
  - intros Hc. by rewrite Replace_underscore_none.
Qed.

(** X13: GetIncludeFile panics on a label that does not start with [//];
    otherwise it cuts all the leading slashes, so that a further slash in
    front of the label changes nothing, registers the rest as a subinclude
    of the package and returns the rest joined to the repository root. *)
Theorem GetIncludeFile_resolves (pkg : Package) (cLabel rest : string) :
  (HasPrefix cLabel "//" = false -> GetIncludeFile pkg cLabel = None)
  /\ (HasPrefix cLabel "//" = true ->
      GetIncludeFile pkg ("/" +:+ cLabel) = GetIncludeFile pkg cLabel)
  /\ (HasPrefix rest "/" = false ->
      GetIncludeFile pkg ("//" +:+ rest)
      = Some (RegisterSubinclude pkg rest, path_Join RepoRootDir rest)).
Proof.
  unfold GetIncludeFile. split_and!.
  - by intros ->.
  - intros Hl. rewrite Hl.
    destruct cLabel as [|c1 [|c2 l]]; cbn [HasPrefix] in Hl; [done | |].
    { by destruct (Ascii.eqb "/" c1). }
    destruct (Ascii.eqb_spec "/" c1) as [<-|]; [|done].
    destruct (Ascii.eqb_spec "/" c2) as [<-|]; [|done].
    reflexivity.
  - intros Hr. change (HasPrefix ("//" +:+ rest) "//") with true. cbn [negb].
    change (TrimLeft ("//" +:+ rest) "/") with (TrimLeft rest "/").
    by rewrite TrimLeft_slash_rest.
Qed.

End Names.

Lemma GetIncludeFile_resolves_witness :
  @GetIncludeFile exampleCoreMethods (mkPackage "a" ∅ ∅) "a/defs.build_defs" = None
  /\ @GetIncludeFile exampleCoreMethods (mkPackage "a" ∅ ∅) "///build_defs/go.build_defs"
     = @GetIncludeFile exampleCoreMethods (mkPackage "a" ∅ ∅) "//build_defs/go.build_defs"
  /\ @GetIncludeFile exampleCoreMethods (mkPackage "a" ∅ ∅) "//build_defs/go.build_defs"
     = Some (mkPackage "a" ∅ ∅, "/repo/build_defs/go.build_defs").
Proof.
  pose proof (@GetIncludeFile_resolves exampleCoreMethods (mkPackage "a" ∅ ∅)) as Hg.
  split_and!.
  - apply (proj1 (Hg "a/defs.build_defs" "")). reflexivity.
  - apply (proj1 (proj2 (Hg "//build_defs/go.build_defs" ""))). reflexivity.
  - apply (proj2 (proj2 (Hg "" "build_defs/go.build_defs"))). reflexivity.
Defined.

(** ** The directory cache: where it writes *)

Lemma writesBelow_refl D fs : writesBelow D fs fs.
Proof. intros q _. by left. Qed.

Lemma writesBelow_trans D fs1 fs2 fs3 :
  writesBelow D fs1 fs2 -> writesBelow D fs2 fs3 -> writesBelow D fs1 fs3.
Proof.
  intros H12 H23 q Hq. destruct (H23 q Hq) as [->|[? ->]]; [by apply H12 | by right].
Qed.

Lemma writesBelow_RemoveAll D p fs :
  D `prefix_of` p -> writesBelow D fs (RemoveAll p fs).
Proof.
  intros HD q Hq. left. unfold RemoveAll. rewrite decide_False; [done|].
  intros Hp. apply Hq. by etrans.
Qed.

Lemma writesBelow_MkdirAll D p fs fs' :
  D `prefix_of` p \/ p `prefix_of` D ->
  MkdirAll p fs = Some fs' -> writesBelow D fs fs'.
Proof.
  intros HD Hm q Hq. unfold MkdirAll in Hm.
  destruct (existsb _ _); [done|]. injection Hm as <-.
  case_decide as Hp; [right | by left]. split; [|done].
  destruct HD as [HD|HD]; [|by etrans].
  destruct (prefix_weak_total q D p Hp HD); done.
Qed.

Lemma writesBelow_RecursiveCopyFile D from to mode link fs fs' :
  D `prefix_of` to ->
  RecursiveCopyFile from to mode link fs = Some fs' -> writesBelow D fs fs'.
Proof.
  intros HD Hc q Hq. unfold RecursiveCopyFile in Hc.
  assert (Hto : ¬ to `prefix_of` q) by (intros Hp; apply Hq; by etrans).
  assert (Hne : q ≠ to) by (by intros ->).
  destruct (fs from) as [[m content|]|]; [| |done].
  - destruct (fs (removelast to)) as [[]|]; [done| |done].
    destruct (fs to) as [[]|]; [destruct link; [done|] | done |];
      injection Hc as <-; left; unfold writeNode; by rewrite decide_False.
  - destruct (MkdirAll to fs) as [fs1|] eqn:Hm; [|done]. injection Hc as <-.
    rewrite decide_False by done.
    by apply (writesBelow_MkdirAll D to fs fs1); [left | |].
Qed.

Lemma writesBelow_incomparable D fs fs' q :
  writesBelow D fs fs' -> incomparable D q -> fs' q = fs q.
Proof. intros Hw [H1 H2]. by destruct (Hw q H1) as [?|[? _]]. Qed.

Section DirCacheFrames.
Context `{CacheCore}.
Context (cache : dirCache) (target : BuildTarget) (key : string).

Lemma writesBelow_StoreExtra out fs :
  writesBelow (getPath cache target key) fs (StoreExtra cache target key out fs).
Proof.
  unfold StoreExtra. set (C := getPath cache target key).
  assert (Hmade : forall made,
             (if decide (removelast out ≠ []) then MkdirAll (C ++ removelast out) fs
              else Some fs) = Some made -> writesBelow C fs made).
  { intros made. case_decide.
    - apply writesBelow_MkdirAll. left. by apply prefix_app_r.
    - intros [= <-]. apply writesBelow_refl. }
  destruct (if decide (removelast out ≠ []) then _ else _) as [fs1|];
    [|apply writesBelow_refl].
  specialize (Hmade fs1 eq_refl).
  assert (H2 : writesBelow C fs (RemoveAll (C ++ out) fs1)).
  { eapply writesBelow_trans; [done|]. apply writesBelow_RemoveAll. by apply prefix_app_r. }
  destruct (MkdirAll C (RemoveAll (C ++ out) fs1)) as [fs3|] eqn:H3; [|done].
  assert (H3' : writesBelow C fs fs3).
  { eapply writesBelow_trans; [done|]. eapply writesBelow_MkdirAll; [|done]. by left. }
  destruct (RecursiveCopyFile _ _ _ _ fs3) as [fs4|] eqn:H4; [|done].
  eapply writesBelow_trans; [done|].
  eapply writesBelow_RecursiveCopyFile; [|done]. by apply prefix_app_r.
Qed.

Lemma writesBelow_RetrieveExtra out fs :
  writesBelow (outDirOf target) fs (RetrieveExtra cache target key out fs).1.
Proof.
  unfold RetrieveExtra. set (O := outDirOf target).
  destruct (negb _); [apply writesBelow_refl|].
  destruct (MkdirAll (removelast (O ++ out)) fs) as [fs1|] eqn:H1;
    [|apply writesBelow_refl].
  assert (H1' : writesBelow O fs fs1).
  { eapply writesBelow_MkdirAll; [|done].
    destruct out as [|c out] using rev_ind.
    - right. rewrite app_nil_r. destruct O as [|x O'] using rev_ind; [done|].
      rewrite removelast_last. by apply prefix_app_r.
    - left. rewrite app_assoc, removelast_last. by apply prefix_app_r. }
  assert (H2 : writesBelow O fs (RemoveAll (O ++ out) fs1)).
  { eapply writesBelow_trans; [done|]. apply writesBelow_RemoveAll. by apply prefix_app_r. }
  destruct (RecursiveCopyFile _ _ _ _ _) as [fs3|] eqn:H3; [|done].
  simpl. eapply writesBelow_trans; [done|].
  eapply writesBelow_RecursiveCopyFile; [|done]. by apply prefix_app_r.
Qed.

Lemma writesBelow_retrieveAll outs :
  forall fs, writesBelow (outDirOf target) fs (retrieveAll cache target key outs fs).1.
Proof.
  induction outs as [|out outs IH]; intros fs; [apply writesBelow_refl|].
  cbn [retrieveAll]. pose proof (writesBelow_RetrieveExtra out fs) as Hx.
  destruct (RetrieveExtra cache target key out fs) as [fs1 []]; [|done].
  eapply writesBelow_trans; [done | apply IH].
Qed.

Lemma writesBelow_Store fs :
  writesBelow (getPath cache target key) fs (Store cache target key fs).
Proof.
  unfold Store. set (C := getPath cache target key).
  assert (Hloop : forall outs f, writesBelow C fs f ->
             writesBelow C fs (foldl (fun fs out => StoreExtra cache target key out fs)
                                 f outs)).
  { induction outs as [|out outs IH]; intros f Hf; [done|]. cbn [foldl].
    apply IH. eapply writesBelow_trans; [done | apply writesBelow_StoreExtra]. }
  apply Hloop. by apply writesBelow_RemoveAll.
Qed.

Lemma writesBelow_Retrieve fs :
  writesBelow (outDirOf target) fs (Retrieve cache target key fs).1.
Proof.
  unfold Retrieve. destruct (negb _); [apply writesBelow_refl|].
  apply writesBelow_retrieveAll.
Qed.

(** X14: Store writes into the directory of the key and nowhere else: a
    path that is not below that directory holds what it held, or it is one
    of the directories above the key that Store has made.  So what lies
    beside the directory of the key, the out-dir of the target above all,
    is as it was. *)
Theorem Store_writes_below_key (fs : FileSystem) :
  let C := getPath cache target key in
  writesBelow C fs (Store cache target key fs)
  /\ forall q, incomparable C q -> Store cache target key fs q = fs q.
Proof.
  intros C. split; [apply writesBelow_Store|].
  intros q Hq. apply (writesBelow_incomparable C fs _ q); [apply writesBelow_Store | done].
Qed.

(** X15: Retrieve writes into the out-dir of the target and nowhere else:
    a path that is not below the out-dir holds what it held, or it is one
    of the directories above the out-dir that Retrieve has made.  So the
    cache itself, when it lies beside the out-dir, is as it was. *)
Theorem Retrieve_writes_below_outdir (fs : FileSystem) :
  let O := outDirOf target in
  writesBelow O fs (Retrieve cache target key fs).1
  /\ forall q, incomparable O q -> (Retrieve cache target key fs).1 q = fs q.
Proof.
  intros O. split; [apply writesBelow_Retrieve|].
  intros q Hq. apply (writesBelow_incomparable O fs _ q); [apply writesBelow_Retrieve | done].
Qed.

End DirCacheFrames.

Section DirCacheKeys.
Context `{CacheCore}.

(** X16: entries under different keys do not meet.  When the encodings of
    two keys differ, Store under the one leaves every path at and below the
    directory of the other as it was, so a Retrieve under the other key
    that missed for want of its directory still misses. *)
Theorem Store_leaves_other_keys (cache : dirCache) (target : BuildTarget)
    (key key' : string) (fs : FileSystem) :
  encodeKey key ≠ encodeKey key' ->
  (forall q, getPath cache target key' `prefix_of` q ->
             Store cache target key fs q = fs q)
  /\ (fs (getPath cache target key') = None ->
      (Retrieve cache target key' (Store cache target key fs)).2 = false).
Proof.
  intros Hk.
  assert (Hother : forall q, getPath cache target key' `prefix_of` q ->
                             Store cache target key fs q = fs q).
  { intros q Hq.
    apply (writesBelow_incomparable _ _ _ _ (writesBelow_Store cache target key fs)).
    unfold getPath in *.
    set (D := Dir cache ++ cleanComps (PackageName (Label target))) in *.
    rewrite !app_assoc in *. fold D in Hq |- *.
    replace (D ++ [Name (Label target); encodeKey key])
      with ((D ++ [Name (Label target)]) ++ [encodeKey key])
      by (by rewrite <- app_assoc).
    replace (D ++ [Name (Label target); encodeKey key'])
      with ((D ++ [Name (Label target)]) ++ [encodeKey key']) in Hq
      by (by rewrite <- app_assoc).
    set (T := D ++ [Name (Label target)]) in *.
    destruct Hq as [r ->]. rewrite <- app_assoc. split.
    - intros Hp. apply prefix_app_inv in Hp.
      destruct Hp as [r' Hp]. simpl in Hp. congruence.
    - intros Hp. apply prefix_app_inv in Hp.
      destruct Hp as [r' Hp]. simpl in Hp. congruence. }
  split; [done|].
  intros Hnone. unfold Retrieve, PathExists.
  rewrite Hother by done. rewrite Hnone.
  rewrite bool_decide_eq_false_2 by (by intros [? ?]). done.
Qed.

End DirCacheKeys.

Lemma Store_leaves_other_keys_witness :
  (forall q, @getPath exampleCacheCore exampleCache zTarget "L" `prefix_of` q ->
             @Store exampleCacheCore exampleCache zTarget "K" (fsOfMap builtTree) q
             = fsOfMap builtTree q)
  /\ (fsOfMap builtTree (@getPath exampleCacheCore exampleCache zTarget "L") = None ->
      (@Retrieve exampleCacheCore exampleCache zTarget "L"
         (@Store exampleCacheCore exampleCache zTarget "K" (fsOfMap builtTree))).2 = false).
Proof.
  apply (@Store_leaves_other_keys exampleCacheCore exampleCache zTarget "K" "L"
           (fsOfMap builtTree)).
  discriminate.
Defined.

(** ** The directory cache: cleaning and replacing *)

Section DirCacheClean.
Context `{CacheCore}.

(** X17: Clean removes the entries of a target under all keys: after it
    Retrieve misses for every key and changes nothing, and what does not
    lie below the directory of the target in the cache is as it was. *)
Theorem Clean_then_Retrieve_misses (cache : dirCache) (target : BuildTarget)
    (key : string) (fs : FileSystem) :
  Retrieve cache target key (Clean cache target fs) = (Clean cache target fs, false)
  /\ forall q,
       ¬ (Dir cache ++ cleanComps (PackageName (Label target)) ++ [Name (Label target)])
            `prefix_of` q ->
       Clean cache target fs q = fs q.
Proof.
  split.
  - unfold Retrieve, PathExists, Clean, getPath, RemoveAll.
    rewrite decide_True.
    + rewrite bool_decide_eq_false_2 by (by intros [? ?]). done.
    + apply prefix_app, prefix_app. by exists [encodeKey key].
  - intros q Hq. unfold Clean, RemoveAll. by rewrite decide_False.
Qed.

End DirCacheClean.

Lemma sameFiles_refl fs : sameFiles fs fs.
Proof. done. Qed.

Lemma MkdirAll_same p fs fs' :
  sameFiles fs fs' -> sameOutcome (MkdirAll p fs) (MkdirAll p fs').
Proof.
  intros Hs. unfold MkdirAll.
  assert (He : existsb (fun q => isFile (fs q)) (prefixes p)
               = existsb (fun q => isFile (fs' q)) (prefixes p)).
  { generalize (prefixes p). intros l.
    induction l as [|x l IH]; [done|]. simpl. by rewrite (Hs x), IH. }
  rewrite He. destruct (existsb (fun q => isFile (fs' q)) (prefixes p)); [done|].
  intros q. simpl. case_decide; [done | apply Hs].
Qed.

Lemma RemoveAll_same p fs fs' :
  sameFiles fs fs' -> sameFiles (RemoveAll p fs) (RemoveAll p fs').
Proof. intros Hs q. unfold RemoveAll. case_decide; [done | apply Hs]. Qed.

Lemma RecursiveCopyFile_same from to mode link fs fs' :
  sameFiles fs fs' ->
  sameOutcome (RecursiveCopyFile from to mode link fs)
    (RecursiveCopyFile from to mode link fs').
Proof.
  intros Hs. unfold RecursiveCopyFile, sameOutcome.
  rewrite <- (Hs from), <- (Hs (removelast to)), <- (Hs to).
  destruct (fs from) as [[m content|]|]; [| |done].
  - destruct (fs (removelast to)) as [[]|]; [done| |done].
    destruct (fs to) as [[]|]; [destruct link; [done|] | done |];
      intros q; unfold writeNode; case_decide; done || apply Hs.
  - pose proof (MkdirAll_same to fs fs' Hs) as Hm.
    unfold sameOutcome in Hm.
    destruct (MkdirAll to fs) as [fs1|], (MkdirAll to fs') as [fs1'|]; try done.
    intros q. simpl. case_decide; [|apply Hm].
    rewrite <- (Hs (from ++ drop (length to) q)).
    destruct (fs (from ++ drop (length to) q)); [done | apply Hm].
Qed.

Section DirCacheReplace.
Context `{CacheCore}.
Context (cache : dirCache) (target : BuildTarget) (key : string).

Lemma StoreExtra_same out fs fs' :
  sameFiles fs fs' ->
  sameFiles (StoreExtra cache target key out fs) (StoreExtra cache target key out fs').
Proof.
  intros Hs. unfold StoreExtra. set (C := getPath cache target key).
  assert (Hmade : sameOutcome
            (if decide (removelast out ≠ []) then MkdirAll (C ++ removelast out) fs
             else Some fs)
            (if decide (removelast out ≠ []) then MkdirAll (C ++ removelast out) fs'
             else Some fs')).
  { case_decide; [by apply MkdirAll_same | done]. }
  unfold sameOutcome in Hmade.
  destruct (if decide (removelast out ≠ []) then MkdirAll _ fs else _) as [fs1|],
    (if decide (removelast out ≠ []) then MkdirAll _ fs' else _) as [fs1'|];
    try done.
  simpl in Hmade.
  pose proof (RemoveAll_same (C ++ out) fs1 fs1' Hmade) as H2.
  pose proof (MkdirAll_same C _ _ H2) as H3. unfold sameOutcome in H3.
  destruct (MkdirAll C (RemoveAll (C ++ out) fs1)) as [fs3|],
    (MkdirAll C (RemoveAll (C ++ out) fs1')) as [fs3'|]; try done.
  simpl in H3.
  pose proof (RecursiveCopyFile_same (outDirOf target ++ out) (C ++ out)
                (fileMode target) false fs3 fs3' H3) as H4.
  unfold sameOutcome in H4.
  destruct (RecursiveCopyFile _ _ _ _ fs3) as [fs4|],
    (RecursiveCopyFile _ _ _ _ fs3') as [fs4'|]; done.
Qed.

Lemma Store_same fs fs' :
  (forall q, ¬ getPath cache target key `prefix_of` q -> fs q = fs' q) ->
  sameFiles (Store cache target key fs) (Store cache target key fs').
Proof.
  intros Hout. unfold Store. set (C := getPath cache target key).
  assert (Hstart : sameFiles (RemoveAll C fs) (RemoveAll C fs')).
  { intros q. unfold RemoveAll. case_decide; [done | by apply Hout]. }
  revert Hstart. generalize (RemoveAll C fs) (RemoveAll C fs').
  induction (cacheArtifacts target) as [|out outs IH]; intros f f' Hf; [done|].
  cbn [foldl]. apply IH. by apply StoreExtra_same.
Qed.

(** X18: Store clears out what the directory of the key held: two file
    systems that differ only at and below that directory are the same
    after Store, so an older entry under the key leaves no trace in the new
    one. *)
Theorem Store_replaces_entry (fs fs' : FileSystem) :
  (forall q, ¬ getPath cache target key `prefix_of` q -> fs q = fs' q) ->
  sameFiles (Store cache target key fs) (Store cache target key fs').
Proof. apply Store_same. Qed.

(** X19: storing twice is storing once.  When the directories above the
    directory of the key exist, a second Store of the same target under the
    same key leaves the file system as the first one left it. *)
Theorem Store_idempotent (fs : FileSystem) :
  (forall q, strictPrefix q (getPath cache target key) -> fs q = Some CDir) ->
  sameFiles (Store cache target key (Store cache target key fs))
    (Store cache target key fs).
Proof.
  intros Habove. apply Store_same. intros q Hq.
  destruct (writesBelow_Store cache target key fs q Hq) as [->|[Hp ->]]; [done|].
  symmetry. apply Habove. split; [done|]. intros ->. by apply Hq.
Qed.

End DirCacheReplace.

Lemma Store_replaces_entry_witness :
  sameFiles
    (@Store exampleCacheCore exampleCache zTarget "K" (fsOfMap builtTree))
    (@Store exampleCacheCore exampleCache zTarget "K"
       (fsOfMap (<[ @getPath exampleCacheCore exampleCache zTarget "K" ++ ["stale"]
                    := CFile (octal 5 5 5) "old" ]> builtTree))).
Proof.
  apply (@Store_replaces_entry exampleCacheCore exampleCache zTarget "K").
  intros q Hq. unfold fsOfMap. rewrite lookup_insert_ne; [done|].
  intros <-. apply Hq. by apply prefix_app_r.
Defined.

(** ** Making the cache *)

Section NewDirCacheProperties.
Context `{CacheCore}.

(** X20: newDirCache panics on an empty directory name, which it
    indexes.  When it returns, the directory of the cache is a directory of
    the file system and nothing but it and the directories above it has
    been touched; an absolute name is taken as it is, a relative name
    without [..] lies below the repository root; and the cleaner is started
    exactly when one is configured. *)
Theorem newDirCache_makes_directory (config : CacheConfig) (fs : FileSystem) :
  (CacheDir config = "" -> newDirCache config fs = inl CacheDirIndexOutOfRange)
  /\ (forall cache fs' cleaner,
        newDirCache config fs = inr (cache, fs', cleaner) ->
        fs' (Dir cache) = Some CDir
        /\ (forall q, ¬ q `prefix_of` Dir cache -> fs' q = fs q)
        /\ (HasPrefix (CacheDir config) "/" = true ->
            Dir cache = cleanComps (CacheDir config))
        /\ (HasPrefix (CacheDir config) "/" = false ->
            ".." ∉ splitSlash (CacheDir config) ->
            Dir cache = RepoRoot ++ cleanComps (CacheDir config))
        /\ (is_Some cleaner <-> DirCacheCleaner config ≠ "")).
Proof.
  unfold newDirCache. split; [by intros ->|].
  intros cache fs' cleaner. destruct (CacheDir config) as [|c s] eqn:Hdir; [done|].
  set (dir := if Ascii.eqb c "/" then _ else _).
  unfold MkdirAll. destruct (existsb _ _); [done|].
  intros [= <- <- <-]. cbn [Dir]. split_and!.
  - by rewrite decide_True.
  - intros q Hq. by rewrite decide_False.
  - cbn [HasPrefix]. rewrite (Ascii.eqb_sym "/" c). subst dir.
    by destruct (Ascii.eqb c "/").
  - cbn [HasPrefix]. rewrite (Ascii.eqb_sym "/" c). subst dir.
    destruct (Ascii.eqb c "/"); [done|]. intros _ Hdd.
    unfold joinPath. rewrite foldl_cleanStep by done.
    rewrite rev_app_distr, !rev_involutive.
    by rewrite cleanComps_noDotDot.
  - case_decide as Hc; split.
    + done.
    + by eexists.
    + by intros [? ?].
    + intros Hn. exfalso. apply Hn. by destruct (decide (DirCacheCleaner config = "")).
Qed.

End NewDirCacheProperties.

Lemma newDirCache_makes_directory_witness :
  @newDirCache exampleCacheCore (mkCacheConfig "" "" "" "") (fsOfMap unbuiltTree)
  = inl CacheDirIndexOutOfRange
  /\ exists cache fs' cleaner,
       @newDirCache exampleCacheCore exampleConfig (fsOfMap unbuiltTree)
       = inr (cache, fs', cleaner)
       /\ Dir cache = ["repo"; ".plz-cache"]
       /\ fs' ["repo"; ".plz-cache"] = Some CDir
       /\ (forall q, ¬ q `prefix_of` ["repo"; ".plz-cache"] -> fs' q = fsOfMap unbuiltTree q)
       /\ is_Some cleaner.
Proof.
  split.
  - apply (proj1 (@newDirCache_makes_directory exampleCacheCore
                    (mkCacheConfig "" "" "" "") (fsOfMap unbuiltTree))).
    reflexivity.
  - destruct (@newDirCache exampleCacheCore exampleConfig (fsOfMap unbuiltTree))
      as [e|[[cache fs'] cleaner]] eqn:Hnew; [by vm_compute in Hnew|].
    destruct (proj2 (@newDirCache_makes_directory exampleCacheCore exampleConfig
                       (fsOfMap unbuiltTree)) cache fs' cleaner Hnew)
      as (Hdir & Hframe & _ & Hrel & Hcleaner).
    assert (Hcache : Dir cache = ["repo"; ".plz-cache"]).
    { apply Hrel; [reflexivity|]. apply (bool_decide_unpack _). by vm_compute. }
    exists cache, fs', cleaner. rewrite Hcache in Hdir, Hframe.
    split_and!; [done | done | done | done |]. by apply Hcleaner.
Defined.

Lemma exampleCache_above q :
  strictPrefix q (@getPath exampleCacheCore exampleCache zTarget "K") ->
  fsOfMap (<[ ["cache"; "y"] := CDir ]> (<[ ["cache"; "y"; "z"] := CDir ]> builtTree)) q
  = Some CDir.
Proof.
  intros Hq. apply strictPrefix_removelast in Hq as [_ Hq].
  apply elem_of_prefixes in Hq. vm_compute in Hq.
  repeat (apply elem_of_cons in Hq as [->|Hq]; [reflexivity|]).
  by inversion Hq.
Qed.

Lemma Store_idempotent_witness :
  sameFiles
    (@Store exampleCacheCore exampleCache zTarget "K"
       (@Store exampleCacheCore exampleCache zTarget "K"
          (fsOfMap (<[ ["cache"; "y"] := CDir ]>
                      (<[ ["cache"; "y"; "z"] := CDir ]> builtTree)))))
    (@Store exampleCacheCore exampleCache zTarget "K"
       (fsOfMap (<[ ["cache"; "y"] := CDir ]>
                   (<[ ["cache"; "y"; "z"] := CDir ]> builtTree)))).
Proof.
  apply (@Store_idempotent exampleCacheCore exampleCache zTarget "K").
  apply exampleCache_above.
Defined.

(** ** Glob: exclude patterns *)

Section ExcludePatterns.
Context `{GoLib}.

Lemma shouldExcludeMatch_decided match_ packageName cExcludes r :
  r ≠ Ok false ->
  foldl (fun acc excl =>
           found ← acc;
           if (found : bool) then Ok true
           else filepathMatch (path_Join packageName excl) match_)
        r cExcludes = r.
Proof.
  intros Hr. induction cExcludes as [|excl l IH]; [done|]. cbn [foldl].
  destruct r as [[]|e]; [apply IH | done | apply IH].
Qed.

(** X21: shouldExcludeMatch tries the exclude patterns in their order,
    each joined to the package, and the first one that does not simply
    fail to match decides: the match is excluded when that pattern matches
    it, and the call panics when that pattern is malformed.  A malformed
    pattern after a matching one is never looked at.  When all patterns
    fail to match, the match is kept. *)
Theorem shouldExcludeMatch_first_decides (match_ packageName : string)
    (cExcludes : list string) :
  (Forall (fun excl => filepathMatch (path_Join packageName excl) match_ = Ok false)
     cExcludes ->
   shouldExcludeMatch match_ packageName cExcludes = Ok false)
  /\ (forall pre excl post,
        cExcludes = pre ++ excl :: post ->
        Forall (fun excl => filepathMatch (path_Join packageName excl) match_ = Ok false)
          pre ->
        filepathMatch (path_Join packageName excl) match_ ≠ Ok false ->
        shouldExcludeMatch match_ packageName cExcludes
        = filepathMatch (path_Join packageName excl) match_).
Proof.
  unfold shouldExcludeMatch.
  assert (Hpre : forall pre rest,
             Forall (fun excl => filepathMatch (path_Join packageName excl) match_
                                 = Ok false) pre ->
             foldl (fun acc excl =>
                      found ← acc;
                      if (found : bool) then Ok true
                      else filepathMatch (path_Join packageName excl) match_)
                   (Ok false) (pre ++ rest)
             = foldl (fun acc excl =>
                        found ← acc;
                        if (found : bool) then Ok true
                        else filepathMatch (path_Join packageName excl) match_)
                     (Ok false) rest).
  { intros pre rest. induction 1 as [|excl pre Hx _ IH]; [done|].
    cbn [app foldl mbind result_bind]. by rewrite Hx. }
  split.
  - intros Hall. rewrite <- (app_nil_r cExcludes). by rewrite Hpre.
  - intros pre excl post -> Hall Hx. rewrite Hpre by done.
    cbn [foldl mbind result_bind]. by apply shouldExcludeMatch_decided.
Qed.

End ExcludePatterns.

(** ** The rules for protocol buffers *)

Lemma splitAt_app sep a b :
  splitAt sep a = None -> splitAt sep (a +:+ String sep b) = Some (a, b).
Proof.
  induction a as [|c a IH]; intros Ha.
  - rewrite append_nil_l. cbn [splitAt]. by rewrite Ascii.eqb_refl.
  - rewrite append_cons. cbn [splitAt] in Ha |- *.
    destruct (Ascii.eqb c sep); [done|].
    destruct (splitAt sep a) as [[]|]; [done|]. by rewrite IH.
Qed.

Lemma splitAt_Contains sep a :
  Contains a (String sep "") = false -> splitAt sep a = None.
Proof.
  induction a as [|c a IH]; [done|]. cbn [Contains HasPrefix splitAt].
  rewrite (Ascii.eqb_sym c sep). destruct (Ascii.eqb sep c); [done|].
  cbn [orb]. intros Ha. by rewrite IH.
Qed.

(** X22: _parent_rule undoes the naming of the rule of a language.  For a
    name without [#], the parent of the rule [_name#language] is the name
    without its leading underscores, and so the name itself when it does
    not start with an underscore. *)
Theorem parent_rule_of_lang_name (name language : string) :
  Contains name "#" = false ->
  _parent_rule (lang_name name language) = TrimLeft name "_"
  /\ (HasPrefix name "_" = false -> _parent_rule (lang_name name language) = name).
Proof.
  intros Hn.
  assert (Hp : _parent_rule (lang_name name language) = TrimLeft name "_").
  { unfold _parent_rule, lang_name, str_partition.
    change ("_" +:+ name +:+ "#" +:+ language)
      with (String "_" name +:+ String "#" language).
    rewrite splitAt_app.
    - reflexivity.
    - cbn [splitAt]. change (Ascii.eqb "_" "#") with false. cbv iota.
      by rewrite splitAt_Contains. }
  split; [done|]. intros Hu. rewrite Hp.
  destruct name as [|c name]; [done|]. cbn [HasPrefix] in Hu.
  cbn [TrimLeft list_ascii_of_string existsb].
  rewrite (Ascii.eqb_sym c "_"). by destruct (Ascii.eqb "_" c).
Qed.

Lemma parent_rule_of_lang_name_witness :
  _parent_rule (lang_name "service" "go") = TrimLeft "service" "_"
  /\ (HasPrefix "service" "_" = false ->
      _parent_rule (lang_name "service" "go") = "service").
Proof. apply (parent_rule_of_lang_name "service" "go"). reflexivity. Defined.

Lemma file_srcs_filter srcs files :
  file_srcs srcs = Some files ->
  files = filter (fun src => is_file_src src = Some true) srcs.
Proof.
  revert files. induction srcs as [|src srcs IH]; intros files; cbn [file_srcs].
  - by intros [= <-].
  - destruct (is_file_src src) as [keep|] eqn:Hk; [|done]. cbn [mbind option_bind].
    destruct (file_srcs srcs) as [rest|]; [|done]. cbn [mbind option_bind].
    intros [= <-]. rewrite (IH rest eq_refl).
    destruct keep.
    + by rewrite filter_cons_True.
    + rewrite filter_cons_False; [done|]. by rewrite Hk.
Qed.

Lemma filter_id_Forall {A} (P : A -> Prop) `{!forall x, Decision (P x)} (l : list A) :
  filter P l = l <-> Forall P l.
Proof.
  split.
  - intros Hf. rewrite <- Hf. apply Forall_forall. intros x Hx.
    by apply list_elem_of_filter in Hx as [? _].
  - induction 1 as [|x l Hx _ IH]; [done|]. by rewrite filter_cons_True, IH.
Qed.

(** X23: proto_library needs a post-build function exactly when one of
    the sources is a rule, that is, starts with a colon or a slash; the
    other sources are the file sources, in their order.  An empty source
    raises the error of the index. *)
Theorem need_post_build_for_rules (srcs : list string) :
  (file_srcs srcs = None <-> "" ∈ srcs)
  /\ (forall need, need_post_build srcs = Some need ->
        (need = true
         <-> exists src, src ∈ srcs
                         /\ (HasPrefix src ":" = true \/ HasPrefix src "/" = true))).
Proof.
  assert (Hnone : file_srcs srcs = None <-> "" ∈ srcs).
  { induction srcs as [|src srcs IH]; cbn [file_srcs].
    - split; [done | by inversion 1].
    - destruct src as [|c src]; cbn [is_file_src mbind option_bind].
      + split; [intros _; apply list_elem_of_here | done].
      + destruct (file_srcs srcs) as [rest|]; cbn [mbind option_bind].
        * split; [done|]. intros Hin. apply elem_of_cons in Hin as [?|Hin]; [done|].
          by apply IH in Hin.
        * split; [|done]. intros _. apply list_elem_of_further. by apply IH. }
  split; [done|].
  intros need. unfold need_post_build.
  destruct (file_srcs srcs) as [files|] eqn:Hf; [|done]. cbn [mbind option_bind].
  intros [= <-].
  assert (Hns : "" ∉ srcs).
  { intros Hin. apply Hnone in Hin. by rewrite Hin in Hf. }
  rewrite bool_decide_eq_true, (file_srcs_filter _ _ Hf), filter_id_Forall.
  rewrite <- Exists_Forall_neg
    by (intros x; destruct (decide (is_file_src x = Some true)); auto).
  rewrite Exists_exists. split.
  - intros (src & Hin & Hsrc). exists src. split; [done|].
    destruct src as [|c src]; [done|]. cbn [is_file_src HasPrefix] in *.
    rewrite !(Ascii.eqb_sym _ c).
    destruct (Ascii.eqb c ":"), (Ascii.eqb c "/"); auto.
  - intros (src & Hin & Hsrc). exists src. split; [done|].
    destruct src as [|c src]; [done|]. cbn [is_file_src HasPrefix] in *.
    rewrite !(Ascii.eqb_sym _ c) in Hsrc.
    destruct (Ascii.eqb c ":"), (Ascii.eqb c "/"); naive_solver.
Qed.

Lemma append_nil_r (s : string) : s +:+ "" = s.
Proof. induction s as [|c s IH]; [done|]. rewrite append_cons. by f_equal. Qed.

Lemma HasPrefix_proto_straddle x :
  x ≠ "" -> HasPrefix x ".proto" = false ->
  HasPrefix (x +:+ ".proto") ".proto" = false.
Proof.
  intros Hne Hx.
  destruct x as [|c1 [|c2 [|c3 [|c4 [|c5 [|c6 x]]]]]]; [done|..];
    rewrite ?append_cons, ?append_nil_l; cbn [HasPrefix] in Hx |- *;
    repeat match goal with
           | |- context [Ascii.eqb ?a ?b] =>
               destruct (Ascii.eqb_spec a b); subst; try discriminate; try done
           end.
Qed.

Lemma Replace_proto_suffix base ext :
  Contains base ".proto" = false ->
  Replace (base +:+ ".proto") ".proto" ext = base +:+ ext.
Proof.
  unfold Replace. induction base as [|c base IH]; intros Hb.
  - rewrite !append_nil_l. cbn. by rewrite append_nil_r.
  - cbn [Contains] in Hb. apply orb_false_elim in Hb as [Hp Hb].
    rewrite !append_cons. cbn [replaceFrom].
    rewrite <- append_cons, HasPrefix_proto_straddle by done.
    by rewrite IH.
Qed.

(** X24: the outputs that proto_library declares for an extension.  For
    sources that end in [.proto] and have no other [.proto] in their name,
    the comprehension yields, source by source and extension by extension,
    the name of the source with [.proto] exchanged for the extension; a
    language that does not use the file names declares nothing. *)
Theorem extension_outs_of_proto_files (bases exts : list string) :
  Forall (fun base => Contains base ".proto" = false) bases ->
  extension_outs true ((fun base => base +:+ ".proto") <$> bases) exts
  = bases ≫= (fun base => (fun ext => base +:+ ext) <$> exts)
  /\ extension_outs false ((fun base => base +:+ ".proto") <$> bases) exts = [].
Proof.
  intros Hall. split; [|done]. unfold extension_outs.
  induction Hall as [|base bases Hb _ IH]; [done|].
  rewrite fmap_cons, !bind_cons.
  f_equal; [|done]. apply list_fmap_ext. intros _ ext _.
  by apply Replace_proto_suffix.
Qed.

Lemma extension_outs_of_proto_files_witness :
  extension_outs true ((fun base => base +:+ ".proto") <$> ["api/service"; "api/types"])
    [".pb.cc"; ".grpc.pb.cc"]
  = ["api/service"; "api/types"] ≫= (fun base => (fun ext => base +:+ ext)
                                                   <$> [".pb.cc"; ".grpc.pb.cc"])
  /\ extension_outs false
       ((fun base => base +:+ ".proto") <$> ["api/service"; "api/types"])
       [".pb.cc"; ".grpc.pb.cc"] = [].
Proof.
  apply (extension_outs_of_proto_files ["api/service"; "api/types"]
           [".pb.cc"; ".grpc.pb.cc"]).
  repeat constructor.
Defined.

Section MergeDictsProperties.
Context {V : Type} (truthy : V -> bool).

Lemma merge_list_lookup (b : gmap string V) l :
  forall k,
    mapM (fun x => (fun v => (x, v)) <$> b !! x) l = Some k ->
    forall key, (list_to_map k : gmap string V) !! key
                = if decide (key ∈ l) then b !! key else None.
Proof.
  induction l as [|x l IH]; intros k Hk key.
  - injection Hk as <-. rewrite decide_False by (by inversion 1). done.
  - cbn [mapM] in Hk. destruct (b !! x) as [v|] eqn:Hx; [|done].
    cbn [fmap option_fmap option_map mbind option_bind] in Hk.
    destruct (mapM _ l) as [k'|] eqn:Hk'; [|done].
    cbn [mbind option_bind mret option_ret] in Hk. injection Hk as <-.
    cbn [list_to_map foldr].
    destruct (decide (key = x)) as [->|Hne].
    + rewrite lookup_insert_eq, decide_True by apply list_elem_of_here. by rewrite Hx.
    + rewrite lookup_insert_ne by done. rewrite (IH k' eq_refl key).
      destruct (decide (key ∈ l)).
      * rewrite decide_True by (by apply list_elem_of_further). done.
      * rewrite decide_False; [done|]. intros Hin.
        apply elem_of_cons in Hin as [?|?]; done.
Qed.

Lemma merge_dict_lookup (b : gmap string V) items :
  NoDup items.*1 ->
  forall k,
    mapM (fun kv : string * V =>
            if truthy kv.2 then Some kv
            else (fun w => (kv.1, w)) <$> b !! kv.1) items = Some k ->
    forall key, (list_to_map k : gmap string V) !! key
                = (list_to_map items : gmap string V) !! key
                    ≫= (fun v => if truthy v then Some v else b !! key).
Proof.
  induction items as [|[x v] items IH]; intros Hnd k Hk key.
  - injection Hk as <-. done.
  - rewrite fmap_cons in Hnd. apply NoDup_cons in Hnd as [Hx Hnd].
    cbn [mapM] in Hk. cbn [fst snd] in Hk.
    destruct (if truthy v then Some (x, v) else (fun w => (x, w)) <$> b !! x)
      as [[x' v']|] eqn:Hv; [|done].
    cbn [mbind option_bind] in Hk.
    destruct (mapM _ items) as [k'|] eqn:Hk'; [|done].
    cbn [mbind option_bind mret option_ret] in Hk. injection Hk as <-.
    assert (Hx' : x' = x /\ Some v' = if truthy v then Some v else b !! x).
    { destruct (truthy v); [by injection Hv as <- <-|].
      destruct (b !! x); [by injection Hv as <- <-| done]. }
    destruct Hx' as [-> Hv'].
    cbn [list_to_map foldr].
    destruct (decide (key = x)) as [->|Hne].
    + by rewrite !lookup_insert_eq.
    + rewrite !lookup_insert_ne by done. by apply IH.
Qed.

(** X25: _merge_dicts returns a dictionary with the keys of [a] and no
    others.  For a list of names the values are those of [b], and the call
    fails when [b] lacks one of the names.  For a dictionary a value that
    is set wins and a value that is not set is taken from [b], and the call
    fails when [b] lacks the key of a value that is not set. *)
Theorem merge_dicts_keeps_keys_of_a (b : gmap string V) (l : list string)
    (d : gmap string V) :
  (_merge_dicts truthy (LanguageList l) b = None <-> exists x, x ∈ l /\ b !! x = None)
  /\ (forall r, _merge_dicts truthy (LanguageList l) b = Some r ->
        forall key, r !! key = if decide (key ∈ l) then b !! key else None)
  /\ (_merge_dicts truthy (LanguageDict d) b = None
      <-> exists key v, d !! key = Some v /\ truthy v = false /\ b !! key = None)
  /\ (forall r, _merge_dicts truthy (LanguageDict d) b = Some r ->
        forall key, r !! key
                    = d !! key ≫= (fun v => if truthy v then Some v else b !! key)).
Proof.
  unfold _merge_dicts. split_and!.
  - rewrite fmap_None, mapM_None, Exists_exists. split.
    + intros (x & Hin & Hx). exists x. split; [done|]. by destruct (b !! x).
    + intros (x & Hin & Hx). exists x. split; [done|]. by rewrite Hx.
  - intros r Hr. apply fmap_Some in Hr as (k & Hk & ->). by apply merge_list_lookup.
  - rewrite fmap_None, mapM_None, Exists_exists. split.
    + intros ([key v] & Hin & Hx). apply elem_of_map_to_list in Hin.
      exists key, v. cbn [fst snd] in Hx.
      destruct (truthy v); [done|]. by destruct (b !! key).
    + intros (key & v & Hd & Ht & Hb). exists (key, v). split.
      * by apply elem_of_map_to_list.
      * cbn [fst snd]. by rewrite Ht, Hb.
  - intros r Hr key. apply fmap_Some in Hr as (k & Hk & ->).
    rewrite (merge_dict_lookup b (map_to_list d) (NoDup_fst_map_to_list d) k Hk key).
    by rewrite list_to_map_to_list.
Qed.

End MergeDictsProperties.

(** ** Path mappings for Go, from the rule to the callback *)

Lemma labelSuffix_go_map mapping :
  labelSuffix "proto:go-map:" ("proto:go-map: " +:+ mapping) = TrimSpace mapping.
Proof. reflexivity. Qed.

(** X26: the label of a Go path mapping that proto_library puts on a
    rule comes back from GetLabels as the mapping itself: GetLabels cuts
    the prefix [proto:go-map:] and the space that follows it.  This holds
    for a target that is being built and carries the label, when the
    mapping has no white space at its ends. *)
Theorem go_map_label_comes_back (pkg : Package) (cTarget : string)
    (target : BuildTarget) (base_path src name : string) :
  let mapping := base_path +:+ "/" +:+ src +:+ "=" +:+ base_path +:+ "/" +:+ name in
  Targets pkg !! cTarget = Some target -> state target = Building ->
  go_map_label base_path src name ∈ Labels target ->
  TrimSpace mapping = mapping ->
  exists ret, GetLabels pkg cTarget "proto:go-map:" = Ok ret /\ mapping ∈ ret.
Proof.
  intros mapping Hm Hs Hl Ht. unfold GetLabels, getTargetPost. rewrite Hm, Hs.
  rewrite decide_False by (simpl; lia). cbn [mbind result_bind].
  rewrite decide_False by (by intros ?).
  eexists. split; [done|].
  rewrite merge_sort_Permutation, elem_of_elements, elem_of_getLabels. right.
  exists target, (go_map_label base_path src name).
  split_and!; [constructor | done | done |].
  transitivity (TrimSpace mapping); [by rewrite Ht|].
  symmetry. apply labelSuffix_go_map.
Qed.

Lemma go_map_label_comes_back_witness :
  exists ret, GetLabels protoPackage "_service#protoc" "proto:go-map:" = Ok ret
              /\ "api/service.proto=api/service" ∈ ret.
Proof.
  apply (go_map_label_comes_back protoPackage "_service#protoc" protoTarget
           "api" "service.proto" "service").
  - reflexivity.
  - reflexivity.
  - apply list_elem_of_here.
  - reflexivity.
Defined.

(** ** Glob: several include patterns *)

Section GlobSeveral.
Context `{GoLib}.

Lemma globFilter_acc cPackage cExcludes includeHidden matches :
  forall filenames,
    globFilter cPackage cExcludes includeHidden filenames matches
    = (added ← globFilter cPackage cExcludes includeHidden [] matches;
       Ok (filenames ++ added)).
Proof.
  induction matches as [|m matches IH]; intros filenames.
  { cbn. by rewrite app_nil_r. }
  rewrite !globFilter_cons.
  destruct (negb includeHidden && isHidden m).
  { rewrite IH, (IH []). done. }
  destruct (shouldExcludeMatch m cPackage cExcludes) as [[]|e];
    cbn [mbind result_bind]; [by rewrite IH, (IH []) | | done].
  destruct (HasPrefix m cPackage).
  - destruct (sliceFrom _ m) as [f|e]; cbn [mbind result_bind]; [|done].
    rewrite IH, (IH ([] ++ [f])).
    destruct (globFilter cPackage cExcludes includeHidden [] matches) as [fs|e];
      cbn [mbind result_bind]; [|done].
    by rewrite <- app_assoc.
  - rewrite IH, (IH ([] ++ [m])).
    destruct (globFilter cPackage cExcludes includeHidden [] matches) as [fs|e];
      cbn [mbind result_bind]; [|done].
    by rewrite <- app_assoc.
Qed.

Lemma Glob_globStep env memo cPackage cIncludes cExcludes includeHidden :
  Glob env memo cPackage cIncludes cExcludes includeHidden
  = foldl (globStep env cPackage cExcludes includeHidden) (Ok [], memo) cIncludes.
Proof. reflexivity. Qed.

Lemma globStep_panicked env cPackage cExcludes includeHidden cIncludes e memo :
  foldl (globStep env cPackage cExcludes includeHidden) (Panic e, memo) cIncludes
  = (Panic e, memo).
Proof. induction cIncludes as [|i l IH]; [done|]. cbn [foldl]. apply IH. Qed.

Lemma Glob_acc env cPackage cExcludes includeHidden cIncludes :
  forall filenames memo,
    foldl (globStep env cPackage cExcludes includeHidden) (Ok filenames, memo) cIncludes
    = ((added ← (foldl (globStep env cPackage cExcludes includeHidden)
                   (Ok [], memo) cIncludes).1;
        Ok (filenames ++ added)),
       (foldl (globStep env cPackage cExcludes includeHidden) (Ok [], memo) cIncludes).2).
Proof.
  induction cIncludes as [|include cIncludes IH]; intros filenames memo.
  { cbn. by rewrite app_nil_r. }
  cbn [foldl]. unfold globStep at 2 4 6.
  destruct (glob env memo cPackage include) as [[matches|e] memo1].
  - rewrite (globFilter_acc _ _ _ _ filenames).
    destruct (globFilter cPackage cExcludes includeHidden [] matches) as [fs|e];
      cbn [mbind result_bind].
    + rewrite (IH (filenames ++ fs)), (IH fs).
      destruct (foldl _ (Ok [], memo1) cIncludes) as [[r|e] m2];
        cbn [fst snd mbind result_bind]; [|done].
      by rewrite <- app_assoc.
    + by rewrite !globStep_panicked.
  - by rewrite !globStep_panicked.
Qed.

(** X27: Glob with several include patterns returns the names of the
    first pattern followed by those of the next, and so on, without
    removing a name that two patterns both yield: with a memo table that
    agrees with the file system, the result for the patterns [cIncludes1]
    followed by [cIncludes2] is the result for [cIncludes1] followed by the
    result for [cIncludes2]. *)
Theorem Glob_concatenates (env : ParseEnv) (memo : gmap string bool)
    (cPackage : string) (cIncludes1 cIncludes2 cExcludes : list string)
    (includeHidden : bool) (filenames1 filenames2 : list string) :
  memoValid env memo ->
  (Glob env memo cPackage cIncludes1 cExcludes includeHidden).1 = Ok filenames1 ->
  (Glob env memo cPackage cIncludes2 cExcludes includeHidden).1 = Ok filenames2 ->
  (Glob env memo cPackage (cIncludes1 ++ cIncludes2) cExcludes includeHidden).1
  = Ok (filenames1 ++ filenames2).
Proof.
  intros Hm H1 H2.
  assert (Hv1 : memoValid env (Glob env memo cPackage cIncludes1 cExcludes includeHidden).2).
  { apply (Glob_memo_fold env cPackage cExcludes includeHidden cIncludes1 (Ok [])
             memo memo Hm Hm). }
  rewrite (Glob_globStep _ _ _ (cIncludes1 ++ cIncludes2)), foldl_app.
  rewrite <- Glob_globStep.
  destruct (Glob env memo cPackage cIncludes1 cExcludes includeHidden) as [r1 m1].
  simpl in H1, Hv1. subst r1.
  rewrite Glob_acc. cbn [fst]. rewrite <- Glob_globStep.
  assert (Heq : (Glob env m1 cPackage cIncludes2 cExcludes includeHidden).1
                = (Glob env memo cPackage cIncludes2 cExcludes includeHidden).1).
  { apply (Glob_memo_fold env cPackage cExcludes includeHidden cIncludes2 (Ok [])
             m1 memo Hv1 Hm). }
  by rewrite Heq, H2.
Qed.

End GlobSeveral.

Lemma Glob_concatenates_witness :
  (@Glob exampleGoLib globEnv ∅ "p" (["main.go"] ++ ["**/*.go"]) [] false).1
  = Ok (["main.go"] ++ ["main.go"]).
Proof.
  apply (@Glob_concatenates exampleGoLib globEnv ∅ "p" ["main.go"] ["**/*.go"] [] false).
  - apply memoValid_empty.
  - reflexivity.
  - reflexivity.
Defined.

(** ** AddTarget, twice *)

(** X28: a name is taken once and for all.  After addTarget has
    registered a target, every further addTarget with that name on the
    package that it left panics with DuplicateTarget, whatever the graph
    and the other arguments are. *)
Theorem addTarget_twice_is_duplicate (g g' g2 : BuildGraph) (pkg pkg' : Package)
    (target : BuildTarget) (name cmd testCmd cmd2 testCmd2 : string)
    (binary test needsTransitiveDeps outputIsComplete containerise
     noTestOutput skipCache testOnly : bool)
    (binary2 test2 needsTransitiveDeps2 outputIsComplete2 containerise2
     noTestOutput2 skipCache2 testOnly2 : bool)
    (flakiness buildTimeout testTimeout flakiness2 buildTimeout2 testTimeout2 : Z)
    (buildingDescription buildingDescription2 : string) :
  addTarget g pkg name cmd testCmd binary test needsTransitiveDeps
    outputIsComplete containerise noTestOutput skipCache testOnly
    flakiness buildTimeout testTimeout buildingDescription = Ok (g', pkg', target) ->
  addTarget g2 pkg' name cmd2 testCmd2 binary2 test2 needsTransitiveDeps2
    outputIsComplete2 containerise2 noTestOutput2 skipCache2 testOnly2
    flakiness2 buildTimeout2 testTimeout2 buildingDescription2
  = Panic DuplicateTarget.
Proof.
  intros Hadd. unfold addTarget in Hadd. cbv zeta in Hadd.
  destruct (decide (is_Some (Targets pkg !! name))); [done|].
  destruct (decide (_ /\ _)); [done|].
  destruct (decide (_ /\ _)); [done|].
  injection Hadd as _ <- _.
  unfold addTarget. cbv zeta. rewrite decide_True; [done|].
  cbn [Targets setTarget]. by rewrite lookup_insert_eq.
Qed.

Lemma addTarget_twice_is_duplicate_witness :
  addTarget rulesGraph
    (setTarget (mkPackage "a" ∅ ∅) "lib"
       (setCommand (NewBuildTarget (mkLabel "a" "lib")) "go build"))
    "lib" "go test" "$TEST" false true false false false false false false 0 0 0 ""
  = Panic DuplicateTarget.
Proof.
  apply (addTarget_twice_is_duplicate (mkGraph ∅ ∅ [] []) (mkGraph ∅ ∅ [] [])
           rulesGraph (mkPackage "a" ∅ ∅)
           (setTarget (mkPackage "a" ∅ ∅) "lib"
              (setCommand (NewBuildTarget (mkLabel "a" "lib")) "go build"))
           (setCommand (NewBuildTarget (mkLabel "a" "lib")) "go build")
           "lib" "go build" "" "go test" "$TEST"
           false false false false false false false false
           false true false false false false false false 0 0 0 0 0 0 "" "").
  reflexivity.
Defined.

(** ** Glob and parseSource agree on the files of a package *)

Lemma plainTree_entry entries k child :
  plainTree (Directory entries) -> (k, child) ∈ entries ->
  plainName k /\ plainTree child.
Proof.
  cbn [plainTree]. induction entries as [|[k' c'] es IH]; intros Hp Hin;
    [by inversion Hin|].
  destruct Hp as (Hk & Hc & Hes).
  apply elem_of_cons in Hin as [[= -> ->]|Hin]; [done|]. by apply IH.
Qed.

Lemma path_Join_plain l k :
  l ≠ [] -> Forall plainName l -> plainName k ->
  path_Join (joinSlash l) k = joinSlash (l ++ [k]).
Proof.
  intros Hne Hl Hk.
  assert (Hwf : wellFormedPackage (joinSlash l)).
  { right. by rewrite splitSlash_joinSlash by auto using plain_slashFree. }
  assert (Hks : splitSlash k = [k]) by apply Hk.
  destruct (join_components (joinSlash l) k Hwf) as (_ & _ & _ & _ & Hj & _).
  - rewrite Hks. intros Hin. apply list_elem_of_singleton in Hin.
    destruct Hk as (_ & _ & Hdd & _). done.
  - apply isRooted_keptName. split; [apply Hk | apply Hk].
  - apply Hk.
  - rewrite Hj, Hks.
    rewrite (filter_plain [k]) by (by apply Forall_singleton).
    rewrite cleanComps_noDotDot
      by (rewrite splitSlash_joinSlash by auto using plain_slashFree;
          by apply plain_notin).
    rewrite splitSlash_joinSlash by auto using plain_slashFree.
    rewrite filter_plain by done.
    apply renderPath_plain. by destruct l.
Qed.

Lemma find_none_Forall {A} (f : A -> bool) (l : list A) :
  Forall (fun x => f x = false) l -> List.find f l = None.
Proof. induction 1 as [|x l Hx _ IH]; [done|]. cbn [List.find]. by rewrite Hx. Qed.

Section Owned.
Context `{Core} `{GoLib}.
Context (env : ParseEnv) (packageName : string) (pc : list string) (rootNode : FsNode).
Hypothesis Hpc : Forall plainName pc.
Hypothesis Hpcne : pc ≠ [].
Hypothesis Hpkg : packageName = joinSlash pc.
Hypothesis Hplain : plainTree rootNode.

Lemma entered_components name n :
  entered env packageName rootNode name n ->
  exists ks,
    Forall plainName ks /\ name = joinSlash (pc ++ ks) /\ plainTree n
    /\ Forall (fun pre => isPackageInternal env (renderPath false (pc ++ pre)) = false)
         (prefixesAsc (removelast ks)).
Proof.
  induction 1 as [|name entries k child He IH Hopen Hin].
  - exists []. rewrite app_nil_r. split_and!; [done | done | done | constructor].
  - destruct IH as (ks & Hks & -> & Hdir & Hnp).
    destruct (plainTree_entry entries k child Hdir Hin) as [Hk Hchild].
    exists (ks ++ [k]).
    assert (Hall : Forall plainName (pc ++ ks)) by (by apply Forall_app).
    assert (Hne : pc ++ ks ≠ []) by (by destruct pc).
    split_and!.
    + apply Forall_app. split; [done | by apply Forall_singleton].
    + rewrite path_Join_plain by done. by rewrite <- app_assoc.
    + done.
    + rewrite removelast_last.
      destruct ks as [|c ks0 _] using rev_ind; [constructor|].
      rewrite prefixesAsc_snoc. apply Forall_app. split.
      * by rewrite removelast_last in Hnp.
      * apply Forall_singleton. rewrite renderPath_plain by done.
        destruct Hopen as [Heq|Hnot]; [|done]. exfalso.
        rewrite Hpkg in Heq. apply joinSlash_inj in Heq;
          [| done | done | by apply plain_slashFree..].
        apply (f_equal length) in Heq. rewrite !length_app in Heq. simpl in Heq. lia.
Qed.

Lemma parseSource_owned memo ks :
  ks ≠ [] -> Forall plainName ks ->
  Forall (fun pre => isPackageInternal env (renderPath false (pc ++ pre)) = false)
    (prefixesAsc (removelast ks)) ->
  memoValid env memo ->
  LooksLikeABuildLabel (joinSlash ks) = false ->
  Contains (joinSlash ks) "../" = false ->
  (parseSource env memo (joinSlash ks) packageName).1
  = Some (Ok (FileLabel (joinSlash ks) packageName)).
Proof.
  intros Hne Hks Hnp Hm Hlabel Hdd. unfold parseSource. rewrite Hlabel, Hdd.
  destruct (joinSlash_plain_ne ks Hne Hks) as [Hrne _].
  pose proof (isRooted_joinSlash ks Hks) as Hr.
  destruct (joinSlash ks) as [|c rel] eqn:Hrel; [done|]. cbn [firstByte].
  assert (Hc : Ascii.eqb c "/" = false).
  { unfold isRooted in Hr. cbn [HasPrefix] in Hr. rewrite Ascii.eqb_sym in Hr.
    by destruct (Ascii.eqb c "/"). }
  rewrite Hc. destruct (Contains (String c rel) "/"); [|done].
  rewrite <- Hrel.
  assert (Hwf : wellFormedPackage packageName).
  { right. rewrite Hpkg. by rewrite splitSlash_joinSlash by auto using plain_slashFree. }
  assert (Hsplit : splitSlash (joinSlash ks) = ks)
    by (by rewrite splitSlash_joinSlash by auto using plain_slashFree).
  destruct (join_components packageName (joinSlash ks) Hwf)
    as (Hpc' & _ & Hpkg' & _ & Hj & _).
  { rewrite Hsplit. by apply plain_notin. }
  { by rewrite Hrel. }
  { by rewrite Hrel. }
  rewrite Hsplit, filter_plain in Hj by done.
  assert (Hclean : cleanComps packageName = pc).
  { rewrite Hpkg. rewrite cleanComps_noDotDot
      by (rewrite splitSlash_joinSlash by auto using plain_slashFree;
          by apply plain_notin).
    rewrite splitSlash_joinSlash by auto using plain_slashFree.
    by apply filter_plain. }
  rewrite Hclean in Hj, Hpc', Hpkg'.
  destruct (exists_last Hne) as (ks0 & k & ->).
  apply Forall_app in Hks as [Hks0 Hk]. rewrite Forall_singleton in Hk.
  rewrite removelast_last in Hnp.
  assert (Hne' : pc ++ ks0 ++ [k] ≠ []) by (by destruct pc).
  rewrite Hj, renderPath_plain by done.
  rewrite app_assoc, path_Dir_joinSlash_snoc by (done || by apply Forall_app).
  destruct (ownerWalk_below env packageName pc Hpc' Hpkg' ks0 Hks0
              (String.length (joinSlash ((pc ++ ks0) ++ [k]))) memo)
    as (memo' & _ & Hw); [|done|].
  - etrans; [|apply length_joinSlash].
    + rewrite !length_app. lia.
    + apply (Forall_impl plainName); [|intros x Hx; exact (proj1 Hx)].
      rewrite !Forall_app, Forall_singleton. auto.
  - rewrite Hw.
    assert (Hfind : List.find (isPackageInternal env)
                      ((fun q => renderPath false (pc ++ q)) <$> rev (prefixesAsc ks0))
                    = None).
    { apply find_none_Forall, Forall_fmap, Forall_rev.
      eapply Forall_impl; [exact Hnp|]. by intros q Hq. }
    by rewrite Hfind.
Qed.

End Owned.

Lemma globFilter_elem `{GoLib} cPackage cExcludes includeHidden matches :
  forall filenames result f,
    globFilter cPackage cExcludes includeHidden filenames matches = Ok result ->
    f ∈ result ->
    f ∈ filenames
    \/ exists m, m ∈ matches
         /\ ((HasPrefix m cPackage = true
              /\ sliceFrom (String.length cPackage + 1) m = Ok f)
             \/ (HasPrefix m cPackage = false /\ f = m)).
Proof.
  induction matches as [|m matches IH]; intros filenames result f Hg Hf.
  { cbn in Hg. injection Hg as <-. by left. }
  rewrite globFilter_cons in Hg.
  assert (Hlater : forall filenames',
            globFilter cPackage cExcludes includeHidden filenames' matches = Ok result ->
            (forall x, x ∈ filenames' -> x ∈ filenames
               \/ (HasPrefix m cPackage = true
                    /\ sliceFrom (String.length cPackage + 1) m = Ok x)
               \/ (HasPrefix m cPackage = false /\ x = m)) ->
            f ∈ filenames
            \/ exists m0, m0 ∈ m :: matches
                 /\ ((HasPrefix m0 cPackage = true
                      /\ sliceFrom (String.length cPackage + 1) m0 = Ok f)
                     \/ (HasPrefix m0 cPackage = false /\ f = m0))).
  { intros filenames' Hg' Hstep.
    destruct (IH filenames' result f Hg' Hf) as [Hin|(m0 & Hm0 & Hcase)].
    - destruct (Hstep f Hin) as [?|Hcase]; [by left|].
      right. exists m. split; [apply list_elem_of_here | done].
    - right. exists m0. split; [by apply list_elem_of_further | done]. }
  destruct (negb includeHidden && isHidden m).
  { apply (Hlater filenames Hg). by left. }
  destruct (shouldExcludeMatch m cPackage cExcludes) as [[]|e];
    cbn [mbind result_bind] in Hg; [| | done].
  { apply (Hlater filenames Hg). by left. }
  destruct (HasPrefix m cPackage) eqn:Hp.
  - destruct (sliceFrom _ m) as [x|e] eqn:Hx; cbn [mbind result_bind] in Hg; [|done].
    apply (Hlater _ Hg). intros y Hy. apply elem_of_app in Hy as [?|Hy]; [by left|].
    apply list_elem_of_singleton in Hy as ->. right. by left.
  - apply (Hlater _ Hg). intros y Hy. apply elem_of_app in Hy as [?|Hy]; [by left|].
    apply list_elem_of_singleton in Hy as ->. right. by right.
Qed.

Section GlobbedFiles.
Context `{Core} `{GoLib}.

Lemma glob_matches_owned env memo memo1 memo' cPackage pattern rootNode matches m f :
  Forall plainName (splitSlash cPackage) ->
  Lstat (fsRoot env) cPackage = Some rootNode -> plainTree rootNode ->
  Contains pattern "**" = true -> memoValid env memo -> memoValid env memo' ->
  glob env memo cPackage pattern = (Ok matches, memo1) ->
  m ∈ matches ->
  (HasPrefix m cPackage = true /\ sliceFrom (String.length cPackage + 1) m = Ok f)
  \/ (HasPrefix m cPackage = false /\ f = m) ->
  LooksLikeABuildLabel f = false -> Contains f "../" = false ->
  (parseSource env memo' f cPackage).1 = Some (Ok (FileLabel f cPackage)).
Proof.
  intros Hwf Hl Hplain Hstar Hm Hm' Hglob Hin Hcase Hlabel Hdd.
  set (pc := splitSlash cPackage) in *.
  assert (Hpkg : cPackage = joinSlash pc)
    by (symmetry; apply joinSlash_splitSlash).
  assert (Hpcne : pc ≠ []) by apply splitSlash_nonempty.
  unfold glob in Hglob. rewrite Hstar in Hglob. cbn [negb] in Hglob.
  destruct (regexpCompile _) as [regex|]; [|done]. rewrite Hl in Hglob.
  destruct (walkNode_matches env cPackage regex rootNode cPackage [] memo Hm)
    as (m2 & Hw & _ & _).
  rewrite Hw in Hglob. injection Hglob as <- <-. cbn [app] in Hin.
  apply elem_of_walkMatches in Hin as [He _].
  destruct (entered_components env cPackage pc rootNode Hwf Hpcne Hpkg Hplain
              m RegularFile He) as (ks & Hks & Hmks & _ & Hnp).
  destruct (decide (ks = [])) as [->|Hksne].
  { exfalso. rewrite app_nil_r, <- Hpkg in Hmks. subst m.
    rewrite HasPrefix_refl in Hcase. destruct Hcase as [[_ Hs]|[? _]]; [|done].
    unfold sliceFrom in Hs. rewrite decide_False in Hs by lia. done. }
  assert (Hmrel : m = cPackage +:+ String "/" (joinSlash ks)).
  { by rewrite Hmks, joinSlash_app, <- Hpkg. }
  assert (Hf : f = joinSlash ks).
  { rewrite Hmrel, HasPrefix_app in Hcase. destruct Hcase as [[_ Hs]|[? _]]; [|done].
    unfold sliceFrom in Hs. rewrite decide_True in Hs
      by (rewrite length_append; simpl; lia).
    injection Hs as <-.
    replace (String.length cPackage + 1)%nat with (S (String.length cPackage)) by lia.
    change (cPackage +:+ String "/" (joinSlash ks))
      with (cPackage +:+ String "/" "" +:+ joinSlash ks).
    rewrite <- (append_assoc cPackage (String "/" "") (joinSlash ks)).
    replace (S (String.length cPackage))
      with (String.length (cPackage +:+ String "/" "")) by (rewrite length_append; simpl; lia).
    apply dropString_app. }
  subst f.
  by apply (parseSource_owned env cPackage pc Hwf Hpcne Hpkg memo' ks).
Qed.

(** X29: what Glob returns for patterns with [**] parseSource accepts.
    Take memo tables that agree with the file system, for the call of Glob
    and for the call of parseSource, and a package with a well-formed,
    non-empty name whose directory exists and holds a tree with plain
    names.  Then every name that Glob returns for include patterns that all
    contain [**] is a file of the package for parseSource, unless the name
    looks like a build label or contains [../]. *)
Theorem Glob_files_are_owned (env : ParseEnv) (memo memo' : gmap string bool)
    (cPackage : string) (cIncludes cExcludes : list string) (includeHidden : bool)
    (rootNode : FsNode) (filenames : list string) (f : string) :
  wellFormedPackage cPackage -> cPackage ≠ "" ->
  Lstat (fsRoot env) cPackage = Some rootNode -> plainTree rootNode ->
  Forall (fun include => Contains include "**" = true) cIncludes ->
  memoValid env memo -> memoValid env memo' ->
  (Glob env memo cPackage cIncludes cExcludes includeHidden).1 = Ok filenames ->
  f ∈ filenames ->
  LooksLikeABuildLabel f = false -> Contains f "../" = false ->
  (parseSource env memo' f cPackage).1 = Some (Ok (FileLabel f cPackage)).
Proof.
  intros Hwf Hne Hl Hplain Hstar Hm Hm' Hglob Hin Hlabel Hdd.
  destruct Hwf as [?|Hwf]; [done|].
  rewrite Glob_globStep in Hglob.
  set (Q := fun x : string =>
              LooksLikeABuildLabel x = false -> Contains x "../" = false ->
              (parseSource env memo' x cPackage).1 = Some (Ok (FileLabel x cPackage))).
  assert (Hgen : forall acc memo0 result,
            memoValid env memo0 -> Forall Q acc ->
            (foldl (globStep env cPackage cExcludes includeHidden) (Ok acc, memo0)
               cIncludes).1 = Ok result ->
            Forall Q result).
  { clear Hglob Hin filenames Hm memo.
    induction cIncludes as [|include cIncludes IH]; intros acc memo0 result Hm0 Hacc Hr.
    { cbn in Hr. by injection Hr as <-. }
    apply Forall_cons in Hstar as [Hi Hstar]. cbn [foldl] in Hr. unfold globStep at 2 in Hr.
    pose proof (glob_memo env memo0 cPackage include Hm0) as (_ & Hm1 & _).
    destruct (glob env memo0 cPackage include) as [[matches|e] memo1] eqn:Hg;
      [|by rewrite globStep_panicked in Hr].
    destruct (globFilter cPackage cExcludes includeHidden acc matches) as [acc'|e] eqn:Hf;
      [|by rewrite globStep_panicked in Hr].
    apply (IH Hstar acc' memo1 result Hm1); [|done].
    apply Forall_forall. intros x Hx.
    destruct (globFilter_elem _ _ _ _ _ _ x Hf Hx) as [Hold|(m & Hmm & Hcase)].
    - rewrite Forall_forall in Hacc. by apply Hacc.
    - intros Hxl Hxd.
      by apply (glob_matches_owned env memo0 memo1 memo' cPackage include rootNode
                  matches m x). }
  specialize (Hgen [] memo filenames Hm (Forall_nil_2 _) Hglob).
  rewrite Forall_forall in Hgen. by apply Hgen.
Qed.

End GlobbedFiles.

Lemma Glob_files_are_owned_witness :
  (@parseSource exampleCore deepEnv ∅ "lib/util/strings.go" "p").1
  = Some (Ok (FileLabel "lib/util/strings.go" "p")).
Proof.
  apply (@Glob_files_are_owned exampleCore exampleGoLib deepEnv ∅ ∅
           "p" ["**/*.go"] [] false
           (Directory
              [("BUILD", RegularFile);
               ("lib", Directory [("util", Directory [("strings.go", RegularFile)])]);
               ("sub", Directory [("BUILD", RegularFile); ("inner.go", RegularFile)])])
           ["lib/util/strings.go"]).
  - right. repeat constructor; discriminate.
  - discriminate.
  - reflexivity.
  - cbn. unfold plainName, slashFree. repeat split; discriminate.
  - by repeat constructor.
  - apply memoValid_empty.
  - apply memoValid_empty.
  - reflexivity.
  - apply list_elem_of_here.
  - reflexivity.
  - reflexivity.
Defined.
